(** * Puzzle-Solver: constraint propagators and grid models

    A shallow embedding of [propagators.py] (prop_BT, prop_FC, prop_GAC) and
    of the grid model builder of [models.py], together with the properties
    the design document states about them.

    Python objects are modelled by their identity: a [Variable] is a number
    naming a cell of the store, a [Constraint] is a record that carries its
    own identity number.  Mutation is explicit state passing over a [World]
    (the CSP object and the store of variables); a failing call is a raised
    exception that keeps the world as it was left. *)

From Stdlib Require Import List ZArith Bool Arith Lia String DecimalString.
From Stdlib Require Import Ascii DecimalNat Permutation.
Import ListNotations.

Set Implicit Arguments.

(* ================================================================== *)
(** * Data model (cspbase) *)
(* ================================================================== *)

(** A variable object is named by its identity; its fields live in the store. *)
Definition Var := nat.
Definition Value := Z.

(** Modelled from the spec: the class [Variable] of cspbase, which is not
    among the sources.  Section 3 lists its attributes: a name, the initial
    domain (an ordered sequence fixed at creation), the current domain and
    the optional assigned value. *)
Record VarState : Type := mkVar {
  v_name : string;
  v_dom : list Value;
  v_curdom : list Value;
  v_assigned : option Value
}.

(** Modelled from the spec: the class [Constraint] of cspbase (section 3):
    a name, an ordered scope and the satisfying tuples, one value per scope
    position.  [cid] is the identity of the object: two constraint objects
    built by two calls of the constructor differ in it. *)
Record Constraint : Type := mkCon {
  cid : nat;
  c_name : string;
  c_scope : list Var;
  sat_tuples : list (list Value)
}.

(** Modelled from the spec: the class [CSP] of cspbase (section 3), owner of
    the variables and of the constraints, both in insertion order. *)
Record CSP : Type := mkCSP {
  csp_name : string;
  csp_vars : list Var;
  csp_cons : list Constraint
}.

(** The objects of a run: the CSP object, the fields of every variable
    object, and the identities the constructors hand out next. *)
Record World : Type := mkWorld {
  w_csp : CSP;
  w_var : Var -> VarState;
  w_nvar : nat;
  w_ncon : nat
}.

(** A pruning record of a propagator. *)
Definition Prune : Type := (Var * Value)%type.

Definition Constraint_eq_dec (c d : Constraint) : {c = d} + {c <> d}.
Proof.
  decide equality.
  - apply (list_eq_dec (list_eq_dec Z.eq_dec)).
  - apply (list_eq_dec Nat.eq_dec).
  - apply string_dec.
  - apply Nat.eq_dec.
Defined.

Definition Prune_eq_dec (p q : Prune) : {p = q} + {p <> q}.
Proof.
  decide equality.
  - apply Z.eq_dec.
  - apply Nat.eq_dec.
Defined.

(* ------------------------------------------------------------------ *)
(** ** Outcomes of a call *)
(* ------------------------------------------------------------------ *)

(** Modelled from the spec: the failures that sections 4.1 and 9 give to the
    methods of [Variable]; [IndexError] is Python's own, raised by the
    subscript [l[0]] of an empty list. *)
Inductive Exn : Type :=
| IndexError
| InvalidAssignment
| InvalidState
| InvalidDomain.

Inductive res (A : Type) : Type :=
| Ok (a : A)
| Raise (e : Exn).
Arguments Raise {A} e.

(** A call runs from a world to a world and either returns or raises. *)
Definition M (A : Type) : Type := World -> World * res A.

Definition ret {A} (a : A) : M A := fun w => (w, Ok a).
Definition raise {A} (e : Exn) : M A := fun w => (w, Raise e).
Definition bind {A B} (m : M A) (k : A -> M B) : M B :=
  fun w => match m w with
           | (w', Ok a) => k a w'
           | (w', Raise e) => (w', Raise e)
           end.
Definition gets {A} (f : World -> A) : M A := fun w => (w, Ok (f w)).

Declare Scope prop_scope.
Delimit Scope prop_scope with prop.
Notation "x <- m ;; k" := (bind m (fun x => k))
  (at level 61, m at next level, right associativity) : prop_scope.
Notation "m ;;; k" := (bind m (fun _ => k))
  (at level 61, right associativity) : prop_scope.
Local Open Scope prop_scope.

(** Leaving a loop body: go on with the loop state or return from the
    function. *)
Inductive ctl (S R : Type) : Type :=
| Next (s : S)
| Return (r : R).
Arguments Next {S R} s.
Arguments Return {S R} r.

(* ------------------------------------------------------------------ *)
(** ** Variable *)
(* ------------------------------------------------------------------ *)

Definition in_dom (v : Value) (l : list Value) : bool := existsb (Z.eqb v) l.

Definition set_var (X : Var) (s : VarState) (w : World) : World :=
  mkWorld (w_csp w) (fun Y => if Nat.eqb Y X then s else w_var w Y)
          (w_nvar w) (w_ncon w).

(** Modelled from the spec: [cur_domain()] of section 4.1, the materialized
    sequence of the current values (prop_GAC compares it with []). *)
Definition cur_domain (X : Var) (w : World) : list Value := v_curdom (w_var w X).

(** Modelled from the spec: [get_assigned_value()], the optional assigned
    value of section 3. *)
Definition get_assigned_value (X : Var) (w : World) : option Value :=
  v_assigned (w_var w X).

Definition is_assigned (X : Var) (w : World) : bool :=
  match get_assigned_value X w with Some _ => true | None => false end.

(** Modelled from the spec: [assign(value)] of section 4.1: sets the assigned
    value, leaves the current domain alone, fails with InvalidAssignment when
    the value is not in the current domain or the variable is assigned. *)
Definition assign (X : Var) (v : Value) : M unit := fun w =>
  let s := w_var w X in
  if is_assigned X w || negb (in_dom v (v_curdom s))
  then (w, Raise InvalidAssignment)
  else (set_var X (mkVar (v_name s) (v_dom s) (v_curdom s) (Some v)) w, Ok tt).

(** Modelled from the spec: [unassign()] of section 4.1: clears the assigned
    value, fails with InvalidState when there is none. *)
Definition unassign (X : Var) : M unit := fun w =>
  let s := w_var w X in
  if is_assigned X w
  then (set_var X (mkVar (v_name s) (v_dom s) (v_curdom s) None) w, Ok tt)
  else (w, Raise InvalidState).

(** Modelled from the spec: [prune_value(v)] of section 4.1: removes v from
    the current domain, fails with InvalidDomain when v is not present. *)
Definition prune_value (X : Var) (v : Value) : M unit := fun w =>
  let s := w_var w X in
  if in_dom v (v_curdom s)
  then (set_var X (mkVar (v_name s) (v_dom s) (remove Z.eq_dec v (v_curdom s))
                         (v_assigned s)) w, Ok tt)
  else (w, Raise InvalidDomain).

(* ------------------------------------------------------------------ *)
(** ** Constraint *)
(* ------------------------------------------------------------------ *)

(** Modelled from the spec: [get_scope()] of section 4.2, the ordered scope. *)
Definition get_scope (c : Constraint) : list Var := c_scope c.

Fixpoint vals_eqb (t : list Value) (vals : list (option Value)) : bool :=
  match t, vals with
  | [], [] => true
  | u :: t', Some v :: vals' => Z.eqb u v && vals_eqb t' vals'
  | _, _ => false
  end.

(** Modelled from the spec: [check(values)] of section 4.2: true iff the
    vector, one entry per scope position, is one of the stored tuples.  An
    entry read off an unassigned variable is Python's None and equals no
    value. *)
Definition check (c : Constraint) (vals : list (option Value)) : bool :=
  existsb (fun t => vals_eqb t vals) (sat_tuples c).

(** Modelled from the spec: a value offered for a scope variable lies in its
    current domain, or equals its assigned value if assigned (section 4.2). *)
Definition in_cur_domain (X : Var) (v : Value) (w : World) : bool :=
  match get_assigned_value X w with
  | Some a => Z.eqb v a
  | None => in_dom v (cur_domain X w)
  end.

(** Modelled from the spec: a tuple supports a value of a variable (section
    4.2): it has the arity of the scope, holds the value at the positions of
    the variable and an allowed value at every other position. *)
Fixpoint tuple_supports (w : World) (X : Var) (v : Value)
         (scope : list Var) (t : list Value) : bool :=
  match scope, t with
  | [], [] => true
  | Y :: scope', u :: t' =>
      (if Nat.eqb Y X then Z.eqb u v else in_cur_domain Y u w)
      && tuple_supports w X v scope' t'
  | _, _ => false
  end.

(** Modelled from the spec: [has_support(variable, value)] of section 4.2:
    some satisfying tuple holds the value at the variable's position and,
    at every other position, a value allowed for the variable there. *)
Definition has_support (c : Constraint) (X : Var) (v : Value) (w : World) : bool :=
  existsb (Nat.eqb X) (get_scope c)
  && existsb (tuple_supports w X v (get_scope c)) (sat_tuples c).

(** Modelled from the spec: [get_unasgn_vars()] and [get_n_unasgn()] of
    section 4.2, the scope members without an assigned value and their
    number. *)
Definition get_unasgn_vars (c : Constraint) (w : World) : list Var :=
  filter (fun X => negb (is_assigned X w)) (get_scope c).

Definition get_n_unasgn (c : Constraint) (w : World) : nat :=
  List.length (get_unasgn_vars c w).

(* ------------------------------------------------------------------ *)
(** ** CSP *)
(* ------------------------------------------------------------------ *)

(** Modelled from the spec: [get_all_cons()] of section 4.3, the full listing
    of the constraints in insertion order.  The listing is a list of its
    own: the worklist that prop_GAC makes of it is popped and appended to in
    place, and section 4.1 names the methods of [Variable] as the only
    mutation points of the system. *)
Definition get_all_cons (w : World) : list Constraint := csp_cons (w_csp w).

Definition in_scope (X : Var) (c : Constraint) : bool :=
  existsb (Nat.eqb X) (get_scope c).

(** Modelled from the spec: [get_cons_with_var(variable)] of section 4.3, all
    constraints whose scope contains the variable. *)
Definition get_cons_with_var (X : Var) (w : World) : list Constraint :=
  filter (in_scope X) (csp_cons (w_csp w)).

(* ================================================================== *)
(** * Propagators (propagators.py) *)
(* ================================================================== *)

(** The values the scope variables are assigned, in scope order: the list
    [vals] that prop_BT and prop_FC build before they call [check]. *)
Definition assigned_values (c : Constraint) (w : World) : list (option Value) :=
  map (fun X => get_assigned_value X w) (get_scope c).

(* ------------------------------------------------------------------ *)
(** ** prop_BT *)
(* ------------------------------------------------------------------ *)

Fixpoint BT_loop (cs : list Constraint) : M (bool * list Prune) :=
  match cs with
  | [] => ret (true, [])
  | c :: cs' =>
      n <- gets (get_n_unasgn c) ;;
      if Nat.eqb n 0 then
        vals <- gets (assigned_values c) ;;
        if negb (check c vals) then ret (false, []) else BT_loop cs'
      else BT_loop cs'
  end.

Definition prop_BT (newVar : option Var) : M (bool * list Prune) :=
  match newVar with
  | None => ret (true, [])
  | Some V =>
      cs <- gets (get_cons_with_var V) ;;
      BT_loop cs
  end.

(* ------------------------------------------------------------------ *)
(** ** prop_FC *)
(* ------------------------------------------------------------------ *)

(** The loop [for val in var.cur_domain()] of prop_FC over the snapshot
    [vals] of the current domain; [flag] records a surviving value. *)
Fixpoint FC_vals (con : Constraint) (var : Var) (vals : list Value)
         (prune_lst : list Prune) (flag : bool) : M (list Prune * bool) :=
  match vals with
  | [] => ret (prune_lst, flag)
  | val :: vals' =>
      assign var val ;;;
      vs <- gets (assigned_values con) ;;
      unassign var ;;;
      if negb (check con vs) then
        prune_value var val ;;;
        FC_vals con var vals' (prune_lst ++ [(var, val)]) flag
      else
        FC_vals con var vals' prune_lst true
  end.

(** The loop [for con in lst] of prop_FC. *)
Fixpoint FC_cons (lst : list Constraint) (prune_lst : list Prune) (flag : bool)
  : M (bool * list Prune) :=
  match lst with
  | [] => ret (true, prune_lst)
  | con :: lst' =>
      us <- gets (get_unasgn_vars con) ;;
      match us with
      | [] => raise IndexError
      | var :: _ =>
          dom <- gets (cur_domain var) ;;
          r <- FC_vals con var dom prune_lst flag ;;
          if negb (snd r) then ret (false, fst r)
          else FC_cons lst' (fst r) false
      end
  end.

(** The constraints prop_FC collects before it propagates. *)
Definition FC_collect (newVar : option Var) (w : World) : list Constraint :=
  match newVar with
  | None => filter (fun con => Nat.eqb (List.length (get_scope con)) 1) (get_all_cons w)
  | Some V => filter (fun con => Nat.eqb (get_n_unasgn con w) 1) (get_cons_with_var V w)
  end.

Definition prop_FC (newVar : option Var) : M (bool * list Prune) :=
  lst <- gets (FC_collect newVar) ;;
  FC_cons lst [] false.

(* ------------------------------------------------------------------ *)
(** ** prop_GAC *)
(* ------------------------------------------------------------------ *)

(** The loop [for con in csp.get_cons_with_var(var): if con not in que:
    que.append(con)].  Membership of a list compares objects by identity. *)
Fixpoint enqueue (que : list Constraint) (cs : list Constraint) : list Constraint :=
  match cs with
  | [] => que
  | con :: cs' =>
      enqueue (if in_dec Constraint_eq_dec con que then que else que ++ [con]) cs'
  end.

(** The loop [for val in var.cur_domain()] of prop_GAC over the snapshot
    [vals]; the loop state is the worklist and the prune list. *)
Fixpoint GAC_vals (curr : Constraint) (var : Var) (vals : list Value)
         (que : list Constraint) (prune_lst : list Prune)
  : M (ctl (list Constraint * list Prune) (bool * list Prune)) :=
  match vals with
  | [] => ret (Next (que, prune_lst))
  | val :: vals' =>
      sup <- gets (has_support curr var val) ;;
      if negb sup then
        prune_value var val ;;;
        let prune_lst' := prune_lst ++ [(var, val)] in
        dom <- gets (cur_domain var) ;;
        match dom with
        | [] => ret (Return (false, prune_lst'))
        | _ :: _ =>
            cs <- gets (get_cons_with_var var) ;;
            GAC_vals curr var vals' (enqueue que cs) prune_lst'
        end
      else GAC_vals curr var vals' que prune_lst
  end.

(** The loop [for var in curr.get_scope()] of prop_GAC. *)
Fixpoint GAC_scope (curr : Constraint) (vars : list Var)
         (que : list Constraint) (prune_lst : list Prune)
  : M (ctl (list Constraint * list Prune) (bool * list Prune)) :=
  match vars with
  | [] => ret (Next (que, prune_lst))
  | var :: vars' =>
      dom <- gets (cur_domain var) ;;
      r <- GAC_vals curr var dom que prune_lst ;;
      match r with
      | Next (que', prune_lst') => GAC_scope curr vars' que' prune_lst'
      | Return out => ret (Return out)
      end
  end.

(** The loop [while que != []]: every round pops the head of the worklist.
    The rounds are counted by [fuel]; [None] is a run that needs more. *)
Fixpoint GAC_loop (fuel : nat) (que : list Constraint) (prune_lst : list Prune)
         (w : World) : option (World * res (bool * list Prune)) :=
  match que with
  | [] => Some (w, Ok (true, prune_lst))
  | curr :: que' =>
      match fuel with
      | O => None
      | S fuel' =>
          match GAC_scope curr (get_scope curr) que' prune_lst w with
          | (w', Ok (Next (que'', prune_lst'))) => GAC_loop fuel' que'' prune_lst' w'
          | (w', Ok (Return out)) => Some (w', Ok out)
          | (w', Raise e) => Some (w', Raise e)
          end
      end
  end.

(** The worklist prop_GAC starts from. *)
Definition GAC_init (newVar : option Var) (w : World) : list Constraint :=
  match newVar with
  | None => get_all_cons w
  | Some V => get_cons_with_var V w
  end.

Definition prop_GAC_fuel (fuel : nat) (newVar : option Var) (w : World)
  : option (World * res (bool * list Prune)) :=
  GAC_loop fuel (GAC_init newVar w) [] w.

(* ================================================================== *)
(** * Grid models (models.py) *)
(* ================================================================== *)

(** Python's [str] on a non-negative integer. *)
Definition str (k : nat) : string := NilZero.string_of_uint (Nat.to_uint k).

(** Python's [range(a, b)]. *)
Definition range (a b : nat) : list nat := seq a (b - a).

(** A [for] loop whose body updates a local value. *)
Fixpoint foldM {A S : Type} (body : S -> A -> M S) (l : list A) (s : S) : M S :=
  match l with
  | [] => ret s
  | a :: l' => s' <- body s a ;; foldM body l' s'
  end.

(** A [for] loop whose body only acts on the objects. *)
Fixpoint forM (A : Type) (l : list A) (body : A -> M unit) : M unit :=
  match l with
  | [] => ret tt
  | a :: l' => body a ;;; forM l' body
  end.

(** The subscript [l[i]] of a list. *)
Definition subscript {A : Type} (l : list A) (i : nat) : M A :=
  match nth_error l i with
  | Some a => ret a
  | None => raise IndexError
  end.

(** Modelled from the spec: the constructor [CSP(name)] of cspbase, a CSP
    that owns no variable and no constraint yet. *)
Definition new_CSP (name : string) : M unit := fun w =>
  (mkWorld (mkCSP name [] []) (w_var w) (w_nvar w) (w_ncon w), Ok tt).

(** Modelled from the spec: the constructor [Variable(name, domain)] of
    cspbase: a new object, its current domain the initial one, unassigned. *)
Definition new_Variable (name : string) (domain : list Value) : M Var := fun w =>
  let X := w_nvar w in
  (mkWorld (w_csp w)
           (fun Y => if Nat.eqb Y X then mkVar name domain domain None else w_var w Y)
           (S X) (w_ncon w), Ok X).

(** Modelled from the spec: the constructor [Constraint(name, scope)] of
    cspbase: a new object with no satisfying tuple yet. *)
Definition new_Constraint (name : string) (scope : list Var) : M Constraint := fun w =>
  (mkWorld (w_csp w) (w_var w) (w_nvar w) (S (w_ncon w)),
   Ok (mkCon (w_ncon w) name scope [])).

(** Modelled from the spec: [add_satisfying_tuples] of cspbase, which fills
    the satisfying-tuple set of section 3 at model-build time.  It stores
    the tuples it is given: that a tuple has the arity of the scope
    (section 3) is the caller's part, and is proved of the callers where a
    property rests on it. *)
Definition add_satisfying_tuples (con : Constraint) (tuples : list (list Value))
  : Constraint :=
  mkCon (cid con) (c_name con) (c_scope con)
        (fold_left (fun acc t => if in_dec (list_eq_dec Z.eq_dec) t acc
                                 then acc else acc ++ [t])
                   tuples (sat_tuples con)).

(** Modelled from the spec: [add_var] of section 4.3. *)
Definition add_var (v : Var) : M unit := fun w =>
  let csp := w_csp w in
  (mkWorld (mkCSP (csp_name csp) (csp_vars csp ++ [v]) (csp_cons csp))
           (w_var w) (w_nvar w) (w_ncon w), Ok tt).

(** Modelled from the spec: [add_constraint] of section 4.3; the design
    document records that the source has no guard against a name that is
    already taken. *)
Definition add_constraint (c : Constraint) : M unit := fun w =>
  let csp := w_csp w in
  (mkWorld (mkCSP (csp_name csp) (csp_vars csp) (csp_cons csp ++ [c]))
           (w_var w) (w_nvar w) (w_ncon w), Ok tt).

(** [var_array[i].append(v)] on a list of rows. *)
Fixpoint append_at (A : Type) (rows : list (list A)) (i : nat) (v : A)
  : option (list (list A)) :=
  match rows, i with
  | [], _ => None
  | row :: rows', O => Some ((row ++ [v]) :: rows')
  | row :: rows', S i' =>
      match append_at rows' i' v with
      | Some r => Some (row :: r)
      | None => None
      end
  end.

Definition init_board (n : nat) : M (list (list Var)) :=
  let var_array := repeat [] n in
  let dom := map Z.of_nat (range 1 (n + 1)) in
  foldM (fun var_array i =>
    foldM (fun var_array j =>
      v <- new_Variable (str (n - i) ++ str (j + 1)) dom ;;
      match append_at var_array i v with
      | Some var_array' => add_var v ;;; ret var_array'
      | None => raise IndexError
      end) (range 0 n) var_array) (range 0 n) var_array.

Definition _expand (x y : nat) (board : list (list Var)) (n : nat)
           (sat : list (list Value)) : M unit :=
  forM (range (x + 1) n) (fun i =>
    (* fix y and change x *)
    rx <- subscript board x ;; bxy <- subscript rx y ;;
    ri <- subscript board i ;; biy <- subscript ri y ;;
    con <- new_Constraint (str x ++ str y ++ str i ++ str y) [bxy; biy] ;;
    add_constraint (add_satisfying_tuples con sat)) ;;;
  forM (range (y + 1) n) (fun i =>
    (* fix x and change y *)
    rx <- subscript board x ;; bxy <- subscript rx y ;;
    rx' <- subscript board x ;; bxi <- subscript rx' i ;;
    con <- new_Constraint (str x ++ str y ++ str i ++ str y) [bxy; bxi] ;;
    add_constraint (add_satisfying_tuples con sat)).

Definition binary_constraint_generator (n : nat) (board : list (list Var))
           (sat : list (list Value)) : M unit :=
  forM (range 0 n) (fun i =>
    forM (range 0 n) (fun j => _expand i j board n sat)).

(** The satisfying tuples of a binary not-equal constraint over 1..n. *)
Definition ne_tuples (n : nat) : list (list Value) :=
  flat_map (fun x =>
    flat_map (fun y =>
      if Nat.eqb x y then [] else [[Z.of_nat x; Z.of_nat y]])
      (range 1 (n + 1))) (range 1 (n + 1)).

Definition warehouse_binary_ne_grid (warehouse_grid : list (list nat))
  : M (list (list Var)) :=
  new_CSP "binary" ;;;
  row0 <- subscript warehouse_grid 0 ;;
  n <- subscript row0 0 ;;
  var_array <- init_board n ;;
  binary_constraint_generator n var_array (ne_tuples n) ;;;
  ret var_array.

(* ================================================================== *)
(** * Notions the properties are stated with *)
(* ================================================================== *)

(** Two worlds hold the same objects. *)
Definition weq (w w' : World) : Prop :=
  w_csp w' = w_csp w /\ w_nvar w' = w_nvar w /\ w_ncon w' = w_ncon w /\
  forall X, w_var w' X = w_var w X.

(** Two worlds differ at most in the current domains of their variables, and
    the current domains of the second lie within those of the first. *)
Definition frame (w w' : World) : Prop :=
  w_csp w' = w_csp w /\ w_nvar w' = w_nvar w /\ w_ncon w' = w_ncon w /\
  forall X, v_name (w_var w' X) = v_name (w_var w X) /\
            v_dom (w_var w' X) = v_dom (w_var w X) /\
            v_assigned (w_var w' X) = v_assigned (w_var w X) /\
            incl (v_curdom (w_var w' X)) (v_curdom (w_var w X)).

(** A constraint is arc consistent: every current value of every scope
    variable has a support. *)
Definition gac_ok (c : Constraint) (w : World) : Prop :=
  forall X v, In X (get_scope c) -> In v (cur_domain X w) ->
              has_support c X v w = true.

(** Undoing in reverse: pruning the pairs of a prune list again, in order,
    from the world the call started in. *)
Fixpoint replay (ps : list Prune) : M unit :=
  match ps with
  | [] => ret tt
  | (X, v) :: ps' => prune_value X v ;;; replay ps'
  end.

Definition pruned (ps : list Prune) (X : Var) (v : Value) : bool :=
  if in_dec Prune_eq_dec (X, v) ps then true else false.

(** The verdict of prop_BT on the constraints of a listing: each one that
    is fully assigned passes [check] on its assigned values. *)
Definition BT_verdict (cs : list Constraint) (w : World) : bool :=
  forallb (fun c => negb (Nat.eqb (get_n_unasgn c w) 0)
                    || check c (assigned_values c w)) cs.

(** The current world is the start world with the pairs of the prune list
    pruned in order. *)
Definition tracks (w0 : World) (ps : list Prune) (w : World) : Prop :=
  exists wr, replay ps w0 = (wr, Ok tt) /\ weq wr w.

(** The invariant of the loop of prop_GAC: a constraint of the CSP waits in
    the worklist or is arc consistent. *)
Definition gac_inv (que : list Constraint) (w : World) : Prop :=
  forall c, In c (get_all_cons w) -> In c que \/ gac_ok c w.

(** The same during the round of [curr], which has left the worklist. *)
Definition gac_pending (curr : Constraint) (que : list Constraint) (w : World)
  : Prop :=
  forall c, In c (get_all_cons w) -> c <> curr -> In c que \/ gac_ok c w.

(** The worklist after the prunes [news] of a round: one enqueuing, in the
    order of the prunes, of the constraints on the pruned variable. *)
Definition enqueue_all (w : World) (news : list Prune) (que : list Constraint)
  : list Constraint :=
  fold_left (fun q p => enqueue q (get_cons_with_var (fst p) w)) news que.

(** Rounds that always suffice for prop_GAC: the worklist can be emptied
    once without a prune, and every prune, of which there are at most as
    many as current values of scope variables, lets it grow again by at most
    all constraints of the CSP. *)
Definition scope_vars (w : World) : list Var :=
  flat_map get_scope (get_all_cons w).

Definition dom_size (vs : list Var) (w : World) : nat :=
  list_sum (map (fun X => List.length (cur_domain X w)) vs).

Definition GAC_fuel (newVar : option Var) (w : World) : nat :=
  List.length (GAC_init newVar w)
  + dom_size (scope_vars w) w * S (List.length (get_all_cons w)).

(** prop_GAC, with the rounds it can need. *)
Definition prop_GAC (newVar : option Var) : M (bool * list Prune) := fun w =>
  match prop_GAC_fuel (GAC_fuel newVar w) newVar w with
  | Some r => r
  | None => (w, Ok (true, []))
  end.

(** The three propagators under one interface. *)
Inductive Propagator : Type := BT | FC | GAC.

Definition run_prop (p : Propagator) (newVar : option Var)
  : M (bool * list Prune) :=
  match p with
  | BT => prop_BT newVar
  | FC => prop_FC newVar
  | GAC => prop_GAC newVar
  end.

(** The worklists that the test [while que != []] of prop_GAC sees, round
    after round. *)
Fixpoint GAC_worklists (fuel : nat) (que : list Constraint) (prune_lst : list Prune)
         (w : World) : list (list Constraint) :=
  que ::
  match que, fuel with
  | curr :: que', S fuel' =>
      match GAC_scope curr (get_scope curr) que' prune_lst w with
      | (w', Ok (Next (que'', prune_lst'))) => GAC_worklists fuel' que'' prune_lst' w'
      | _ => []
      end
  | _, _ => []
  end.

(** No scope variable of a unary constraint is assigned. *)
Definition unary_unassigned (w : World) : Prop :=
  forall con, In con (get_all_cons w) -> List.length (get_scope con) = 1 ->
              get_unasgn_vars con w <> [].

(** The vector [check] is given in a probe of prop_FC: the candidate value
    at the positions of the probed variable, the assigned values elsewhere. *)
Definition probe_vals (con : Constraint) (U : Var) (val : Value) (w : World)
  : list (option Value) :=
  map (fun Y => if Nat.eqb Y U then Some val else get_assigned_value Y w)
      (get_scope con).

Definition failing (con : Constraint) (U : Var) (w : World) : list Value :=
  filter (fun val => negb (check con (probe_vals con U val w))) (cur_domain U w).

Definition surviving (con : Constraint) (U : Var) (w : World) : list Value :=
  filter (fun val => check con (probe_vals con U val w)) (cur_domain U w).

(** [w'] is [w] after the values [bad] left the current domain of [U]. *)
Definition pruned_to (U : Var) (bad : list Value) (w w' : World) : Prop :=
  w_csp w' = w_csp w /\ w_nvar w' = w_nvar w /\ w_ncon w' = w_ncon w /\
  (forall Y, Y <> U -> w_var w' Y = w_var w Y) /\
  v_name (w_var w' U) = v_name (w_var w U) /\
  v_dom (w_var w' U) = v_dom (w_var w U) /\
  v_assigned (w_var w' U) = v_assigned (w_var w U) /\
  v_curdom (w_var w' U) =
    filter (fun v => negb (in_dom v bad)) (v_curdom (w_var w U)).

(** Forward checking as section 4.5 words it, over the collected constraints
    in order: every constraint has a single unassigned variable, loses the
    values whose probe fails, and stops the call with failure when no value
    survived its pass. *)
Inductive FC_spec : list Constraint -> World -> bool -> list Prune -> World -> Prop :=
| FC_spec_done : forall w w',
    weq w w' ->
    FC_spec [] w true [] w'
| FC_spec_wipeout : forall con lst U w w',
    get_unasgn_vars con w = [U] ->
    pruned_to U (failing con U w) w w' ->
    surviving con U w = [] ->
    FC_spec (con :: lst) w false (map (pair U) (failing con U w)) w'
| FC_spec_next : forall con lst U w w1 flag ps w',
    get_unasgn_vars con w = [U] ->
    pruned_to U (failing con U w) w w1 ->
    surviving con U w <> [] ->
    FC_spec lst w1 flag ps w' ->
    FC_spec (con :: lst) w flag (map (pair U) (failing con U w) ++ ps) w'.

(** The DWO scenario of section 8: one constraint over (A, B) whose only
    satisfying tuple is (1, 2), with A = {1} and B = {3}. *)
Definition dwo_A : Var := 0.
Definition dwo_B : Var := 1.
Definition dwo_con : Constraint := mkCon 0 "c" [dwo_A; dwo_B] [[1; 2]%Z].
Definition dwo_world : World :=
  mkWorld (mkCSP "dwo" [dwo_A; dwo_B] [dwo_con])
          (fun X => match X with
                    | O => mkVar "A" [1%Z] [1%Z] None
                    | _ => mkVar "B" [3%Z] [3%Z] None
                    end) 2 1.

(** A not-equal constraint over two variables with A = {1}, B = {1, 2}. *)
Definition ne_con : Constraint := mkCon 0 "ne" [0; 1] [[1; 2]%Z; [2; 1]%Z].
Definition ne_world : World :=
  mkWorld (mkCSP "ne" [0; 1] [ne_con])
          (fun X => match X with
                    | O => mkVar "A" [1; 2]%Z [1%Z] None
                    | _ => mkVar "B" [1; 2]%Z [1; 2]%Z None
                    end) 2 1.

(** The same constraint with A assigned 1, next to a unary constraint on A. *)
Definition un_con : Constraint := mkCon 1 "un" [0] [[1%Z]].
Definition asg_world : World :=
  mkWorld (mkCSP "asg" [0; 1] [ne_con; un_con])
          (fun X => match X with
                    | O => mkVar "A" [1; 2]%Z [1; 2]%Z (Some 1%Z)
                    | _ => mkVar "B" [1; 2]%Z [1; 2]%Z None
                    end) 2 2.

(** A chain A <> B, B <> C with A = {1} and B = C = {1, 2}. *)
Definition chain_c1 : Constraint := mkCon 0 "ab" [0; 1] [[1; 2]%Z; [2; 1]%Z].
Definition chain_c2 : Constraint := mkCon 1 "bc" [1; 2] [[1; 2]%Z; [2; 1]%Z].
Definition chain_world : World :=
  mkWorld (mkCSP "chain" [0; 1; 2] [chain_c1; chain_c2])
          (fun X => match X with
                    | O => mkVar "A" [1; 2]%Z [1%Z] None
                    | S O => mkVar "B" [1; 2]%Z [1; 2]%Z None
                    | _ => mkVar "C" [1; 2]%Z [1; 2]%Z None
                    end) 3 2.

(** The board init_board builds when the next variable identity is [base]:
    row r holds the n identities handed out for it, in order. *)
Definition board_of (base n : nat) : list (list Var) :=
  map (fun r => seq (base + r * n) n) (seq 0 n).

(** [board[x][y]], when both subscripts are in range. *)
Definition board_at (board : list (list Var)) (x y : nat) : option Var :=
  match nth_error board x with
  | Some row => nth_error row y
  | None => None
  end.

(** A model-building step that returns, keeps the constraints the CSP has
    and adds one with name [nm] and scope [sc] whenever [S nm sc]. *)
Definition emits (m : M unit) (S : string -> list Var -> Prop) : Prop :=
  forall w, exists w',
    m w = (w', Ok tt) /\
    (forall c, In c (get_all_cons w) -> In c (get_all_cons w')) /\
    (forall nm sc, S nm sc ->
       exists c, In c (get_all_cons w') /\ c_name c = nm /\ c_scope c = sc).

(* ------------------------------------------------------------------ *)
(** ** Solutions and justified prunes *)
(* ------------------------------------------------------------------ *)

(** A value for every variable such that every constraint of the CSP holds
    the values of its scope, in scope order, as a satisfying tuple. *)
Definition satisfies (sol : Var -> Value) (w : World) : Prop :=
  forall c, In c (get_all_cons w) -> In (map sol (get_scope c)) (sat_tuples c).

(** The variables of the CSP: the ones it owns and the ones its constraints
    are over. *)
Definition csp_var (w : World) (X : Var) : Prop :=
  In X (csp_vars (w_csp w)) \/ In X (scope_vars w).

(** The world still allows [sol]: the value it gives a variable of the CSP
    is in the current domain of the variable, and the variables of the CSP
    that are assigned are assigned as it says.  The other variables of the
    store are not looked at. *)
Definition admits (sol : Var -> Value) (w : World) : Prop :=
  forall X, csp_var w X ->
            In (sol X) (cur_domain X w) /\
            forall a, get_assigned_value X w = Some a -> a = sol X.

(** A prune list read from a world: every pair, at its turn, is a value that
    some constraint of the CSP on its variable does not support, and is
    pruned before the next pair is looked at. *)
Inductive justified : World -> list Prune -> Prop :=
| justified_nil : forall w, justified w []
| justified_cons : forall w X v ps w1 c,
    In c (get_all_cons w) ->
    In X (get_scope c) ->
    has_support c X v w = false ->
    prune_value X v w = (w1, Ok tt) ->
    justified w1 ps ->
    justified w ((X, v) :: ps).

(** The store before any object is made, and the 2 x 2 grid model that
    warehouse_binary_ne_grid builds in it; the model after its first cell
    was assigned 1, and after the next cell of the row was assigned 2
    besides. *)
Definition empty_world : World :=
  mkWorld (mkCSP "" [] []) (fun _ => mkVar "" [] [] None) 0 0.

Definition grid2_world : World :=
  fst (warehouse_binary_ne_grid [[2]] empty_world).

Definition grid2_first : World := fst (assign 0 1%Z grid2_world).

Definition grid2_row : World := fst (assign 1 2%Z grid2_first).

(** The same row with both cells assigned 1. *)
Definition grid2_clash : World := fst (assign 1 1%Z grid2_first).

(** A Latin square on the 2 x 2 board. *)
Definition grid2_sol (X : Var) : Value :=
  match X with
  | 0 => 1%Z
  | 1 => 2%Z
  | 2 => 2%Z
  | _ => 1%Z
  end.

(** What a loop of prop_GAC hands on: either it goes on and no variable of
    the prune list is wiped out, or it returns False and the last pair of
    the prune list emptied the current domain of its variable. *)
Definition GAC_outcome (w' : World)
           (r : ctl (list Constraint * list Prune) (bool * list Prune)) : Prop :=
  match r with
  | Next (_, ps') => forall X v, In (X, v) ps' -> cur_domain X w' <> []
  | Return (flag, ps') =>
      flag = false /\
      exists X v ps0, ps' = ps0 ++ [(X, v)] /\ cur_domain X w' = []
  end.

(** The chain after prop_GAC made it arc consistent. *)
Definition chain_fixed : World := fst (prop_GAC None chain_world).

(* ------------------------------------------------------------------ *)
(** ** The constraints of the grid models *)
(* ------------------------------------------------------------------ *)

(** The names and scopes of the constraints _expand builds for the cell
    (x, y) of the board of init_board, in the order it builds them. *)
Definition expand_scopes (base n x y : nat) : list (string * list Var) :=
  map (fun i => ((str x ++ str y ++ str i ++ str y)%string,
                 [base + x * n + y; base + i * n + y])) (range (x + 1) n)
  ++ map (fun i => ((str x ++ str y ++ str i ++ str y)%string,
                    [base + x * n + y; base + x * n + i])) (range (y + 1) n).

(** The same for binary_constraint_generator: cell after cell. *)
Definition grid_scopes (base n : nat) : list (string * list Var) :=
  flat_map (fun x => flat_map (fun y => expand_scopes base n x y) (range 0 n))
           (range 0 n).

(** The constraint objects with these names and scopes, built one after
    the other from the identity [k] on and filled with the tuples [sat]. *)
Fixpoint made (k : nat) (l : list (string * list Var)) (sat : list (list Value))
  : list Constraint :=
  match l with
  | [] => []
  | (nm, sc) :: l' =>
      add_satisfying_tuples (mkCon k nm sc []) sat :: made (S k) l' sat
  end.

(** A model-building step that returns and does nothing but append the
    constraints of the names and scopes [l] to the CSP. *)
Definition builds (m : M unit) (l : list (string * list Var))
           (sat : list (list Value)) : Prop :=
  forall w, exists w',
    m w = (w', Ok tt) /\
    w_var w' = w_var w /\ w_nvar w' = w_nvar w /\
    w_ncon w' = w_ncon w + List.length l /\
    csp_name (w_csp w') = csp_name (w_csp w) /\
    csp_vars (w_csp w') = csp_vars (w_csp w) /\
    csp_cons (w_csp w') = csp_cons (w_csp w) ++ made (w_ncon w) l sat.

(** The values [f x y] of the cells of an n x n board form a Latin square:
    they lie in 1..n and differ along every row and every column. *)
Definition latin (n : nat) (f : nat -> nat -> Value) : Prop :=
  (forall x y, x < n -> y < n -> (1 <= f x y <= Z.of_nat n)%Z) /\
  (forall x y y', x < n -> y < n -> y' < n -> y <> y' -> f x y <> f x y') /\
  (forall x x' y, x < n -> x' < n -> y < n -> x <> x' -> f x y <> f x' y).

(* ------------------------------------------------------------------ *)
(** ** The n-ary grid model (models.py) *)
(* ------------------------------------------------------------------ *)

(** The ways to take one element out of a list: the element and the rest,
    in the order of the positions. *)
Fixpoint select {A : Type} (l : list A) : list (A * list A) :=
  match l with
  | [] => []
  | a :: l' => (a, l') :: map (fun p => (fst p, a :: snd p)) (select l')
  end.

(** Python's [itertools.permutations(l)]: the orderings of the [k] elements
    of [l], in the lexicographic order of their positions. *)
Fixpoint permutations_of {A : Type} (k : nat) (l : list A) : list (list A) :=
  match k with
  | O => [[]]
  | S k' =>
      flat_map (fun p => map (cons (fst p)) (permutations_of k' (snd p)))
               (select l)
  end.

Definition permutations {A : Type} (l : list A) : list (list A) :=
  permutations_of (List.length l) l.

Definition _get_column (col : nat) (board : list (list Var)) : M (list Var) :=
  foldM (fun res_col i =>
           ri <- subscript board i ;; v <- subscript ri col ;;
           ret (res_col ++ [v]))
        (range 0 (List.length board)) [].

Definition n_ary_constraint_generator (n : nat) (board : list (list Var))
           (sat : list (list Value)) : M unit :=
  forM (range 0 n) (fun row =>
    r <- subscript board row ;;
    con <- new_Constraint ("row" ++ str row) r ;;
    add_constraint (add_satisfying_tuples con sat)) ;;;
  forM (range 0 n) (fun column =>
    col_elements <- _get_column column board ;;
    con <- new_Constraint ("column" ++ str column) col_elements ;;
    add_constraint (add_satisfying_tuples con sat)).

Definition warehouse_nary_ad_grid (warehouse_grid : list (list nat))
  : M (list (list Var)) :=
  new_CSP "n_array" ;;;
  row0 <- subscript warehouse_grid 0 ;;
  n <- subscript row0 0 ;;
  var_array <- init_board n ;;
  let sat := permutations (map Z.of_nat (range 1 (n + 1))) in
  n_ary_constraint_generator n var_array sat ;;;
  ret var_array.

(** The names and scopes of the constraints n_ary_constraint_generator
    builds on the board of init_board: the rows, then the columns. *)
Definition nary_scopes (base n : nat) : list (string * list Var) :=
  map (fun r => (("row" ++ str r)%string, seq (base + r * n) n)) (range 0 n)
  ++ map (fun c => (("column" ++ str c)%string,
                    map (fun i => base + i * n + c) (seq 0 n))) (range 0 n).

(* ------------------------------------------------------------------ *)
(** ** Converters (models.py) *)
(* ------------------------------------------------------------------ *)

(** [coordinate_converter(x, y, n)] on Python's integers. *)
Definition coordinate_converter (x y n : Z) : Z * Z :=
  let new_x := (n - x)%Z in
  let new_y := (y - 1)%Z in
  (new_x, new_y).

(** [board_converter(board)]: row i of the new board is opened empty and
    gets board[n - j - 1][n - i - 1] appended for j = 0 .. n - 1. *)
Definition board_converter (board : list (list Var)) : M (list (list Var)) :=
  let n := List.length board in
  foldM (fun new_boards i =>
    foldM (fun new_boards j =>
      r <- subscript board (n - j - 1) ;;
      v <- subscript r (n - i - 1) ;;
      match append_at new_boards i v with
      | Some new_boards' => ret new_boards'
      | None => raise IndexError
      end) (range 0 n) (new_boards ++ [[]])) (range 0 n) [].

(** The cell [board[x][y]] of a board whose subscripts are in range. *)
Definition cell (board : list (list Var)) (x y : nat) : Var :=
  nth y (nth x board []) 0.

(** The board read from the opposite corner: the cell at [i][j] is the
    cell of [board] at [n - 1 - j][n - 1 - i]. *)
Definition anti_transpose (board : list (list Var)) : list (list Var) :=
  let n := List.length board in
  map (fun i => map (fun j => cell board (n - 1 - j) (n - 1 - i)) (seq 0 n))
      (seq 0 n).

(** A board of n rows of n cells. *)
Definition square (board : list (list Var)) : Prop :=
  forall r, In r board -> List.length r = List.length board.

(* ------------------------------------------------------------------ *)
(** ** The full model (models.py) *)
(* ------------------------------------------------------------------ *)

(** The failures of model building: those of the core, and Python's
    [ValueError], which [min] and [max] raise on an empty tuple and [int]
    on a text that is no number. *)
Inductive BuildExn : Type :=
| CoreExn (e : Exn)
| ValueError.

Inductive bres (A : Type) : Type :=
| BOk (a : A)
| BRaise (e : BuildExn).
Arguments BRaise {A} e.

Definition B (A : Type) : Type := World -> World * bres A.

Definition bret {A} (a : A) : B A := fun w => (w, BOk a).
Definition braise {A} (e : BuildExn) : B A := fun w => (w, BRaise e).
Definition bbind {A C} (m : B A) (k : A -> B C) : B C :=
  fun w => match m w with
           | (w', BOk a) => k a w'
           | (w', BRaise e) => (w', BRaise e)
           end.

(** A call of the core inside model building. *)
Definition lift {A} (m : M A) : B A :=
  fun w => match m w with
           | (w', Ok a) => (w', BOk a)
           | (w', Raise e) => (w', BRaise (CoreExn e))
           end.

Declare Scope build_scope.
Delimit Scope build_scope with build.
Notation "x <- m ;; k" := (bbind m (fun x => k))
  (at level 61, m at next level, right associativity) : build_scope.
Notation "m ;;; k" := (bbind m (fun _ => k))
  (at level 61, right associativity) : build_scope.

Fixpoint bfoldM {A S : Type} (body : S -> A -> B S) (l : list A) (s : S) : B S :=
  match l with
  | [] => bret s
  | a :: l' => bbind (body s a) (fun s' => bfoldM body l' s')
  end.

Fixpoint bforM (A : Type) (l : list A) (body : A -> B unit) : B unit :=
  match l with
  | [] => bret tt
  | a :: l' => bbind (body a) (fun _ => bforM l' body)
  end.

(** Python's subscript [l[i]] with an integer that can be negative: a
    negative subscript counts from the end of the list. *)
Definition py_index {A : Type} (l : list A) (i : Z) : M A :=
  let len := Z.of_nat (List.length l) in
  if (0 <=? i)%Z then subscript l (Z.to_nat i)
  else if (- len <=? i)%Z then subscript l (Z.to_nat (len + i))
  else raise IndexError.

(** The subscript [s[i]] of a text, for i >= 0: its character at i. *)
Definition str_index (s : string) (i : nat) : M ascii :=
  match String.get i s with
  | Some c => ret c
  | None => raise IndexError
  end.

(** Python's [int] on a text of one character: the digit it shows. *)
Definition int_of_char (c : ascii) : B Z :=
  let k := nat_of_ascii c in
  if Nat.leb 48 k && Nat.leb k 57 then bret (Z.of_nat (k - 48))
  else braise ValueError.

(** Python's [itertools.product] of the lists: one element of every list,
    the last list running fastest; the empty tuple when there is no list. *)
Fixpoint product {A : Type} (ls : list (list A)) : list (list A) :=
  match ls with
  | [] => [[]]
  | l :: ls' => flat_map (fun a => map (cons a) (product ls')) l
  end.

(** Python's [sum], [min] and [max] on a tuple of integers. *)
Definition sum (item : list Z) : Z := fold_left Z.add item 0%Z.

Definition py_min (item : list Z) : B Z :=
  match item with
  | [] => braise ValueError
  | a :: item' => bret (fold_left Z.min item' a)
  end.

Definition py_max (item : list Z) : B Z :=
  match item with
  | [] => braise ValueError
  | a :: item' => bret (fold_left Z.max item' a)
  end.

(** Modelled from the spec: [domain()] of section 4.1, the initial
    values. *)
Definition domain (X : Var) (w : World) : list Value := v_dom (w_var w X).

(** Python's text of a list: the texts of its elements between brackets,
    separated by a comma and a blank. *)
Fixpoint join (sep : string) (l : list string) : string :=
  match l with
  | [] => EmptyString
  | [s] => s
  | s :: l' => (s ++ sep ++ join sep l')%string
  end.

Section Building.

(** The text Python gives for a [Variable] object comes from cspbase, which
    is not among the sources; the model takes it as it comes. *)
Variable Variable_repr : Var -> World -> string.

Local Open Scope build_scope.

(** The loop [for j in range(len(grid[i]) - 2)] of
    constraint_generator_for_building: the variables of the cells that the
    row names. *)
Definition building_vars (row : list nat) (board : list (list Var)) (n : nat)
  : B (list Var) :=
  bfoldM (fun vars j =>
            num <- lift (subscript row j) ;;
            let temp := str num in
            c0 <- lift (str_index temp 0) ;;
            a <- int_of_char c0 ;;
            c1 <- lift (str_index temp 1) ;;
            b <- int_of_char c1 ;;
            let coord := coordinate_converter a b (Z.of_nat n) in
            r <- lift (py_index board (fst coord)) ;;
            v <- lift (py_index r (snd coord)) ;;
            bret (vars ++ [v]))
         (range 0 (List.length row - 2)) [].

(** The satisfying tuples of a building, by its operator. *)
Definition building_sat (operator value : nat) (vars : list Var)
  : B (list (list Value)) :=
  if Nat.eqb operator 1 then
    (* The sum of these variables should be equal to the given value *)
    lst <- lift (gets (fun w => map (fun var => domain var w) vars)) ;;
    bret (filter (fun item => Z.eqb (sum item) (Z.of_nat value)) (product lst))
  else if Nat.eqb operator 0 then
    (* The value in this grid must equal to the given value *)
    bret [[Z.of_nat value]]
  else if Nat.eqb operator 2 then
    (* The min value in these grid must be greater or equal to the given value *)
    lst <- lift (gets (fun w => map (fun var => cur_domain var w) vars)) ;;
    bfoldM (fun sat item =>
              m <- py_min item ;;
              if Z.leb (Z.of_nat value) m then bret (sat ++ [item])
              else bret sat) (product lst) []
  else if Nat.eqb operator 3 then
    (* The max value in these grid must be smaller or equal to the given value *)
    lst <- lift (gets (fun w => map (fun var => cur_domain var w) vars)) ;;
    bfoldM (fun sat item =>
              m <- py_max item ;;
              if Z.leb m (Z.of_nat value) then bret (sat ++ [item])
              else bret sat) (product lst) []
  else bret [].

(** One round of the loop [for i in range(len(grid))] of
    constraint_generator_for_building, on the row [grid[i]]. *)
Definition building (row : list nat) (board : list (list Var)) (n : nat)
  : B unit :=
  vars <- building_vars row board n ;;
  operator <- lift (py_index row (Z.of_nat (List.length row) - 2)) ;;
  value <- lift (py_index row (Z.of_nat (List.length row) - 1)) ;;
  (* Generate constraint *)
  name <- lift (gets (fun w =>
            ("c[" ++ join ", " (map (fun var => Variable_repr var w) vars)
                  ++ "]")%string)) ;;
  con <- lift (new_Constraint name vars) ;;
  sat <- building_sat operator value vars ;;
  (* add satisfiable values to the constraint *)
  lift (add_constraint (add_satisfying_tuples con sat)).

Definition constraint_generator_for_building (grid : list (list nat))
           (board : list (list Var)) : B unit :=
  let n := List.length board in
  bforM (range 0 (List.length grid)) (fun i =>
    row <- lift (subscript grid i) ;;
    building row board n).

Definition warehouse_full_model (warehouse_grid : list (list nat))
  : B (list (list Var)) :=
  board <- lift (warehouse_binary_ne_grid warehouse_grid) ;;
  constraint_generator_for_building (skipn 1 warehouse_grid) board ;;;
  lift (board_converter board).

End Building.

(** The cell a two-digit code names on the board of init_board: the tens
    are the row digit, the units the column digit. *)
Definition code_cell (base n code : nat) : Var :=
  base + (n - code / 10) * n + (code mod 10 - 1).

(** The tuples a building asks for, by its operator: the given value
    alone (0), values of the domains that add up to the value (1), current
    values that are all at least the value (2) or all at most the value
    (3), and none for any other operator. *)
Definition building_tuples (operator value : nat) (vars : list Var) (w : World)
           (t : list Value) : Prop :=
  match operator with
  | 0 => t = [Z.of_nat value]
  | 1 => Forall2 (fun X v => In v (domain X w)) vars t /\
         sum t = Z.of_nat value
  | 2 => Forall2 (fun X v => In v (cur_domain X w)) vars t /\
         forall v, In v t -> (Z.of_nat value <= v)%Z
  | 3 => Forall2 (fun X v => In v (cur_domain X w)) vars t /\
         forall v, In v t -> (v <= Z.of_nat value)%Z
  | _ => False
  end.

(** A building as the rows of the grid give it: the codes of its cells,
    then the operator, then the value. *)
Definition cage_row (cage : list nat * nat * nat) : list nat :=
  fst (fst cage) ++ [snd (fst cage); snd cage].

(** The codes of a building name cells of an n x n board by two digits
    within 1..n, a building with operator 2 or 3 has a cell, and a building
    with operator 0, which stores its value as a tuple of one entry, has one
    cell exactly. *)
Definition cage_ok (n : nat) (cage : list nat * nat * nat) : Prop :=
  Forall (fun code => 1 <= code / 10 <= n /\ 1 <= code mod 10 <= n)
         (fst (fst cage)) /\
  (snd (fst cage) = 2 \/ snd (fst cage) = 3 -> fst (fst cage) <> []) /\
  (snd (fst cage) = 0 -> List.length (fst (fst cage)) = 1).

(** The constraint of a building: over the cells its codes name, with the
    tuples its operator asks for. *)
Definition cage_con (base n : nat) (w : World) (cage : list nat * nat * nat)
           (c : Constraint) : Prop :=
  c_scope c = map (code_cell base n) (fst (fst cage)) /\
  forall t, In t (sat_tuples c) <->
            building_tuples (snd (fst cage)) (snd cage) (c_scope c) w t.

(** The constraints forward checking processes, as section 4.5 words it:
    without a newly assigned variable the unary ones (scope size 1), with
    a newly assigned variable V the ones containing V that have exactly one
    unassigned scope member. *)
Definition FC_processed (newVar : option Var) (w : World) (con : Constraint)
  : bool :=
  match newVar with
  | None => Nat.eqb (List.length (get_scope con)) 1
  | Some V =>
      existsb (Nat.eqb V) (get_scope con)
      && Nat.eqb (List.length
                    (filter (fun X => match get_assigned_value X w with
                                      | None => true
                                      | Some _ => false
                                      end) (get_scope con))) 1
  end.

(** The 2 x 2 grid model with one more constraint, made as models.py makes
    its constraints: a unary one that leaves the first cell the value 2. *)
Definition unary_world : World :=
  fst ((c <- new_Constraint "only2" [0] ;;
        add_constraint (add_satisfying_tuples c [[2%Z]])) grid2_world).

(** The first list is the second with some of its members left out. *)
Inductive subseq (A : Type) : list A -> list A -> Prop :=
| subseq_nil : forall l, subseq [] l
| subseq_skip : forall x l1 l2, subseq l1 l2 -> subseq l1 (x :: l2)
| subseq_take : forall x l1 l2, subseq l1 l2 -> subseq (x :: l1) (x :: l2).

(** The constraints that join the worklist [que] after a value of [X] was
    pruned, as section 4.6 words it: every constraint of the CSP containing
    X that is not already present in the worklist, once each, in the order
    of the CSP's listing. *)
Definition joins (w : World) (X : Var) (que new : list Constraint) : Prop :=
  NoDup new /\
  (forall d, In d new <->
             In d (get_all_cons w) /\ In X (get_scope d) /\ ~ In d que) /\
  subseq new (get_all_cons w).

(** How a round ends: it goes on to the next round, it has emptied a
    current domain, or a prune has raised. *)
Inductive round_end : Type :=
| Goes
| Wiped
| Raised (e : Exn).

(** The values [vals] of the scope variable [var] in the round of [curr],
    as section 4.6 words it: a value without support is pruned and
    recorded; when that empties the current domain the round is over,
    otherwise the constraints that join stand behind the worklist.  [tr]
    lists the worklists after each enqueuing. *)
Inductive vals_round (curr : Constraint) (var : Var) :
  list Value -> list Constraint -> World ->
  list Prune -> list (list Constraint) -> list Constraint -> World ->
  round_end -> Prop :=
| vals_done : forall que w,
    vals_round curr var [] que w [] [] que w Goes
| vals_keep : forall val vals que w news tr que' w' o,
    has_support curr var val w = true ->
    vals_round curr var vals que w news tr que' w' o ->
    vals_round curr var (val :: vals) que w news tr que' w' o
| vals_wiped : forall val vals que w w1,
    has_support curr var val w = false ->
    prune_value var val w = (w1, Ok tt) ->
    cur_domain var w1 = [] ->
    vals_round curr var (val :: vals) que w [(var, val)] [] que w1 Wiped
| vals_prune : forall val vals que new w w1 news tr que' w' o,
    has_support curr var val w = false ->
    prune_value var val w = (w1, Ok tt) ->
    cur_domain var w1 <> [] ->
    joins w1 var que new ->
    vals_round curr var vals (que ++ new) w1 news tr que' w' o ->
    vals_round curr var (val :: vals) que w
               ((var, val) :: news) ((que ++ new) :: tr) que' w' o
| vals_raised : forall val vals que w w1 e,
    has_support curr var val w = false ->
    prune_value var val w = (w1, Raise e) ->
    vals_round curr var (val :: vals) que w [] [] que w1 (Raised e).

(** The round of [curr]: its scope variables in scope order, each with the
    values its current domain holds when its turn comes. *)
Inductive scope_round (curr : Constraint) :
  list Var -> list Constraint -> World ->
  list Prune -> list (list Constraint) -> list Constraint -> World ->
  round_end -> Prop :=
| scope_done : forall que w,
    scope_round curr [] que w [] [] que w Goes
| scope_next : forall var vars que w n1 t1 que1 w1 n2 t2 que' w' o,
    vals_round curr var (cur_domain var w) que w n1 t1 que1 w1 Goes ->
    scope_round curr vars que1 w1 n2 t2 que' w' o ->
    scope_round curr (var :: vars) que w (n1 ++ n2) (t1 ++ t2) que' w' o
| scope_stop : forall var vars que w news tr que' w' o,
    vals_round curr var (cur_domain var w) que w news tr que' w' o ->
    o <> Goes ->
    scope_round curr (var :: vars) que w news tr que' w' o.

(** A worklist run with the queue discipline of section 4.6, from a
    worklist, the prunes made so far and a world, to the outcome of the
    call.  The run is over when the worklist is empty.  Otherwise the
    constraint at the front, the one that has waited longest, leaves the
    worklist and has its round, in which the constraints that join stand
    behind the ones that wait.  A round that empties a current domain makes
    the run fail with the prunes so far; a prune that raises ends the run
    with what it raised.  [trace] lists the worklists of the run: the one
    of every loop test, followed by the ones after each enqueuing of the
    round. *)
Inductive fifo_run :
  list Constraint -> list Prune -> World ->
  list (list Constraint) -> World * res (bool * list Prune) -> Prop :=
| fifo_done : forall ps w,
    fifo_run [] ps w [[]] (w, Ok (true, ps))
| fifo_next : forall curr rest ps w news tr que1 w1 trace r,
    scope_round curr (get_scope curr) rest w news tr que1 w1 Goes ->
    fifo_run que1 (ps ++ news) w1 trace r ->
    fifo_run (curr :: rest) ps w ((curr :: rest) :: tr ++ trace) r
| fifo_wipeout : forall curr rest ps w news tr que1 w1,
    scope_round curr (get_scope curr) rest w news tr que1 w1 Wiped ->
    fifo_run (curr :: rest) ps w ((curr :: rest) :: tr)
             (w1, Ok (false, ps ++ news))
| fifo_raise : forall curr rest ps w news tr que1 w1 e,
    scope_round curr (get_scope curr) rest w news tr que1 w1 (Raised e) ->
    fifo_run (curr :: rest) ps w ((curr :: rest) :: tr) (w1, Raise e).

(** What the loops of a round hand on, beside the relation that words
    them. *)
Definition round_result (ps news : list Prune) (que' : list Constraint)
           (o : round_end)
           (r : res (ctl (list Constraint * list Prune) (bool * list Prune)))
  : Prop :=
  match o with
  | Goes => r = Ok (Next (que', ps ++ news))
  | Wiped => r = Ok (Return (false, ps ++ news))
  | Raised e => r = Raise e
  end.

(** [ne_world] after its constraint was added to the CSP once more. *)
Definition twice_world : World := fst (add_constraint ne_con ne_world).

(* ================================================================== *)
(** * Properties *)
(* ================================================================== *)

Unset Implicit Arguments.

(* ------------------------------------------------------------------ *)
(** ** Variables and the store *)
(* ------------------------------------------------------------------ *)

Lemma in_dom_In : forall v l, in_dom v l = true <-> In v l.
Proof.
  intros v l. unfold in_dom. rewrite existsb_exists. split.
  - intros [x [Hx He]]. apply Z.eqb_eq in He. now subst.
  - intros H. exists v. split; [assumption | apply Z.eqb_refl].
Qed.

Lemma in_dom_false : forall v l, in_dom v l = false <-> ~ In v l.
Proof.
  intros v l. rewrite <- in_dom_In. destruct (in_dom v l); split; congruence.
Qed.

Lemma weq_refl : forall w, weq w w.
Proof. intros w. repeat split. Qed.

Lemma weq_trans : forall w1 w2 w3, weq w1 w2 -> weq w2 w3 -> weq w1 w3.
Proof.
  intros w1 w2 w3 (A1 & A2 & A3 & A4) (B1 & B2 & B3 & B4).
  repeat split; try congruence. all: intros X; now rewrite B4.
Qed.

Lemma weq_sym : forall w1 w2, weq w1 w2 -> weq w2 w1.
Proof.
  intros w1 w2 (A1 & A2 & A3 & A4). repeat split; try congruence.
  all: intros X; now rewrite A4.
Qed.

Lemma frame_refl : forall w, frame w w.
Proof. intros w. repeat split. apply incl_refl. Qed.

Lemma frame_trans : forall w1 w2 w3, frame w1 w2 -> frame w2 w3 -> frame w1 w3.
Proof.
  intros w1 w2 w3 (A1 & A2 & A3 & A4) (B1 & B2 & B3 & B4).
  repeat split; try congruence;
    destruct (A4 X) as (a1 & a2 & a3 & a4); destruct (B4 X) as (b1 & b2 & b3 & b4);
    try congruence.
  eapply incl_tran; eassumption.
Qed.

Lemma weq_frame : forall w w', weq w w' -> frame w w'.
Proof.
  intros w w' (A1 & A2 & A3 & A4). repeat split; trivial; rewrite A4; trivial.
  apply incl_refl.
Qed.

(** What a successful [prune_value] does. *)
Lemma prune_value_ok : forall X v w w',
  prune_value X v w = (w', Ok tt) ->
  In v (cur_domain X w) /\
  cur_domain X w' = remove Z.eq_dec v (cur_domain X w) /\
  (forall Y, Y <> X -> w_var w' Y = w_var w Y) /\
  frame w w'.
Proof.
  intros X v w w' H. unfold prune_value in H.
  destruct (in_dom v (v_curdom (w_var w X))) eqn:E; [| discriminate].
  injection H as <-. apply in_dom_In in E.
  split; [exact E |]. split.
  - unfold cur_domain, set_var. simpl. now rewrite Nat.eqb_refl.
  - split.
    + intros Y HY. simpl. apply Nat.eqb_neq in HY. now rewrite HY.
    + repeat split; simpl; destruct (Nat.eqb X0 X) eqn:EX; trivial;
        try apply incl_refl; apply Nat.eqb_eq in EX; subst; simpl; trivial.
      intros u Hu. apply in_remove in Hu. tauto.
Qed.

Lemma prune_value_raise : forall X v w w' e,
  prune_value X v w = (w', Raise e) -> w' = w /\ e = InvalidDomain.
Proof.
  intros X v w w' e H. unfold prune_value in H.
  destruct (in_dom v (v_curdom (w_var w X))); inversion H; auto.
Qed.

Lemma prune_value_frame : forall X v w, frame w (fst (prune_value X v w)).
Proof.
  intros X v w. destruct (prune_value X v w) as [w' [[]|e]] eqn:E; simpl.
  - now apply prune_value_ok in E.
  - apply prune_value_raise in E as [-> _]. apply frame_refl.
Qed.

(** A probe of prop_FC: [assign] and then [unassign] give back the objects
    the probe started from. *)
Lemma assign_unassign : forall X v w w1,
  assign X v w = (w1, Ok tt) ->
  get_assigned_value X w = None /\ In v (cur_domain X w) /\
  (forall Y, get_assigned_value Y w1 =
             if Nat.eqb Y X then Some v else get_assigned_value Y w) /\
  exists w2, unassign X w1 = (w2, Ok tt) /\ weq w w2.
Proof.
  intros X v w w1 H. unfold assign in H.
  destruct (is_assigned X w) eqn:EA; [discriminate |].
  destruct (in_dom v (v_curdom (w_var w X))) eqn:ED; [| discriminate].
  simpl in H. injection H as <-.
  unfold is_assigned in EA.
  destruct (get_assigned_value X w) eqn:EG; [discriminate |].
  split; [reflexivity |]. split; [now apply in_dom_In |]. split.
  - intros Y. unfold get_assigned_value, set_var. simpl.
    destruct (Nat.eqb Y X); reflexivity.
  - unfold unassign, is_assigned, get_assigned_value, set_var. simpl.
    rewrite Nat.eqb_refl. simpl. eexists. split; [reflexivity |].
    repeat split. intros Y. simpl.
    destruct (Nat.eqb Y X) eqn:EY; [| reflexivity].
    apply Nat.eqb_eq in EY. subst Y.
    unfold get_assigned_value in EG. destruct (w_var w X); simpl in *. now subst.
Qed.

Lemma assign_raise : forall X v w w1 e,
  assign X v w = (w1, Raise e) -> w1 = w /\ e = InvalidAssignment.
Proof.
  intros X v w w1 e H. unfold assign in H.
  destruct (is_assigned X w || negb (in_dom v (v_curdom (w_var w X))));
    inversion H; auto.
Qed.

(* ------------------------------------------------------------------ *)
(** ** The 2 x 2 grid model in the empty store *)
(* ------------------------------------------------------------------ *)

(** What warehouse_binary_ne_grid builds for a 2 x 2 warehouse: four cells
    and four not-equal constraints, one for each row and each column. *)
Lemma grid2_csp :
  w_csp grid2_world =
  mkCSP "binary" [0; 1; 2; 3]
    [mkCon 0 "0010" [0; 2] [[1; 2]%Z; [2; 1]%Z];
     mkCon 1 "0010" [0; 1] [[1; 2]%Z; [2; 1]%Z];
     mkCon 2 "0111" [1; 3] [[1; 2]%Z; [2; 1]%Z];
     mkCon 3 "1010" [2; 3] [[1; 2]%Z; [2; 1]%Z]].
Proof. vm_compute. reflexivity. Qed.

Lemma grid2_first_csp : w_csp grid2_first = w_csp grid2_world.
Proof. vm_compute. reflexivity. Qed.

Lemma grid2_row_csp : w_csp grid2_row = w_csp grid2_world.
Proof. vm_compute. reflexivity. Qed.

(* ------------------------------------------------------------------ *)
(** ** prop_BT *)
(* ------------------------------------------------------------------ *)

Lemma BT_loop_spec : forall cs w, BT_loop cs w = (w, Ok (BT_verdict cs w, [])).
Proof.
  induction cs as [| c cs IH]; intros w; simpl.
  - reflexivity.
  - unfold bind, gets. destruct (Nat.eqb (get_n_unasgn c w) 0); simpl.
    + destruct (check c (assigned_values c w)); simpl.
      * apply IH.
      * reflexivity.
    + apply IH.
Qed.

Lemma n_unasgn_zero : forall c w,
  get_n_unasgn c w = 0 <->
  forall X, In X (get_scope c) -> get_assigned_value X w <> None.
Proof.
  intros c w. unfold get_n_unasgn, get_unasgn_vars. rewrite length_zero_iff_nil.
  split.
  - intros Hnil X HX E.
    assert (Hin : In X (filter (fun X => negb (is_assigned X w)) (get_scope c))).
    { apply filter_In. split; [exact HX |]. unfold is_assigned. now rewrite E. }
    rewrite Hnil in Hin. destruct Hin.
  - intros Hall.
    destruct (filter (fun X => negb (is_assigned X w)) (get_scope c))
      as [| X l] eqn:E; [reflexivity |].
    assert (Hin : In X (filter (fun X => negb (is_assigned X w)) (get_scope c)))
      by (rewrite E; now left).
    apply filter_In in Hin as [HX Hn]. exfalso. apply (Hall X HX).
    unfold is_assigned in Hn.
    destruct (get_assigned_value X w); [discriminate | reflexivity].
Qed.

(** C6. prop_BT without a newly assigned variable returns (True, []).  With
    a variable V it returns (False, []) exactly when some constraint of the
    CSP whose scope contains V and whose scope members are all assigned
    fails [check] on the values its scope members are assigned, in scope
    order, and (True, []) otherwise.  Its prune list is always empty and
    the world it leaves is the world it was given. *)
Theorem prop_BT_spec : forall newVar w,
  exists flag,
    prop_BT newVar w = (w, Ok (flag, [])) /\
    match newVar with
    | None => flag = true
    | Some V =>
        flag = false <->
        exists c,
          In c (get_all_cons w) /\ In V (get_scope c) /\
          (forall X, In X (get_scope c) -> get_assigned_value X w <> None) /\
          check c (map (fun X => get_assigned_value X w) (get_scope c)) = false
    end.
Proof.
  intros [V |] w; simpl; [| exists true; split; reflexivity].
  unfold bind, gets. rewrite BT_loop_spec. eexists. split; [reflexivity |].
  unfold BT_verdict, get_cons_with_var, get_all_cons.
  induction (csp_cons (w_csp w)) as [| c cs IH]; simpl.
  - split; [discriminate | intros (c & [] & _)].
  - assert (Hsc : in_scope V c = true <-> In V (get_scope c)).
    { unfold in_scope. rewrite existsb_exists. split.
      - intros [Y [HY E]]. apply Nat.eqb_eq in E. now subst.
      - intros H. exists V. split; [exact H | apply Nat.eqb_refl]. }
    destruct (in_scope V c) eqn:ES; simpl.
    + rewrite andb_false_iff, IH. split.
      * intros [H | (d & Hd & H)].
        -- apply orb_false_iff in H as [Hn Hchk].
           apply negb_false_iff, Nat.eqb_eq in Hn.
           exists c. split; [now left |]. split; [now apply Hsc |].
           split; [now apply n_unasgn_zero | exact Hchk].
        -- exists d. split; [now right | exact H].
      * intros (d & [<- | Hd] & HV & Hall & Hchk).
        -- left. apply orb_false_iff. split; [| exact Hchk].
           apply negb_false_iff, Nat.eqb_eq. now apply n_unasgn_zero.
        -- right. exists d. tauto.
    + rewrite IH. split.
      * intros (d & Hd & H). exists d. split; [now right | exact H].
      * intros (d & [<- | Hd] & HV & Hall & Hchk).
        -- apply Hsc in HV. discriminate.
        -- exists d. tauto.
Qed.

Lemma prop_BT_spec_witness :
  prop_BT (Some 1) grid2_row = (grid2_row, Ok (true, [])) /\
  prop_BT (Some 1) grid2_clash = (grid2_clash, Ok (false, [])).
Proof.
  split.
  - destruct (prop_BT_spec (Some 1) grid2_row) as (flag & Hrun & Hiff).
    rewrite Hrun. clear Hrun. destruct flag; [reflexivity | exfalso].
    destruct (proj1 Hiff eq_refl) as (c & Hc & HV & Hall & Hchk).
    unfold get_all_cons in Hc. rewrite grid2_row_csp, grid2_csp in Hc.
    destruct Hc as [<- | [<- | [<- | [<- | []]]]].
    + destruct HV as [HV | [HV | []]]; discriminate HV.
    + vm_compute in Hchk. discriminate Hchk.
    + apply (Hall 3); [simpl; tauto | vm_compute; reflexivity].
    + destruct HV as [HV | [HV | []]]; discriminate HV.
  - destruct (prop_BT_spec (Some 1) grid2_clash) as (flag & Hrun & Hiff).
    rewrite Hrun. clear Hrun. destruct flag; [exfalso | reflexivity].
    assert (H : true = false); [| discriminate H].
    apply Hiff. exists (mkCon 1 "0010" [0; 1] [[1; 2]%Z; [2; 1]%Z]).
    split; [vm_compute; tauto |]. split; [simpl; tauto |].
    split; [| vm_compute; reflexivity].
    intros X [<- | [<- | []]]; vm_compute; intros E; discriminate E.
Defined.

(* ------------------------------------------------------------------ *)
(** ** The domain wipe-out scenario *)
(* ------------------------------------------------------------------ *)

(** The scenario in any world that holds it, for any positive number of
    rounds: A is visited first, its value 1 has no support, is pruned, and
    the empty current domain of A ends the call. *)
Lemma dwo_rounds : forall (w : World) (A B : Var) (c : Constraint) (fuel : nat),
  A <> B ->
  get_all_cons w = [c] ->
  get_scope c = [A; B] ->
  sat_tuples c = [[1; 2]%Z] ->
  cur_domain A w = [1%Z] ->
  cur_domain B w = [3%Z] ->
  get_assigned_value A w = None ->
  get_assigned_value B w = None ->
  exists w',
    prop_GAC_fuel (S fuel) None w = Some (w', Ok (false, [(A, 1%Z)])) /\
    cur_domain A w' = [] /\
    cur_domain B w' = [3%Z].
Proof.
  intros w A B c fuel HAB Hcons Hscope Htup HA HB HaA HaB.
  assert (Hsup : has_support c A 1%Z w = false).
  { unfold has_support. rewrite Hscope, Htup. simpl.
    rewrite Nat.eqb_refl. simpl.
    assert (E : Nat.eqb B A = false) by (apply Nat.eqb_neq; congruence).
    rewrite E. unfold in_cur_domain. rewrite HaB, HB. reflexivity. }
  unfold prop_GAC_fuel, GAC_init. rewrite Hcons.
  cbn [GAC_loop]. rewrite Hscope. cbn [GAC_scope].
  unfold bind at 1. unfold gets at 1. rewrite HA.
  cbn [GAC_vals]. unfold bind at 1. unfold bind at 1. unfold gets at 1.
  rewrite Hsup. cbn [negb].
  unfold bind at 1.
  destruct (prune_value A 1%Z w) as [w1 [[] | e]] eqn:EP.
  - apply prune_value_ok in EP as (_ & Hd & Hother & _).
    rewrite HA in Hd. simpl in Hd.
    unfold bind, gets, ret. rewrite Hd.
    exists w1. split; [reflexivity |]. split; [exact Hd |].
    unfold cur_domain. rewrite Hother by congruence. exact HB.
  - exfalso. unfold prune_value in EP.
    unfold cur_domain in HA. rewrite HA in EP. simpl in EP. discriminate.
Qed.

(* ------------------------------------------------------------------ *)
(** ** What the propagators leave alone *)
(* ------------------------------------------------------------------ *)

Lemma FC_vals_frame : forall vals con var ps flag w,
  frame w (fst (FC_vals con var vals ps flag w)).
Proof.
  induction vals as [| val vals IH]; intros con var ps flag w; simpl.
  - apply frame_refl.
  - unfold bind at 1.
    destruct (assign var val w) as [w1 [[] | e]] eqn:EA.
    + apply assign_unassign in EA as (_ & _ & _ & w2 & EU & Hweq).
      unfold bind at 1. unfold gets at 1. unfold bind at 1. rewrite EU.
      apply weq_frame in Hweq.
      destruct (check con (assigned_values con w1)); simpl.
      * eapply frame_trans; [exact Hweq | apply IH].
      * unfold bind at 1.
        destruct (prune_value var val w2) as [w3 [[] | e]] eqn:EP.
        -- eapply frame_trans; [exact Hweq |].
           eapply frame_trans; [| apply IH].
           now apply prune_value_ok in EP.
        -- apply prune_value_raise in EP as [-> _]. exact Hweq.
    + apply assign_raise in EA as [-> _]. apply frame_refl.
Qed.

Lemma FC_cons_frame : forall lst ps flag w,
  frame w (fst (FC_cons lst ps flag w)).
Proof.
  induction lst as [| con lst IH]; intros ps flag w; simpl.
  - apply frame_refl.
  - unfold bind at 1. unfold gets at 1.
    destruct (get_unasgn_vars con w) as [| var us].
    + apply frame_refl.
    + unfold bind at 1. unfold gets at 1. unfold bind at 1.
      pose proof (FC_vals_frame (cur_domain var w) con var ps flag w) as HF.
      destruct (FC_vals con var (cur_domain var w) ps flag w) as [w1 [[ps' flag'] | e]];
        simpl in HF; [| exact HF].
      simpl. destruct flag'; simpl.
      * eapply frame_trans; [exact HF | apply IH].
      * exact HF.
Qed.

Lemma prop_FC_frame : forall newVar w, frame w (fst (prop_FC newVar w)).
Proof.
  intros newVar w. unfold prop_FC, bind, gets. apply FC_cons_frame.
Qed.

(** C7. Whatever prop_FC does -- return success, return failure early, or
    raise -- every variable has the same assigned value after the call as
    before it: each tentative [assign] is undone by the [unassign] of the
    same probe. *)
Theorem prop_FC_assigned : forall newVar w X,
  get_assigned_value X (fst (prop_FC newVar w)) = get_assigned_value X w.
Proof.
  intros newVar w X.
  destruct (prop_FC_frame newVar w) as (_ & _ & _ & H).
  unfold get_assigned_value. destruct (H X) as (_ & _ & Ha & _). exact Ha.
Qed.

Lemma GAC_vals_frame : forall vals curr var que ps w,
  frame w (fst (GAC_vals curr var vals que ps w)).
Proof.
  induction vals as [| val vals IH]; intros curr var que ps w; simpl.
  - apply frame_refl.
  - unfold bind at 1. unfold gets at 1.
    destruct (has_support curr var val w); simpl.
    + apply IH.
    + unfold bind at 1.
      destruct (prune_value var val w) as [w1 [[] | e]] eqn:EP.
      * apply prune_value_ok in EP as (_ & _ & _ & HF).
        unfold bind at 1. unfold gets at 1.
        destruct (cur_domain var w1).
        -- exact HF.
        -- unfold bind at 1. unfold gets at 1.
           eapply frame_trans; [exact HF | apply IH].
      * apply prune_value_raise in EP as [-> _]. apply frame_refl.
Qed.

Lemma GAC_scope_frame : forall vars curr que ps w,
  frame w (fst (GAC_scope curr vars que ps w)).
Proof.
  induction vars as [| var vars IH]; intros curr que ps w; simpl.
  - apply frame_refl.
  - unfold bind at 1. unfold gets at 1. unfold bind at 1.
    pose proof (GAC_vals_frame (cur_domain var w) curr var que ps w) as HF.
    destruct (GAC_vals curr var (cur_domain var w) que ps w)
      as [w1 [[[que' ps'] | out] | e]]; simpl in HF; simpl.
    + eapply frame_trans; [exact HF | apply IH].
    + exact HF.
    + exact HF.
Qed.

Lemma GAC_loop_frame : forall fuel que ps w w' out,
  GAC_loop fuel que ps w = Some (w', out) -> frame w w'.
Proof.
  induction fuel as [| fuel IH]; intros que ps w w' out H.
  - destruct que; simpl in H; [| discriminate].
    injection H as <- _. apply frame_refl.
  - destruct que as [| curr que]; simpl in H.
    + injection H as <- _. apply frame_refl.
    + pose proof (GAC_scope_frame (get_scope curr) curr que ps w) as HF.
      destruct (GAC_scope curr (get_scope curr) que ps w)
        as [w1 [[[que' ps'] | o] | e]]; simpl in HF.
      * eapply frame_trans; [exact HF | eapply IH; exact H].
      * injection H as <- _. exact HF.
      * injection H as <- _. exact HF.
Qed.

(** A run of the loop that comes back, with a result or with an exception,
    leaves everything but the current domains. *)
Lemma GAC_rounds_frame : forall fuel newVar w w' out,
  prop_GAC_fuel fuel newVar w = Some (w', out) ->
  w_csp w' = w_csp w /\
  get_all_cons w' = get_all_cons w /\
  csp_vars (w_csp w') = csp_vars (w_csp w) /\
  forall X,
    get_assigned_value X w' = get_assigned_value X w /\
    v_name (w_var w' X) = v_name (w_var w X) /\
    v_dom (w_var w' X) = v_dom (w_var w X) /\
    incl (cur_domain X w') (cur_domain X w).
Proof.
  intros fuel newVar w w' out H.
  apply GAC_loop_frame in H. destruct H as (Hc & _ & _ & Hv).
  unfold get_all_cons. rewrite Hc. repeat split; trivial;
    destruct (Hv X) as (h1 & h2 & h3 & h4); assumption.
Qed.


(* ------------------------------------------------------------------ *)
(** ** The subscript of prop_FC *)
(* ------------------------------------------------------------------ *)

Lemma frame_assigned : forall w w' X,
  frame w w' -> get_assigned_value X w' = get_assigned_value X w.
Proof.
  intros w w' X (_ & _ & _ & H). unfold get_assigned_value.
  destruct (H X) as (_ & _ & Ha & _). exact Ha.
Qed.

Lemma frame_unasgn_vars : forall w w' con,
  frame w w' -> get_unasgn_vars con w' = get_unasgn_vars con w.
Proof.
  intros w w' con HF. unfold get_unasgn_vars. apply filter_ext.
  intros X. unfold is_assigned. now rewrite (frame_assigned _ _ X HF).
Qed.

Lemma FC_vals_no_IndexError : forall vals con var ps flag w,
  snd (FC_vals con var vals ps flag w) <> Raise IndexError.
Proof.
  induction vals as [| val vals IH]; intros con var ps flag w; simpl.
  - discriminate.
  - unfold bind at 1.
    destruct (assign var val w) as [w1 [[] | e]] eqn:EA.
    + apply assign_unassign in EA as (_ & _ & _ & w2 & EU & _).
      unfold bind at 1. unfold gets at 1. unfold bind at 1. rewrite EU.
      destruct (check con (assigned_values con w1)); simpl.
      * apply IH.
      * unfold bind at 1.
        destruct (prune_value var val w2) as [w3 [[] | e]] eqn:EP.
        -- apply IH.
        -- apply prune_value_raise in EP as [_ ->]. simpl. discriminate.
    + apply assign_raise in EA as [_ ->]. simpl. discriminate.
Qed.

Lemma FC_cons_no_IndexError : forall lst ps flag w,
  (forall con, In con lst -> get_unasgn_vars con w <> []) ->
  snd (FC_cons lst ps flag w) <> Raise IndexError.
Proof.
  induction lst as [| con lst IH]; intros ps flag w Hne; simpl.
  - discriminate.
  - unfold bind at 1. unfold gets at 1.
    destruct (get_unasgn_vars con w) as [| var us] eqn:EU.
    + exfalso. apply (Hne con); [now left | exact EU].
    + unfold bind at 1. unfold gets at 1. unfold bind at 1.
      pose proof (FC_vals_frame (cur_domain var w) con var ps flag w) as HF.
      pose proof (FC_vals_no_IndexError (cur_domain var w) con var ps flag w) as HN.
      destruct (FC_vals con var (cur_domain var w) ps flag w) as [w1 [[ps' flag'] | e]];
        simpl in HF, HN;
        [| simpl; intros H; injection H as ->; now apply HN].
      simpl. destruct flag'; simpl.
      * apply IH. intros c Hc. rewrite (frame_unasgn_vars _ _ c HF).
        apply Hne. now right.
      * discriminate.
Qed.

(** C10. The subscript [con.get_unasgn_vars()[0]] of prop_FC is in bounds
    for every collected constraint when, in a call without a newly assigned
    variable, no unary constraint has its variable assigned (with a newly
    assigned variable nothing is asked: only constraints with one unassigned
    scope member are collected).  Without that, a unary constraint whose
    variable is assigned makes the subscript raise IndexError. *)
Theorem prop_FC_subscript :
  (forall newVar w,
     (newVar = None -> unary_unassigned w) ->
     snd (prop_FC newVar w) <> Raise IndexError) /\
  (forall w con rest,
     FC_collect None w = con :: rest ->
     get_unasgn_vars con w = [] ->
     prop_FC None w = (w, Raise IndexError)).
Proof.
  split.
  - intros newVar w Hpre. unfold prop_FC, bind, gets.
    apply FC_cons_no_IndexError. intros con Hin.
    destruct newVar as [V |]; simpl in Hin; apply filter_In in Hin as [Hin Hf].
    + apply Nat.eqb_eq in Hf. unfold get_n_unasgn in Hf.
      intros E. rewrite E in Hf. discriminate.
    + apply Nat.eqb_eq in Hf. now apply Hpre.
  - intros w con rest Hc Hu. unfold prop_FC, bind, gets. rewrite Hc. simpl.
    unfold bind, gets. rewrite Hu. reflexivity.
Qed.

Lemma prop_FC_subscript_witness :
  snd (prop_FC None ne_world) <> Raise IndexError /\
  snd (prop_FC (Some 0) asg_world) <> Raise IndexError /\
  prop_FC None asg_world = (asg_world, Raise IndexError).
Proof.
  split; [| split].
  - apply (proj1 prop_FC_subscript None ne_world).
    intros _ con Hin Hlen. destruct Hin as [<- | []]. discriminate.
  - apply (proj1 prop_FC_subscript (Some 0) asg_world). discriminate.
  - apply (proj2 prop_FC_subscript asg_world un_con []); reflexivity.
Defined.

(* ------------------------------------------------------------------ *)
(** ** The prune list is what was pruned *)
(* ------------------------------------------------------------------ *)

Lemma remove_as_filter : forall (u : Value) l,
  remove Z.eq_dec u l = filter (fun v => negb (Z.eqb v u)) l.
Proof.
  intros u l. induction l as [| a l IH]; simpl; [reflexivity |].
  destruct (Z.eq_dec u a) as [-> | Hne].
  - rewrite Z.eqb_refl. simpl. exact IH.
  - assert (E : Z.eqb a u = false) by (apply Z.eqb_neq; congruence).
    rewrite E. simpl. now rewrite IH.
Qed.

Lemma prune_value_weq : forall X v w1 w2 w1',
  weq w1 w2 ->
  prune_value X v w1 = (w1', Ok tt) ->
  exists w2', prune_value X v w2 = (w2', Ok tt) /\ weq w1' w2'.
Proof.
  intros X v w1 w2 w1' (Hc & Hn & Hm & Hv) H. unfold prune_value in *.
  rewrite Hv.
  destruct (in_dom v (v_curdom (w_var w1 X))); [| discriminate].
  injection H as <-. eexists. split; [reflexivity |].
  repeat split; simpl; trivial. intros Y. now rewrite Hv.
Qed.

Lemma replay_snoc : forall ps X v w w1 w2,
  replay ps w = (w1, Ok tt) ->
  prune_value X v w1 = (w2, Ok tt) ->
  replay (ps ++ [(X, v)]) w = (w2, Ok tt).
Proof.
  induction ps as [| [Y u] ps IH]; intros X v w w1 w2 Hr Hp; simpl in *.
  - unfold ret in Hr. injection Hr as <-. unfold bind. rewrite Hp. reflexivity.
  - unfold bind in *.
    destruct (prune_value Y u w) as [w0 [[] | e]]; [| discriminate].
    eapply IH; eassumption.
Qed.

Lemma tracks_start : forall w, tracks w [] w.
Proof. intros w. exists w. split; [reflexivity | apply weq_refl]. Qed.

Lemma tracks_weq : forall w0 ps w w',
  tracks w0 ps w -> weq w w' -> tracks w0 ps w'.
Proof.
  intros w0 ps w w' (wr & Hr & Hq) H. exists wr. split; [exact Hr |].
  eapply weq_trans; eassumption.
Qed.

Lemma tracks_prune : forall w0 ps w w' X v,
  tracks w0 ps w ->
  prune_value X v w = (w', Ok tt) ->
  tracks w0 (ps ++ [(X, v)]) w'.
Proof.
  intros w0 ps w w' X v (wr & Hr & Hq) Hp.
  destruct (prune_value_weq X v w wr w' (weq_sym _ _ Hq) Hp) as (wr' & Hp' & Hq').
  exists wr'. split.
  - eapply replay_snoc; eassumption.
  - now apply weq_sym.
Qed.

Lemma FC_vals_tracks : forall vals con var ps flag w0 w w' ps' flag',
  tracks w0 ps w ->
  FC_vals con var vals ps flag w = (w', Ok (ps', flag')) ->
  tracks w0 ps' w'.
Proof.
  induction vals as [| val vals IH]; intros con var ps flag w0 w w' ps' flag' Ht H;
    simpl in H.
  - unfold ret in H. injection H as <- <- _. exact Ht.
  - unfold bind at 1 in H.
    destruct (assign var val w) as [w1 [[] | e]] eqn:EA; [| discriminate].
    apply assign_unassign in EA as (_ & _ & _ & w2 & EU & Hweq).
    unfold bind at 1 in H. unfold gets at 1 in H. unfold bind at 1 in H.
    rewrite EU in H.
    destruct (check con (assigned_values con w1)); simpl in H.
    + eapply IH; [| exact H]. eapply tracks_weq; eassumption.
    + unfold bind at 1 in H.
      destruct (prune_value var val w2) as [w3 [[] | e]] eqn:EP; [| discriminate].
      eapply IH; [| exact H]. eapply tracks_prune; [| exact EP].
      eapply tracks_weq; eassumption.
Qed.

Lemma FC_cons_tracks : forall lst ps flag w0 w w' ps' flag',
  tracks w0 ps w ->
  FC_cons lst ps flag w = (w', Ok (flag', ps')) ->
  tracks w0 ps' w'.
Proof.
  induction lst as [| con lst IH]; intros ps flag w0 w w' ps' flag' Ht H; simpl in H.
  - unfold ret in H. injection H as <- _ <-. exact Ht.
  - unfold bind at 1 in H. unfold gets at 1 in H.
    destruct (get_unasgn_vars con w) as [| var us]; [discriminate |].
    unfold bind at 1 in H. unfold gets at 1 in H. unfold bind at 1 in H.
    destruct (FC_vals con var (cur_domain var w) ps flag w)
      as [w1 [[ps1 flag1] | e]] eqn:EV; [| discriminate].
    pose proof (FC_vals_tracks _ _ _ _ _ _ _ _ _ _ Ht EV) as Ht1.
    simpl in H. destruct flag1; simpl in H.
    + eapply IH; eassumption.
    + unfold ret in H. injection H as <- _ <-. exact Ht1.
Qed.

Lemma GAC_vals_tracks : forall vals curr var que ps w0 w w' r,
  tracks w0 ps w ->
  GAC_vals curr var vals que ps w = (w', Ok r) ->
  tracks w0 (match r with Next s => snd s | Return o => snd o end) w'.
Proof.
  induction vals as [| val vals IH]; intros curr var que ps w0 w w' r Ht H;
    simpl in H.
  - unfold ret in H. injection H as <- <-. exact Ht.
  - unfold bind at 1 in H. unfold gets at 1 in H.
    destruct (has_support curr var val w); simpl in H.
    + eapply IH; eassumption.
    + unfold bind at 1 in H.
      destruct (prune_value var val w) as [w1 [[] | e]] eqn:EP; [| discriminate].
      pose proof (tracks_prune _ _ _ _ _ _ Ht EP) as Ht1.
      unfold bind at 1 in H. unfold gets at 1 in H.
      destruct (cur_domain var w1).
      * unfold ret in H. injection H as <- <-. exact Ht1.
      * unfold bind at 1 in H. unfold gets at 1 in H.
        eapply IH; eassumption.
Qed.

Lemma GAC_scope_tracks : forall vars curr que ps w0 w w' r,
  tracks w0 ps w ->
  GAC_scope curr vars que ps w = (w', Ok r) ->
  tracks w0 (match r with Next s => snd s | Return o => snd o end) w'.
Proof.
  induction vars as [| var vars IH]; intros curr que ps w0 w w' r Ht H; simpl in H.
  - unfold ret in H. injection H as <- <-. exact Ht.
  - unfold bind at 1 in H. unfold gets at 1 in H. unfold bind at 1 in H.
    destruct (GAC_vals curr var (cur_domain var w) que ps w)
      as [w1 [[[que1 ps1] | out] | e]] eqn:EV; [| | discriminate].
    + pose proof (GAC_vals_tracks _ _ _ _ _ _ _ _ _ Ht EV) as Ht1. simpl in Ht1.
      eapply IH; eassumption.
    + pose proof (GAC_vals_tracks _ _ _ _ _ _ _ _ _ Ht EV) as Ht1. simpl in Ht1.
      unfold ret in H. injection H as <- <-. exact Ht1.
Qed.

Lemma GAC_loop_tracks : forall fuel que ps w0 w w' flag ps',
  tracks w0 ps w ->
  GAC_loop fuel que ps w = Some (w', Ok (flag, ps')) ->
  tracks w0 ps' w'.
Proof.
  induction fuel as [| fuel IH]; intros que ps w0 w w' flag ps' Ht H.
  - destruct que; simpl in H; [| discriminate].
    injection H as <- _ <-. exact Ht.
  - destruct que as [| curr que]; simpl in H.
    + injection H as <- _ <-. exact Ht.
    + destruct (GAC_scope curr (get_scope curr) que ps w)
        as [w1 [[[que1 ps1] | out] | e]] eqn:ES; [| | discriminate].
      * pose proof (GAC_scope_tracks _ _ _ _ _ _ _ _ Ht ES) as Ht1. simpl in Ht1.
        eapply IH; eassumption.
      * pose proof (GAC_scope_tracks _ _ _ _ _ _ _ _ Ht ES) as Ht1. simpl in Ht1.
        injection H as Hw Ho. subst w' out. exact Ht1.
Qed.


Lemma replay_frame : forall ps w w',
  replay ps w = (w', Ok tt) -> frame w w'.
Proof.
  induction ps as [| [Y u] ps IH]; intros w w' H; simpl in H.
  - unfold ret in H. injection H as <-. apply frame_refl.
  - unfold bind in H.
    destruct (prune_value Y u w) as [w1 [[] | e]] eqn:EP; [| discriminate].
    apply prune_value_ok in EP as (_ & _ & _ & HF).
    eapply frame_trans; [exact HF | now apply IH].
Qed.

Lemma frame_curdom : forall w w' X v,
  frame w w' -> In v (cur_domain X w') -> In v (cur_domain X w).
Proof.
  intros w w' X v (_ & _ & _ & H) Hin. destruct (H X) as (_ & _ & _ & Hi).
  now apply Hi.
Qed.

Lemma replay_In : forall ps w w' X v,
  replay ps w = (w', Ok tt) -> In (X, v) ps -> In v (cur_domain X w).
Proof.
  induction ps as [| [Y u] ps IH]; intros w w' X v H Hin; simpl in H.
  - destruct Hin.
  - unfold bind in H.
    destruct (prune_value Y u w) as [w1 [[] | e]] eqn:EP; [| discriminate].
    apply prune_value_ok in EP as (Hu & _ & _ & HF).
    destruct Hin as [E | Hin].
    + injection E as -> ->. exact Hu.
    + eapply frame_curdom; [exact HF |]. eapply IH; eassumption.
Qed.

Lemma replay_NoDup : forall ps w w',
  replay ps w = (w', Ok tt) -> NoDup ps.
Proof.
  induction ps as [| [Y u] ps IH]; intros w w' H; simpl in H.
  - constructor.
  - unfold bind in H.
    destruct (prune_value Y u w) as [w1 [[] | e]] eqn:EP; [| discriminate].
    apply prune_value_ok in EP as (_ & Hd & _ & _).
    constructor.
    + intros Hin. pose proof (replay_In _ _ _ _ _ H Hin) as Hu.
      rewrite Hd in Hu. now apply remove_In in Hu.
    + eapply IH; exact H.
Qed.

Lemma replay_split : forall ps1 X v ps2 w w',
  replay (ps1 ++ (X, v) :: ps2) w = (w', Ok tt) ->
  exists w1, replay ps1 w = (w1, Ok tt) /\ In v (cur_domain X w1).
Proof.
  induction ps1 as [| [Y u] ps1 IH]; intros X v ps2 w w' H; simpl in H.
  - exists w. split; [reflexivity |].
    apply (replay_In ((X, v) :: ps2) w w' X v H). now left.
  - unfold bind in H.
    destruct (prune_value Y u w) as [w0 [[] | e]] eqn:EP; [| discriminate].
    destruct (IH _ _ _ _ _ H) as (w1 & Hr & Hin).
    exists w1. split; [| exact Hin]. simpl. unfold bind. now rewrite EP.
Qed.

Lemma pruned_cons : forall Y u ps X v,
  pruned ((Y, u) :: ps) X v = (Nat.eqb Y X && Z.eqb u v) || pruned ps X v.
Proof.
  intros Y u ps X v. unfold pruned.
  destruct (in_dec Prune_eq_dec (X, v) ((Y, u) :: ps)) as [Hin | Hn];
    destruct (in_dec Prune_eq_dec (X, v) ps) as [Hin' | Hn'].
  - now rewrite orb_true_r.
  - destruct Hin as [E | Hin]; [| contradiction].
    injection E as -> ->. now rewrite Nat.eqb_refl, Z.eqb_refl.
  - exfalso. apply Hn. now right.
  - rewrite orb_false_r. symmetry. apply andb_false_iff.
    destruct (Nat.eqb Y X) eqn:E1; [| now left]. right.
    destruct (Z.eqb u v) eqn:E2; [| reflexivity].
    apply Nat.eqb_eq in E1. apply Z.eqb_eq in E2. subst.
    exfalso. apply Hn. now left.
Qed.

Lemma replay_curdom : forall ps w w' X,
  replay ps w = (w', Ok tt) ->
  cur_domain X w' = filter (fun v => negb (pruned ps X v)) (cur_domain X w).
Proof.
  induction ps as [| [Y u] ps IH]; intros w w' X H; simpl in H.
  - unfold ret in H. injection H as <-.
    induction (cur_domain X w) as [| a l IHl]; simpl; [reflexivity |].
    f_equal. exact IHl.
  - unfold bind in H.
    destruct (prune_value Y u w) as [w1 [[] | e]] eqn:EP; [| discriminate].
    apply prune_value_ok in EP as (_ & Hd & Hother & _).
    rewrite (IH _ _ X H).
    destruct (Nat.eq_dec X Y) as [-> | Hne].
    + rewrite Hd, remove_as_filter. clear Hd.
      induction (cur_domain Y w) as [| a l IHl]; simpl; [reflexivity |].
      rewrite pruned_cons, Nat.eqb_refl. simpl.
      rewrite (Z.eqb_sym u a).
      destruct (Z.eqb a u); simpl; [exact IHl |].
      destruct (pruned ps Y a); simpl; [exact IHl | now rewrite IHl].
    + unfold cur_domain at 1. rewrite (Hother X Hne). fold (cur_domain X w).
      apply filter_ext. intros a. rewrite pruned_cons.
      assert (E : Nat.eqb Y X = false) by (apply Nat.eqb_neq; congruence).
      now rewrite E.
Qed.


(* ------------------------------------------------------------------ *)
(** ** prop_FC against forward checking as the design words it *)
(* ------------------------------------------------------------------ *)

Lemma probe_assigned_values : forall con var val w w1,
  assign var val w = (w1, Ok tt) ->
  assigned_values con w1 = probe_vals con var val w.
Proof.
  intros con var val w w1 H.
  apply assign_unassign in H as (_ & _ & Hv & _).
  unfold assigned_values, probe_vals. apply map_ext. intros Y. apply Hv.
Qed.

Lemma probe_vals_frame : forall con U val w w',
  frame w w' -> probe_vals con U val w' = probe_vals con U val w.
Proof.
  intros con U val w w' HF. unfold probe_vals. apply map_ext. intros Y.
  now rewrite (frame_assigned _ _ Y HF).
Qed.

Lemma filter_none : forall (l : list Value),
  filter (fun v => negb (in_dom v [])) l = l.
Proof.
  induction l as [| a l IH]; simpl; [reflexivity | f_equal; exact IH].
Qed.

Lemma filter_twice : forall (b1 b2 l : list Value),
  filter (fun v => negb (in_dom v b2)) (filter (fun v => negb (in_dom v b1)) l) =
  filter (fun v => negb (in_dom v (b1 ++ b2))) l.
Proof.
  intros b1 b2 l.
  assert (Happ : forall a, in_dom a (b1 ++ b2) = in_dom a b1 || in_dom a b2)
    by (intros a; unfold in_dom; apply existsb_app).
  induction l as [| a l IH]; cbn [filter]; [reflexivity |].
  rewrite Happ.
  destruct (in_dom a b1); cbn [negb orb filter]; [exact IH |].
  destruct (in_dom a b2); cbn [negb]; [exact IH | now rewrite IH].
Qed.

Lemma pruned_to_weq : forall U w w', weq w w' -> pruned_to U [] w w'.
Proof.
  intros U w w' (Hc & Hn & Hm & Hv). unfold pruned_to.
  repeat split; trivial; try (now rewrite Hv).
  rewrite filter_none. now rewrite Hv.
Qed.

Lemma pruned_to_prune : forall U val w w',
  prune_value U val w = (w', Ok tt) -> pruned_to U [val] w w'.
Proof.
  intros U val w w' H.
  apply prune_value_ok in H as (_ & Hd & Hother & (Hc & Hn & Hm & Hv)).
  destruct (Hv U) as (h1 & h2 & h3 & _).
  unfold pruned_to. repeat split; trivial.
  unfold cur_domain in Hd. rewrite Hd, remove_as_filter.
  apply filter_ext. intros a. simpl. now rewrite orb_false_r.
Qed.

Lemma pruned_to_trans : forall U b1 b2 w w1 w2,
  pruned_to U b1 w w1 -> pruned_to U b2 w1 w2 -> pruned_to U (b1 ++ b2) w w2.
Proof.
  intros U b1 b2 w w1 w2
         (A1 & A2 & A3 & A4 & A5 & A6 & A7 & A8)
         (B1 & B2 & B3 & B4 & B5 & B6 & B7 & B8).
  unfold pruned_to. repeat split; try congruence.
  - intros Y HY. rewrite (B4 Y HY). now apply A4.
  - rewrite B8, A8. apply filter_twice.
Qed.

Lemma pruned_to_frame : forall U b w w', pruned_to U b w w' -> frame w w'.
Proof.
  intros U b w w' (A1 & A2 & A3 & A4 & A5 & A6 & A7 & A8).
  split; [exact A1 |]. split; [exact A2 |]. split; [exact A3 |].
  intros X. destruct (Nat.eq_dec X U) as [-> | Hne].
  - split; [exact A5 |]. split; [exact A6 |]. split; [exact A7 |].
    rewrite A8. intros v Hv. apply filter_In in Hv. tauto.
  - rewrite (A4 X Hne). repeat split. apply incl_refl.
Qed.

Lemma probe_filter_frame : forall (f : bool -> bool) con U w w' vals,
  frame w w' ->
  filter (fun v => f (check con (probe_vals con U v w'))) vals =
  filter (fun v => f (check con (probe_vals con U v w))) vals.
Proof.
  intros f con U w w' vals HF. apply filter_ext. intros a.
  now rewrite (probe_vals_frame con U a w w' HF).
Qed.

Lemma probe_existsb_frame : forall con U w w' vals,
  frame w w' ->
  existsb (fun v => check con (probe_vals con U v w')) vals =
  existsb (fun v => check con (probe_vals con U v w)) vals.
Proof.
  intros con U w w' vals HF. induction vals as [| a l IHl]; simpl; [reflexivity |].
  now rewrite IHl, (probe_vals_frame con U a w w' HF).
Qed.

Lemma FC_vals_spec : forall vals con var ps flag w w' ps' flag',
  FC_vals con var vals ps flag w = (w', Ok (ps', flag')) ->
  ps' = ps ++ map (pair var)
              (filter (fun val => negb (check con (probe_vals con var val w))) vals) /\
  flag' = flag || existsb (fun val => check con (probe_vals con var val w)) vals /\
  pruned_to var
    (filter (fun val => negb (check con (probe_vals con var val w))) vals) w w'.
Proof.
  induction vals as [| val vals IH]; intros con var ps flag w w' ps' flag' H;
    simpl in H.
  - unfold ret in H. injection H as <- <- <-. simpl.
    rewrite app_nil_r, orb_false_r. repeat split; trivial.
    apply pruned_to_weq, weq_refl.
  - unfold bind at 1 in H.
    destruct (assign var val w) as [w1 [[] | e]] eqn:EA; [| discriminate].
    pose proof (probe_assigned_values con _ _ _ _ EA) as Hprobe.
    apply assign_unassign in EA as (_ & _ & _ & w2 & EU & Hweq).
    unfold bind at 1 in H. unfold gets at 1 in H. unfold bind at 1 in H.
    rewrite EU, Hprobe in H.
    pose proof (weq_frame _ _ Hweq) as HF2.
    cbn [filter existsb].
    destruct (check con (probe_vals con var val w)) eqn:EC; cbn [negb] in H |- *.
    + apply IH in H as (Hps & Hflag & Hpr).
      rewrite (probe_filter_frame negb con var w w2 vals HF2) in Hps, Hpr.
      rewrite (probe_existsb_frame con var w w2 vals HF2) in Hflag.
      rewrite orb_true_r. split; [exact Hps |]. split; [exact Hflag |].
      apply (pruned_to_trans var [] _ w w2 w'); [now apply pruned_to_weq | exact Hpr].
    + unfold bind at 1 in H.
      destruct (prune_value var val w2) as [w3 [[] | e]] eqn:EP; [| discriminate].
      pose proof (pruned_to_prune _ _ _ _ EP) as Hp1.
      assert (HF3 : frame w w3).
      { eapply frame_trans; [exact HF2 |]. eapply pruned_to_frame; exact Hp1. }
      apply IH in H as (Hps & Hflag & Hpr).
      rewrite (probe_filter_frame negb con var w w3 vals HF3) in Hps, Hpr.
      rewrite (probe_existsb_frame con var w w3 vals HF3) in Hflag.
      split; [| split].
      * rewrite Hps, <- app_assoc. reflexivity.
      * exact Hflag.
      * apply (pruned_to_trans var [] _ w w2 w'); [now apply pruned_to_weq |].
        apply (pruned_to_trans var [val] _ w2 w3 w'); assumption.
Qed.

Lemma existsb_false_filter : forall (f : Value -> bool) l,
  existsb f l = false -> filter f l = [].
Proof.
  intros f l. induction l as [| a l IH]; simpl; [reflexivity |].
  destruct (f a); simpl; [discriminate | exact IH].
Qed.

Lemma existsb_true_filter : forall (f : Value -> bool) l,
  existsb f l = true -> filter f l <> [].
Proof.
  intros f l. induction l as [| a l IH]; simpl; [discriminate |].
  destruct (f a); simpl; [discriminate | exact IH].
Qed.

Lemma FC_cons_spec : forall lst ps w w' flag ps',
  (forall con, In con lst -> List.length (get_unasgn_vars con w) <= 1) ->
  FC_cons lst ps false w = (w', Ok (flag, ps')) ->
  exists ps1, ps' = ps ++ ps1 /\ FC_spec lst w flag ps1 w'.
Proof.
  induction lst as [| con lst IH]; intros ps w w' flag ps' Hone H; simpl in H.
  - unfold ret in H. injection H as <- <- <-.
    exists []. rewrite app_nil_r. split; [reflexivity |].
    constructor. apply weq_refl.
  - unfold bind at 1 in H. unfold gets at 1 in H.
    destruct (get_unasgn_vars con w) as [| var us] eqn:EU; [discriminate |].
    assert (us = []) as ->.
    { pose proof (Hone con (or_introl eq_refl)) as Hl. rewrite EU in Hl.
      destruct us; [reflexivity | simpl in Hl; lia]. }
    unfold bind at 1 in H. unfold gets at 1 in H. unfold bind at 1 in H.
    destruct (FC_vals con var (cur_domain var w) ps false w)
      as [w1 [[ps1 flag1] | e]] eqn:EV; [| discriminate].
    apply FC_vals_spec in EV as (Hps & Hflag & Hpr).
    fold (failing con var w) in Hps, Hpr.
    cbn [fst snd orb] in H, Hflag.
    destruct flag1; cbn [negb] in H.
    + assert (Hone' : forall c, In c lst ->
                                List.length (get_unasgn_vars c w1) <= 1).
      { intros c Hc.
        rewrite (frame_unasgn_vars _ _ c (pruned_to_frame _ _ _ _ Hpr)).
        apply Hone. now right. }
      destruct (IH _ _ _ _ _ Hone' H) as (ps2 & Hps2 & Hspec).
      exists (map (pair var) (failing con var w) ++ ps2). split.
      * rewrite Hps2, Hps, app_assoc. reflexivity.
      * eapply FC_spec_next; [exact EU | exact Hpr | | exact Hspec].
        apply existsb_true_filter. now symmetry.
    + unfold ret in H. injection H as <- <- <-.
      exists (map (pair var) (failing con var w)). split; [exact Hps |].
      eapply FC_spec_wipeout; [exact EU | exact Hpr |].
      apply existsb_false_filter. now symmetry.
Qed.

Lemma FC_collect_single : forall newVar w con,
  In con (FC_collect newVar w) -> List.length (get_unasgn_vars con w) <= 1.
Proof.
  intros [V |] w con Hin; simpl in Hin; apply filter_In in Hin as [_ Hf];
    apply Nat.eqb_eq in Hf.
  - unfold get_n_unasgn in Hf. lia.
  - unfold get_unasgn_vars. rewrite <- Hf. apply filter_length_le.
Qed.

Lemma filter_filter : forall (A : Type) (p q : A -> bool) l,
  filter q (filter p l) = filter (fun x => p x && q x) l.
Proof.
  intros A p q l. induction l as [| x l IH]; simpl; [reflexivity |].
  destruct (p x); simpl; [| exact IH].
  destruct (q x); now rewrite IH.
Qed.

Lemma FC_collect_processed : forall newVar w,
  FC_collect newVar w = filter (FC_processed newVar w) (get_all_cons w).
Proof.
  intros [V |] w; [| reflexivity].
  unfold FC_collect, get_cons_with_var, get_all_cons. rewrite filter_filter.
  apply filter_ext. intros con. unfold FC_processed, in_scope.
  f_equal. unfold get_n_unasgn, get_unasgn_vars. f_equal. f_equal.
  apply filter_ext. intros X. unfold is_assigned.
  now destruct (get_assigned_value X w).
Qed.

(** C5. A call of prop_FC that returns has done forward checking as the
    design words it.  The constraints it processes are, in the order of the
    CSP's listing, the unary ones when there is no newly assigned variable,
    and otherwise the ones containing V with exactly one unassigned scope
    member.  Constraint after constraint, the single unassigned variable
    loses exactly the values whose probe fails [check], and the call fails,
    with the prunes so far, at the first constraint no value of which
    survives; otherwise it succeeds with all the prunes. *)
Theorem prop_FC_refines : forall newVar w w' flag ps,
  prop_FC newVar w = (w', Ok (flag, ps)) ->
  FC_spec (filter (FC_processed newVar w) (get_all_cons w)) w flag ps w'.
Proof.
  intros newVar w w' flag ps H. unfold prop_FC, bind, gets in H.
  destruct (FC_cons_spec _ _ _ _ _ _ (FC_collect_single newVar w) H)
    as (ps1 & Hps & Hspec).
  simpl in Hps. subst ps1. now rewrite <- FC_collect_processed.
Qed.

Lemma unary_world_FC :
  prop_FC None unary_world =
  (fst (prop_FC None unary_world), Ok (true, [(0, 1%Z)])).
Proof. vm_compute. reflexivity. Qed.

Lemma grid2_first_FC :
  prop_FC (Some 0) grid2_first =
  (fst (prop_FC (Some 0) grid2_first), Ok (true, [(2, 1%Z); (1, 1%Z)])).
Proof. vm_compute. reflexivity. Qed.

Lemma prop_FC_refines_witness :
  (filter (FC_processed None unary_world) (get_all_cons unary_world) =
     [mkCon 4 "only2" [0] [[2%Z]]] /\
   FC_spec (filter (FC_processed None unary_world) (get_all_cons unary_world))
           unary_world true [(0, 1%Z)] (fst (prop_FC None unary_world))) /\
  (map get_scope
       (filter (FC_processed (Some 0) grid2_first) (get_all_cons grid2_first)) =
     [[0; 2]; [0; 1]] /\
   FC_spec (filter (FC_processed (Some 0) grid2_first)
                   (get_all_cons grid2_first))
           grid2_first true [(2, 1%Z); (1, 1%Z)]
           (fst (prop_FC (Some 0) grid2_first))).
Proof.
  split; (split; [vm_compute; reflexivity |]).
  - apply (prop_FC_refines None unary_world _ true [(0, 1%Z)] unary_world_FC).
  - apply (prop_FC_refines (Some 0) grid2_first _ true [(2, 1%Z); (1, 1%Z)]
             grid2_first_FC).
Defined.

(* ------------------------------------------------------------------ *)
(** ** prop_GAC reaches a fixed point *)
(* ------------------------------------------------------------------ *)

Lemma in_scope_In : forall X c, in_scope X c = true <-> In X (get_scope c).
Proof.
  intros X c. unfold in_scope. rewrite existsb_exists. split.
  - intros [Y [HY E]]. apply Nat.eqb_eq in E. now subst.
  - intros H. exists X. split; [exact H | apply Nat.eqb_refl].
Qed.

Lemma cons_with_var_In : forall X w c,
  In c (get_cons_with_var X w) <-> In c (get_all_cons w) /\ In X (get_scope c).
Proof.
  intros X w c. unfold get_cons_with_var, get_all_cons.
  rewrite filter_In, in_scope_In. reflexivity.
Qed.

Lemma enqueue_In : forall cs que d,
  In d (enqueue que cs) <-> In d que \/ In d cs.
Proof.
  induction cs as [| con cs IH]; intros que d; simpl.
  - tauto.
  - rewrite IH. destruct (in_dec Constraint_eq_dec con que) as [Hin | Hn].
    + split; [tauto |]. intros [H | [<- | H]]; tauto.
    + rewrite in_app_iff. simpl. tauto.
Qed.

Lemma tuple_supports_ext : forall w w' X v scope t,
  (forall Y, In Y scope -> w_var w' Y = w_var w Y) ->
  tuple_supports w' X v scope t = tuple_supports w X v scope t.
Proof.
  intros w w' X v scope. induction scope as [| Y scope IH]; intros t Hsame.
  - reflexivity.
  - destruct t as [| u t]; simpl; [reflexivity |].
    rewrite IH by (intros Z HZ; apply Hsame; now right).
    unfold in_cur_domain, get_assigned_value, cur_domain.
    now rewrite (Hsame Y (or_introl eq_refl)).
Qed.

Lemma has_support_ext : forall c X v w w',
  (forall Y, In Y (get_scope c) -> w_var w' Y = w_var w Y) ->
  has_support c X v w' = has_support c X v w.
Proof.
  intros c X v w w' Hsame. unfold has_support. f_equal.
  induction (sat_tuples c) as [| t l IH]; simpl; [reflexivity |].
  now rewrite IH, (tuple_supports_ext w w' X v (get_scope c) t Hsame).
Qed.

Lemma gac_ok_ext : forall c w w',
  (forall Y, In Y (get_scope c) -> w_var w' Y = w_var w Y) ->
  gac_ok c w -> gac_ok c w'.
Proof.
  intros c w w' Hsame Hok X v HX Hv.
  rewrite (has_support_ext c X v w w' Hsame). apply Hok; [exact HX |].
  unfold cur_domain in *. now rewrite <- (Hsame X HX).
Qed.

Lemma frame_cons : forall w w', frame w w' -> get_all_cons w' = get_all_cons w.
Proof. intros w w' (Hc & _). unfold get_all_cons. now rewrite Hc. Qed.

(** Pruning a value of [var] and enqueuing the constraints on [var] keeps
    the invariant of the round. *)
Lemma gac_pending_prune : forall curr que w w1 var val,
  prune_value var val w = (w1, Ok tt) ->
  gac_pending curr que w ->
  gac_pending curr (enqueue que (get_cons_with_var var w1)) w1.
Proof.
  intros curr que w w1 var val EP HP c Hc Hne.
  apply prune_value_ok in EP as (_ & _ & Hother & HF).
  rewrite (frame_cons _ _ HF) in Hc.
  destruct (in_dec Nat.eq_dec var (get_scope c)) as [Hin | Hnin].
  - left. apply enqueue_In. right. apply cons_with_var_In.
    rewrite (frame_cons _ _ HF). tauto.
  - destruct (HP c Hc Hne) as [Hq | Hok].
    + left. apply enqueue_In. now left.
    + right. apply (gac_ok_ext c w w1); [| exact Hok].
      intros Y HY. apply Hother. intros ->. contradiction.
Qed.

Lemma enqueue_incl : forall que cs, incl que (enqueue que cs).
Proof. intros que cs d Hd. apply enqueue_In. now left. Qed.

(** A pass over the values of one scope variable that goes on to the next
    variable: either nothing was pruned and every value has a support, or
    the constraint of the round is back in the worklist. *)
Lemma GAC_vals_next : forall vals curr var que ps w w' que' ps',
  In var (get_scope curr) ->
  GAC_vals curr var vals que ps w = (w', Ok (Next (que', ps'))) ->
  frame w w' /\
  incl que que' /\
  (gac_pending curr que w -> gac_pending curr que' w') /\
  ((w' = w /\ que' = que /\ ps' = ps /\
    forall val, In val vals -> has_support curr var val w = true) \/
   (In curr (get_all_cons w) -> In curr que')).
Proof.
  induction vals as [| val vals IH]; intros curr var que ps w w' que' ps' Hvar H;
    simpl in H.
  - unfold ret in H. injection H as <- <- <-.
    split; [apply frame_refl |]. split; [apply incl_refl |]. split; [tauto |].
    left. repeat split. intros val [].
  - unfold bind at 1 in H. unfold gets at 1 in H.
    destruct (has_support curr var val w) eqn:ES; cbn [negb] in H.
    + destruct (IH _ _ _ _ _ _ _ _ Hvar H) as (HF & Hi & HP & Hd).
      split; [exact HF |]. split; [exact Hi |]. split; [exact HP |].
      destruct Hd as [(-> & -> & -> & Hall) | Hback]; [left | right; exact Hback].
      repeat split. intros v [<- | Hv]; [exact ES | now apply Hall].
    + unfold bind at 1 in H.
      destruct (prune_value var val w) as [w1 [[] | e]] eqn:EP; [| discriminate].
      unfold bind at 1 in H. unfold gets at 1 in H.
      destruct (cur_domain var w1) as [| d0 dom]; [discriminate |].
      unfold bind at 1 in H. unfold gets at 1 in H.
      destruct (IH _ _ _ _ _ _ _ _ Hvar H) as (HF & Hi & HP & _).
      pose proof (prune_value_ok _ _ _ _ EP) as (_ & _ & _ & HF1).
      split; [eapply frame_trans; eassumption |].
      split; [eapply incl_tran; [apply enqueue_incl | exact Hi] |].
      split.
      * intros HP0. apply HP. eapply gac_pending_prune; eassumption.
      * right. intros Hc. apply Hi. apply enqueue_In. right.
        apply cons_with_var_In. rewrite (frame_cons _ _ HF1). tauto.
Qed.

Lemma GAC_scope_next : forall vars curr que ps w w' que' ps',
  incl vars (get_scope curr) ->
  GAC_scope curr vars que ps w = (w', Ok (Next (que', ps'))) ->
  frame w w' /\
  incl que que' /\
  (gac_pending curr que w -> gac_pending curr que' w') /\
  ((w' = w /\ que' = que /\ ps' = ps /\
    forall var val, In var vars -> In val (cur_domain var w) ->
                    has_support curr var val w = true) \/
   (In curr (get_all_cons w) -> In curr que')).
Proof.
  induction vars as [| var vars IH]; intros curr que ps w w' que' ps' Hvars H;
    simpl in H.
  - unfold ret in H. injection H as <- <- <-.
    split; [apply frame_refl |]. split; [apply incl_refl |]. split; [tauto |].
    left. repeat split. intros var val [].
  - unfold bind at 1 in H. unfold gets at 1 in H. unfold bind at 1 in H.
    destruct (GAC_vals curr var (cur_domain var w) que ps w)
      as [w1 [[[que1 ps1] | out] | e]] eqn:EV; [| | discriminate].
    2: { unfold ret in H. discriminate. }
    assert (Hvar : In var (get_scope curr)) by (apply Hvars; now left).
    assert (Hvars' : incl vars (get_scope curr))
      by (intros Y HY; apply Hvars; now right).
    destruct (GAC_vals_next _ _ _ _ _ _ _ _ _ Hvar EV) as (HF1 & Hi1 & HP1 & Hd1).
    destruct (IH _ _ _ _ _ _ _ Hvars' H) as (HF2 & Hi2 & HP2 & Hd2).
    split; [eapply frame_trans; eassumption |].
    split; [eapply incl_tran; eassumption |].
    split; [tauto |].
    destruct Hd1 as [(-> & -> & -> & Hall1) | Hback1].
    + destruct Hd2 as [(-> & -> & -> & Hall2) | Hback2]; [left | right; exact Hback2].
      repeat split. intros Y v [<- | HY] Hv; [now apply Hall1 | now apply Hall2].
    + right. intros Hc. apply Hi2. now apply Hback1.
Qed.

(** Leaving the loops of a round early is always a failure. *)
Lemma GAC_vals_return : forall vals curr var que ps w w' flag ps',
  GAC_vals curr var vals que ps w = (w', Ok (Return (flag, ps'))) ->
  flag = false.
Proof.
  induction vals as [| val vals IH]; intros curr var que ps w w' flag ps' H;
    simpl in H.
  - discriminate.
  - unfold bind at 1 in H. unfold gets at 1 in H.
    destruct (has_support curr var val w); cbn [negb] in H.
    + eapply IH; exact H.
    + unfold bind at 1 in H.
      destruct (prune_value var val w) as [w1 [[] | e]]; [| discriminate].
      unfold bind at 1 in H. unfold gets at 1 in H.
      destruct (cur_domain var w1).
      * unfold ret in H. now injection H as _ <- _.
      * unfold bind at 1 in H. unfold gets at 1 in H. eapply IH; exact H.
Qed.

Lemma GAC_scope_return : forall vars curr que ps w w' flag ps',
  GAC_scope curr vars que ps w = (w', Ok (Return (flag, ps'))) ->
  flag = false.
Proof.
  induction vars as [| var vars IH]; intros curr que ps w w' flag ps' H;
    simpl in H.
  - discriminate.
  - unfold bind at 1 in H. unfold gets at 1 in H. unfold bind at 1 in H.
    destruct (GAC_vals curr var (cur_domain var w) que ps w)
      as [w1 [[[que1 ps1] | [flag1 ps1]] | e]] eqn:EV; [| | discriminate].
    + eapply IH; exact H.
    + unfold ret in H. injection H as _ <- _.
      eapply GAC_vals_return; exact EV.
Qed.

Lemma GAC_loop_sound : forall fuel que ps w w' ps',
  gac_inv que w ->
  GAC_loop fuel que ps w = Some (w', Ok (true, ps')) ->
  gac_inv [] w'.
Proof.
  induction fuel as [| fuel IH]; intros que ps w w' ps' Hinv H.
  - destruct que; simpl in H; [| discriminate].
    injection H as <- _. exact Hinv.
  - destruct que as [| curr que]; simpl in H.
    + injection H as <- _. exact Hinv.
    + destruct (GAC_scope curr (get_scope curr) que ps w)
        as [w1 [[[que1 ps1] | [flag1 ps1]] | e]] eqn:ES; [| | discriminate].
      * destruct (GAC_scope_next _ _ _ _ _ _ _ _ (incl_refl _) ES)
          as (HF & Hi & HP & Hd).
        apply (IH que1 ps1 w1 w' ps'); [| exact H].
        assert (HP1 : gac_pending curr que1 w1).
        { apply HP. intros c Hc Hne. destruct (Hinv c Hc) as [[E | Hq] | Hok].
          - congruence.
          - now left.
          - now right. }
        intros c Hc.
        destruct (Constraint_eq_dec c curr) as [-> | Hne]; [| now apply HP1].
        destruct Hd as [(-> & -> & -> & Hall) | Hback].
        -- right. intros X v HX Hv. now apply Hall.
        -- left. apply Hback. now rewrite <- (frame_cons _ _ HF).
      * apply GAC_scope_return in ES. subst flag1. discriminate.
Qed.

(** A run of the loop from the listing of all constraints that ends in
    success ends in a fixed point. *)
Lemma GAC_rounds_sound : forall fuel w w' ps,
  prop_GAC_fuel fuel None w = Some (w', Ok (true, ps)) ->
  forall C X v,
    In C (get_all_cons w') ->
    In X (get_scope C) ->
    In v (cur_domain X w') ->
    has_support C X v w' = true.
Proof.
  intros fuel w w' ps H C X v HC HX Hv.
  unfold prop_GAC_fuel in H. simpl in H.
  assert (Hinv : gac_inv (get_all_cons w) w) by (intros c Hc; now left).
  destruct (GAC_loop_sound _ _ _ _ _ _ Hinv H C HC) as [[] | Hok].
  now apply Hok.
Qed.


(* ------------------------------------------------------------------ *)
(** ** The worklist of prop_GAC *)
(* ------------------------------------------------------------------ *)

(** Enqueuing appends, behind the worklist and once each, the offered
    constraints that are not in it. *)
Lemma enqueue_spec : forall cs que,
  exists new,
    enqueue que cs = que ++ new /\
    NoDup new /\
    forall d, In d new <-> In d cs /\ ~ In d que.
Proof.
  induction cs as [| con cs IH]; intros que; simpl.
  - exists []. rewrite app_nil_r. split; [reflexivity |].
    split; [constructor |]. intros d. simpl. tauto.
  - destruct (in_dec Constraint_eq_dec con que) as [Hin | Hn].
    + destruct (IH que) as (new & He & Hnd & Hiff).
      exists new. split; [exact He |]. split; [exact Hnd |].
      intros d. rewrite Hiff. split; [tauto |].
      intros [[<- | Hd] Hq]; tauto.
    + destruct (IH (que ++ [con])) as (new & He & Hnd & Hiff).
      exists (con :: new). split.
      * rewrite He, <- app_assoc. reflexivity.
      * split.
        -- constructor; [| exact Hnd]. intros Hc. apply Hiff in Hc as [_ Hc].
           apply Hc. apply in_or_app. right. now left.
        -- intros d. simpl. rewrite Hiff, in_app_iff. simpl.
           destruct (Constraint_eq_dec con d) as [-> | Hne]; tauto.
Qed.

Lemma enqueue_all_spec : forall w news que,
  exists new,
    enqueue_all w news que = que ++ new /\
    NoDup new /\
    forall d, In d new <->
              ~ In d que /\
              exists p, In p news /\ In d (get_cons_with_var (fst p) w).
Proof.
  intros w news. induction news as [| p news IH]; intros que; simpl.
  - exists []. rewrite app_nil_r. split; [reflexivity |].
    split; [constructor |]. intros d. simpl. split; [tauto |].
    intros [_ [q [[] _]]].
  - destruct (enqueue_spec (get_cons_with_var (fst p) w) que)
      as (n1 & He1 & Hnd1 & Hiff1).
    unfold enqueue_all in IH.
    destruct (IH (enqueue que (get_cons_with_var (fst p) w)))
      as (n2 & He2 & Hnd2 & Hiff2).
    exists (n1 ++ n2). split; [| split].
    + unfold enqueue_all. simpl. rewrite He2, He1, <- app_assoc. reflexivity.
    + apply NoDup_app; trivial. intros d Hd1 Hd2.
      apply Hiff2 in Hd2 as [Hd2 _]. apply Hd2. rewrite He1.
      apply in_or_app. now right.
    + intros d. rewrite in_app_iff, Hiff1, Hiff2, He1, in_app_iff, Hiff1.
      split.
      * intros [[Hd Hq] | [Hq [q [Hq1 Hq2]]]].
        -- split; [exact Hq |]. exists p. split; [now left | exact Hd].
        -- split; [tauto |]. exists q. split; [now right | exact Hq2].
      * intros [Hq [q [[<- | Hq1] Hq2]]]; [left; tauto |].
        destruct (in_dec Constraint_eq_dec d (get_cons_with_var (fst p) w))
          as [Hin | Hnin]; [left; tauto |].
        right. split; [tauto |]. exists q. tauto.
Qed.

Lemma frame_cons_with_var : forall w w' X,
  frame w w' -> get_cons_with_var X w' = get_cons_with_var X w.
Proof. intros w w' X (Hc & _). unfold get_cons_with_var. now rewrite Hc. Qed.

Lemma enqueue_all_frame : forall w w' news que,
  frame w w' -> enqueue_all w' news que = enqueue_all w news que.
Proof.
  intros w w' news que (Hc & _). unfold enqueue_all, get_cons_with_var.
  now rewrite Hc.
Qed.

Lemma GAC_vals_que : forall vals curr var que ps w w' que' ps',
  GAC_vals curr var vals que ps w = (w', Ok (Next (que', ps'))) ->
  exists news, ps' = ps ++ news /\ que' = enqueue_all w news que.
Proof.
  induction vals as [| val vals IH]; intros curr var que ps w w' que' ps' H;
    simpl in H.
  - unfold ret in H. injection H as _ <- <-. exists [].
    now rewrite app_nil_r.
  - unfold bind at 1 in H. unfold gets at 1 in H.
    destruct (has_support curr var val w); cbn [negb] in H.
    + eapply IH; exact H.
    + unfold bind at 1 in H.
      destruct (prune_value var val w) as [w1 [[] | e]] eqn:EP; [| discriminate].
      apply prune_value_ok in EP as (_ & _ & _ & HF).
      unfold bind at 1 in H. unfold gets at 1 in H.
      destruct (cur_domain var w1); [discriminate |].
      unfold bind at 1 in H. unfold gets at 1 in H.
      apply IH in H as (news & Hps & Hq).
      exists ((var, val) :: news). split.
      * rewrite Hps, <- app_assoc. reflexivity.
      * rewrite Hq, (enqueue_all_frame w w1 news _ HF).
        now rewrite (frame_cons_with_var w w1 var HF).
Qed.

Lemma enqueue_all_app : forall w n1 n2 que,
  enqueue_all w (n1 ++ n2) que = enqueue_all w n2 (enqueue_all w n1 que).
Proof. intros w n1 n2 que. unfold enqueue_all. apply fold_left_app. Qed.

Lemma GAC_scope_que : forall vars curr que ps w w' que' ps',
  GAC_scope curr vars que ps w = (w', Ok (Next (que', ps'))) ->
  exists news, ps' = ps ++ news /\ que' = enqueue_all w news que.
Proof.
  induction vars as [| var vars IH]; intros curr que ps w w' que' ps' H;
    simpl in H.
  - unfold ret in H. injection H as _ <- <-. exists [].
    now rewrite app_nil_r.
  - unfold bind at 1 in H. unfold gets at 1 in H. unfold bind at 1 in H.
    pose proof (GAC_vals_frame (cur_domain var w) curr var que ps w) as HF.
    destruct (GAC_vals curr var (cur_domain var w) que ps w)
      as [w1 [[[que1 ps1] | out] | e]] eqn:EV; [| | discriminate].
    2: { unfold ret in H. discriminate. }
    simpl in HF.
    apply GAC_vals_que in EV as (n1 & Hps1 & Hq1).
    apply IH in H as (n2 & Hps2 & Hq2).
    exists (n1 ++ n2). split.
    + rewrite Hps2, Hps1, <- app_assoc. reflexivity.
    + rewrite Hq2, Hq1, (enqueue_all_frame w w1 n2 _ HF).
      symmetry. apply enqueue_all_app.
Qed.

Lemma GAC_worklists_NoDup : forall fuel que ps w,
  NoDup que -> Forall (@NoDup Constraint) (GAC_worklists fuel que ps w).
Proof.
  induction fuel as [| fuel IH]; intros que ps w Hnd.
  - destruct que; simpl; constructor; trivial.
  - destruct que as [| curr rest]; simpl.
    + constructor; trivial.
    + constructor; [exact Hnd |].
      destruct (GAC_scope curr (get_scope curr) rest ps w)
        as [w1 [[[que1 ps1] | out] | e]] eqn:ES; try constructor.
      apply IH.
      apply GAC_scope_que in ES as (news & _ & Hq).
      destruct (enqueue_all_spec w news rest) as (new & He & Hn & Hiff).
      rewrite Hq, He. apply NoDup_app; trivial.
      * now inversion Hnd.
      * intros d Hd Hd'. apply Hiff in Hd'. tauto.
Qed.

(* ------------------------------------------------------------------ *)
(** ** The names of the binary grid model *)
(* ------------------------------------------------------------------ *)

Lemma append_at_mid : forall (pre : list (list Var)) row post v,
  append_at (pre ++ row :: post) (List.length pre) v =
  Some (pre ++ (row ++ [v]) :: post).
Proof.
  induction pre as [| r pre IH]; intros row post v; simpl.
  - reflexivity.
  - now rewrite IH.
Qed.

(** One row of init_board: the loop over j appends the fresh variables to
    row i and leaves the constraints alone. *)
Lemma init_board_row : forall n i dom js pre row post w,
  List.length pre = i ->
  exists w',
    foldM (fun var_array j =>
             v <- new_Variable (str (n - i) ++ str (j + 1)) dom ;;
             match append_at var_array i v with
             | Some var_array' => add_var v ;;; ret var_array'
             | None => raise IndexError
             end) js (pre ++ row :: post) w =
    (w', Ok (pre ++ (row ++ seq (w_nvar w) (List.length js)) :: post)) /\
    w_nvar w' = w_nvar w + List.length js /\
    get_all_cons w' = get_all_cons w /\
    w_ncon w' = w_ncon w.
Proof.
  intros n i dom js.
  set (body := fun (var_array : list (list Var)) (j : nat) =>
                 v <- new_Variable (str (n - i) ++ str (j + 1)) dom ;;
                 match append_at var_array i v with
                 | Some var_array' => add_var v ;;; ret var_array'
                 | None => raise IndexError
                 end).
  induction js as [| j js IH]; intros pre row post w Hlen.
  - exists w. simpl. rewrite app_nil_r, Nat.add_0_r. repeat split.
  - assert (Hstep : exists w1,
               body (pre ++ row :: post) j w =
                 (w1, Ok (pre ++ (row ++ [w_nvar w]) :: post)) /\
               w_nvar w1 = S (w_nvar w) /\
               get_all_cons w1 = get_all_cons w /\
               w_ncon w1 = w_ncon w).
    { unfold body, bind, new_Variable. cbn beta iota.
      rewrite <- Hlen, append_at_mid. unfold add_var, ret. cbn beta iota.
      eexists. split; [reflexivity |]. repeat split. }
    destruct Hstep as (w1 & Hstep & Hn1 & Hc1 & Hm1).
    destruct (IH pre (row ++ [w_nvar w]) post w1 Hlen)
      as (w' & Hrun & Hnv & Hc & Hnc).
    exists w'. split; [| split; [| split]].
    + cbn [foldM]. unfold bind at 1. rewrite Hstep, Hrun, Hn1.
      cbn [List.length seq]. rewrite <- app_assoc. reflexivity.
    + rewrite Hnv, Hn1. simpl. lia.
    + now rewrite Hc.
    + now rewrite Hnc.
Qed.

Lemma range_0 : forall n, range 0 n = seq 0 n.
Proof. intros n. unfold range. now rewrite Nat.sub_0_r. Qed.

Lemma init_board_rows : forall n dom k done w,
  exists w',
    foldM (fun var_array i =>
             foldM (fun var_array j =>
                      v <- new_Variable (str (n - i) ++ str (j + 1)) dom ;;
                      match append_at var_array i v with
                      | Some var_array' => add_var v ;;; ret var_array'
                      | None => raise IndexError
                      end) (range 0 n) var_array)
          (seq (List.length done) k) (done ++ repeat [] k) w =
    (w', Ok (done ++ map (fun r => seq (w_nvar w + (r - List.length done) * n) n)
                         (seq (List.length done) k))) /\
    get_all_cons w' = get_all_cons w /\
    w_ncon w' = w_ncon w.
Proof.
  intros n dom k. induction k as [| k IH]; intros done w.
  - exists w. simpl. repeat split.
  - destruct (init_board_row n (List.length done) dom (range 0 n)
                             done [] (repeat [] k) w eq_refl)
      as (w1 & Hrow & Hn1 & Hc1 & Hm1).
    rewrite range_0, length_seq in Hrow, Hn1. simpl app in Hrow.
    destruct (IH (done ++ [seq (w_nvar w) n]) w1) as (w' & Hrun & Hc & Hm).
    rewrite length_app in Hrun. simpl List.length in Hrun.
    rewrite Nat.add_1_r, <- app_assoc in Hrun. simpl app in Hrun.
    exists w'. split; [| split; congruence].
    cbn [seq repeat foldM]. unfold bind at 1.
    rewrite range_0 in *. rewrite Hrow, Hrun.
    f_equal. f_equal. rewrite <- app_assoc. f_equal. cbn [map app].
    rewrite Nat.sub_diag. simpl. rewrite Nat.add_0_r. f_equal.
    apply map_ext_in. intros r Hr. apply in_seq in Hr. f_equal.
    rewrite Hn1. replace (r - List.length done) with (S (r - S (List.length done)))
      by lia.
    simpl. lia.
Qed.

(** init_board returns the board of the fresh variables, row by row, and
    adds no constraint. *)
Lemma init_board_spec : forall n w,
  exists w',
    init_board n w = (w', Ok (board_of (w_nvar w) n)) /\
    get_all_cons w' = get_all_cons w.
Proof.
  intros n w. unfold init_board.
  destruct (init_board_rows n (map Z.of_nat (range 1 (n + 1))) n [] w)
    as (w' & Hrun & Hc & _).
  exists w'. split; [| exact Hc].
  simpl in Hrun. rewrite range_0 in Hrun |- *. rewrite Hrun. f_equal. f_equal.
  unfold board_of. apply map_ext. intros r. now rewrite Nat.sub_0_r.
Qed.

Lemma board_of_at : forall base n x y,
  x < n -> y < n -> board_at (board_of base n) x y = Some (base + x * n + y).
Proof.
  intros base n x y Hx Hy. unfold board_at, board_of.
  rewrite nth_error_map, nth_error_seq by lia.
  destruct (Nat.ltb x n) eqn:E; [| apply Nat.ltb_ge in E; lia].
  simpl. rewrite nth_error_seq.
  destruct (Nat.ltb y n) eqn:E'; [| apply Nat.ltb_ge in E'; lia].
  reflexivity.
Qed.

Lemma emits_seq : forall m1 m2 S1 S2,
  emits m1 S1 -> emits m2 S2 ->
  emits (m1 ;;; m2) (fun nm sc => S1 nm sc \/ S2 nm sc).
Proof.
  intros m1 m2 S1 S2 H1 H2 w.
  destruct (H1 w) as (w1 & Hr1 & Hk1 & He1).
  destruct (H2 w1) as (w2 & Hr2 & Hk2 & He2).
  exists w2. unfold bind. rewrite Hr1. split; [exact Hr2 |]. split.
  - intros c Hc. now apply Hk2, Hk1.
  - intros nm sc [HS | HS].
    + destruct (He1 nm sc HS) as (c & Hc & Hn & Hs).
      exists c. split; [now apply Hk2 | split; assumption].
    + now apply He2.
Qed.

Lemma emits_forM : forall (A : Type) (l : list A) body (S : A -> string -> list Var -> Prop),
  (forall a, In a l -> emits (body a) (S a)) ->
  emits (forM l body) (fun nm sc => exists a, In a l /\ S a nm sc).
Proof.
  intros A l body S. induction l as [| a l IH]; intros Hbody.
  - intros w. exists w. simpl. split; [reflexivity |]. split; [tauto |].
    intros nm sc [a [[] _]].
  - assert (H1 : emits (body a) (S a)) by (apply Hbody; now left).
    assert (H2 : emits (forM l body) (fun nm sc => exists a, In a l /\ S a nm sc))
      by (apply IH; intros b Hb; apply Hbody; now right).
    pose proof (emits_seq _ _ _ _ H1 H2) as H. intros w.
    destruct (H w) as (w' & Hr & Hk & He).
    exists w'. split; [exact Hr |]. split; [exact Hk |].
    intros nm sc [b [[<- | Hb] HS]]; apply He; [now left |].
    right. exists b. tauto.
Qed.

Lemma board_row : forall base n x,
  x < n -> nth_error (board_of base n) x = Some (seq (base + x * n) n).
Proof.
  intros base n x Hx. unfold board_of.
  rewrite nth_error_map, nth_error_seq.
  destruct (Nat.ltb x n) eqn:E; [reflexivity | apply Nat.ltb_ge in E; lia].
Qed.

Lemma seq_at : forall a n y, y < n -> nth_error (seq a n) y = Some (a + y).
Proof.
  intros a n y Hy. rewrite nth_error_seq.
  destruct (Nat.ltb y n) eqn:E; [reflexivity | apply Nat.ltb_ge in E; lia].
Qed.

(** One constraint of _expand: both subscripts are in range on the board of
    init_board, and the constraint built joins the CSP. *)
Lemma expand_step : forall base n x1 y1 x2 y2 nm sat,
  x1 < n -> y1 < n -> x2 < n -> y2 < n ->
  emits (rx <- subscript (board_of base n) x1 ;; bxy <- subscript rx y1 ;;
         ri <- subscript (board_of base n) x2 ;; biy <- subscript ri y2 ;;
         con <- new_Constraint nm [bxy; biy] ;;
         add_constraint (add_satisfying_tuples con sat))
        (fun nm' sc => nm' = nm /\
                       sc = [base + x1 * n + y1; base + x2 * n + y2]).
Proof.
  intros base n x1 y1 x2 y2 nm sat H1 H2 H3 H4 w.
  unfold bind, subscript.
  rewrite (board_row base n x1 H1). unfold ret at 1.
  rewrite (seq_at _ n y1 H2). unfold ret at 1.
  rewrite (board_row base n x2 H3). unfold ret at 1.
  rewrite (seq_at _ n y2 H4). unfold ret at 1.
  unfold new_Constraint, add_constraint. eexists. split; [reflexivity |].
  unfold get_all_cons. simpl. split.
  - intros c Hc. apply in_or_app. now left.
  - intros nm' sc [-> ->]. eexists. split.
    + apply in_or_app. right. left. reflexivity.
    + split; reflexivity.
Qed.

Lemma range_In : forall a b i, In i (range a b) <-> a <= i < b.
Proof. intros a b i. unfold range. rewrite in_seq. lia. Qed.

Lemma expand_emits : forall base n x y sat,
  x < n -> y < n ->
  emits (_expand x y (board_of base n) n sat)
        (fun nm sc =>
           (exists i, x < i < n /\
                      nm = (str x ++ str y ++ str i ++ str y)%string /\
                      sc = [base + x * n + y; base + i * n + y]) \/
           (exists i, y < i < n /\
                      nm = (str x ++ str y ++ str i ++ str y)%string /\
                      sc = [base + x * n + y; base + x * n + i])).
Proof.
  intros base n x y sat Hx Hy. unfold _expand.
  assert (Hcol : forall i, In i (range (x + 1) n) ->
            emits (rx <- subscript (board_of base n) x ;; bxy <- subscript rx y ;;
                   ri <- subscript (board_of base n) i ;; biy <- subscript ri y ;;
                   con <- new_Constraint (str x ++ str y ++ str i ++ str y)
                                         [bxy; biy] ;;
                   add_constraint (add_satisfying_tuples con sat))
                  (fun nm sc => nm = (str x ++ str y ++ str i ++ str y)%string /\
                                sc = [base + x * n + y; base + i * n + y])).
  { intros i Hi. apply range_In in Hi. apply expand_step; lia. }
  assert (Hrow : forall i, In i (range (y + 1) n) ->
            emits (rx <- subscript (board_of base n) x ;; bxy <- subscript rx y ;;
                   rx' <- subscript (board_of base n) x ;; bxi <- subscript rx' i ;;
                   con <- new_Constraint (str x ++ str y ++ str i ++ str y)
                                         [bxy; bxi] ;;
                   add_constraint (add_satisfying_tuples con sat))
                  (fun nm sc => nm = (str x ++ str y ++ str i ++ str y)%string /\
                                sc = [base + x * n + y; base + x * n + i])).
  { intros i Hi. apply range_In in Hi. apply expand_step; lia. }
  pose proof (emits_seq _ _ _ _
                (emits_forM nat _ _ _ Hcol) (emits_forM nat _ _ _ Hrow)) as H.
  intros w. destruct (H w) as (w' & Hr & Hk & He).
  exists w'. split; [exact Hr |]. split; [exact Hk |].
  intros nm sc [(i & Hi & Hn & Hs) | (i & Hi & Hn & Hs)]; apply He.
  - left. exists i. split; [apply range_In; lia | tauto].
  - right. exists i. split; [apply range_In; lia | tauto].
Qed.

Lemma generator_emits : forall base n sat,
  emits (binary_constraint_generator n (board_of base n) sat)
        (fun nm sc =>
           exists x y i, x < n /\ y < n /\ i < n /\
             nm = (str x ++ str y ++ str i ++ str y)%string /\
             ((x < i /\ sc = [base + x * n + y; base + i * n + y]) \/
              (y < i /\ sc = [base + x * n + y; base + x * n + i]))).
Proof.
  intros base n sat. unfold binary_constraint_generator.
  assert (Hin : forall x, In x (range 0 n) ->
            emits (forM (range 0 n)
                        (fun j => _expand x j (board_of base n) n sat))
                  (fun nm sc => exists y, In y (range 0 n) /\
                     ((exists i, x < i < n /\
                         nm = (str x ++ str y ++ str i ++ str y)%string /\
                         sc = [base + x * n + y; base + i * n + y]) \/
                      (exists i, y < i < n /\
                         nm = (str x ++ str y ++ str i ++ str y)%string /\
                         sc = [base + x * n + y; base + x * n + i])))).
  { intros x Hx. apply range_In in Hx.
    apply (emits_forM nat (range 0 n)
             (fun j => _expand x j (board_of base n) n sat)
             (fun y nm sc =>
                (exists i, x < i < n /\
                   nm = (str x ++ str y ++ str i ++ str y)%string /\
                   sc = [base + x * n + y; base + i * n + y]) \/
                (exists i, y < i < n /\
                   nm = (str x ++ str y ++ str i ++ str y)%string /\
                   sc = [base + x * n + y; base + x * n + i]))).
    intros y Hy. apply range_In in Hy. apply expand_emits; lia. }
  pose proof (emits_forM nat _ _ _ Hin) as H.
  intros w. destruct (H w) as (w' & Hr & Hk & He).
  exists w'. split; [exact Hr |]. split; [exact Hk |].
  intros nm sc (x & y & i & Hx & Hy & Hi & Hn & Hs). apply He.
  exists x. split; [apply range_In; lia |].
  exists y. split; [apply range_In; lia |].
  destruct Hs as [[Hlt Hs] | [Hlt Hs]]; [left | right]; exists i;
    (split; [lia | split; assumption]).
Qed.

Lemma same_name_no_NoDup : forall (l : list Constraint) c1 c2,
  In c1 l -> In c2 l -> c1 <> c2 -> c_name c1 = c_name c2 ->
  ~ NoDup (map c_name l).
Proof.
  induction l as [| a l IH]; intros c1 c2 H1 H2 Hne Hnm Hnd; [destruct H1 |].
  simpl in Hnd. inversion Hnd as [| ? ? Hnotin Hnd']; subst.
  destruct H1 as [<- | H1]; destruct H2 as [<- | H2].
  - now apply Hne.
  - apply Hnotin. rewrite Hnm. now apply in_map.
  - apply Hnotin. rewrite <- Hnm. now apply in_map.
  - now apply (IH c1 c2).
Qed.

(** C9. On a grid whose size n is at least 2, warehouse_binary_ne_grid
    returns, and for a cell (x, y) and an index i above both, the CSP holds
    a constraint over board[x][y] and board[i][y] and another over
    board[x][y] and board[x][i], both named str(x)+str(y)+str(i)+str(y): the
    names of the constraints of the CSP are not unique. *)
Theorem binary_grid_names : forall n r0 rest w,
  2 <= n ->
  exists w',
    warehouse_binary_ne_grid ((n :: r0) :: rest) w =
      (w', Ok (board_of (w_nvar w) n)) /\
    (forall x y i, x < i -> y < i -> i < n ->
       exists bxy biy bxi c1 c2,
         board_at (board_of (w_nvar w) n) x y = Some bxy /\
         board_at (board_of (w_nvar w) n) i y = Some biy /\
         board_at (board_of (w_nvar w) n) x i = Some bxi /\
         In c1 (get_all_cons w') /\ In c2 (get_all_cons w') /\
         c1 <> c2 /\
         c_scope c1 = [bxy; biy] /\ c_scope c2 = [bxy; bxi] /\
         c_name c1 = (str x ++ str y ++ str i ++ str y)%string /\
         c_name c2 = (str x ++ str y ++ str i ++ str y)%string) /\
    ~ NoDup (map c_name (get_all_cons w')).
Proof.
  intros n r0 rest w Hn. unfold warehouse_binary_ne_grid.
  unfold bind at 1. unfold new_CSP at 1. cbn beta iota.
  unfold bind at 1. unfold subscript at 1. cbn [nth_error]. unfold ret at 1.
  unfold bind at 1. unfold subscript at 1. cbn [nth_error]. unfold ret at 1.
  unfold bind at 1.
  match goal with
  | |- context [init_board n ?w0] =>
      destruct (init_board_spec n w0) as (w1 & Hib & Hc1)
  end.
  rewrite Hib. cbn [w_nvar] in *.
  destruct (generator_emits (w_nvar w) n (ne_tuples n) w1) as (w2 & Hgen & _ & He).
  unfold bind at 1. rewrite Hgen.
  exists w2. split; [reflexivity |].
  assert (Hpair : forall x y i, x < i -> y < i -> i < n ->
    exists bxy biy bxi c1 c2,
      board_at (board_of (w_nvar w) n) x y = Some bxy /\
      board_at (board_of (w_nvar w) n) i y = Some biy /\
      board_at (board_of (w_nvar w) n) x i = Some bxi /\
      In c1 (get_all_cons w2) /\ In c2 (get_all_cons w2) /\
      c1 <> c2 /\
      c_scope c1 = [bxy; biy] /\ c_scope c2 = [bxy; bxi] /\
      c_name c1 = (str x ++ str y ++ str i ++ str y)%string /\
      c_name c2 = (str x ++ str y ++ str i ++ str y)%string).
  { intros x y i Hx Hy Hi.
    destruct (He (str x ++ str y ++ str i ++ str y)%string
                 [w_nvar w + x * n + y; w_nvar w + i * n + y])
      as (c1 & Hin1 & Hnm1 & Hsc1).
    { exists x, y, i. repeat split; try lia. left. split; [lia | reflexivity]. }
    destruct (He (str x ++ str y ++ str i ++ str y)%string
                 [w_nvar w + x * n + y; w_nvar w + x * n + i])
      as (c2 & Hin2 & Hnm2 & Hsc2).
    { exists x, y, i. repeat split; try lia. right. split; [lia | reflexivity]. }
    exists (w_nvar w + x * n + y), (w_nvar w + i * n + y),
           (w_nvar w + x * n + i), c1, c2.
    rewrite !board_of_at by lia.
    repeat split; trivial.
    intros E. rewrite E, Hsc2 in Hsc1. injection Hsc1 as Hsc1. nia. }
  split; [exact Hpair |].
  destruct (Hpair 0 0 1) as (bxy & biy & bxi & c1 & c2 & _ & _ & _ &
                             H1 & H2 & Hne & _ & _ & Hn1 & Hn2); try lia.
  apply (same_name_no_NoDup _ c1 c2 H1 H2 Hne). congruence.
Qed.

Lemma binary_grid_names_witness :
  exists w',
    warehouse_binary_ne_grid [[2]] chain_world = (w', Ok (board_of 3 2)) /\
    ~ NoDup (map c_name (get_all_cons w')).
Proof.
  destruct (binary_grid_names 2 [] [] chain_world (le_n 2)) as (w' & Hr & _ & Hn).
  exists w'. split; [exact Hr | exact Hn].
Defined.

(* ------------------------------------------------------------------ *)
(** ** prop_GAC comes back *)
(* ------------------------------------------------------------------ *)

Lemma dom_size_le : forall vs w w',
  (forall X, List.length (cur_domain X w') <= List.length (cur_domain X w)) ->
  dom_size vs w' <= dom_size vs w.
Proof.
  intros vs w w' H. unfold dom_size.
  induction vs as [| X vs IH]; simpl; [lia |]. specialize (H X). lia.
Qed.

Lemma dom_size_lt : forall vs w w' Y,
  (forall X, List.length (cur_domain X w') <= List.length (cur_domain X w)) ->
  In Y vs ->
  List.length (cur_domain Y w') < List.length (cur_domain Y w) ->
  dom_size vs w' < dom_size vs w.
Proof.
  intros vs w w' Y H. induction vs as [| X vs IH]; intros HY Hlt; [destruct HY |].
  pose proof (dom_size_le vs w w' H) as Hle. unfold dom_size in *. simpl.
  destruct HY as [-> | HY].
  - lia.
  - specialize (IH HY Hlt). specialize (H X). lia.
Qed.

Lemma prune_value_size : forall vs X v w w',
  prune_value X v w = (w', Ok tt) -> In X vs ->
  S (dom_size vs w') <= dom_size vs w.
Proof.
  intros vs X v w w' H HX.
  apply prune_value_ok in H as (Hv & Hd & Hother & _).
  apply (dom_size_lt vs w w' X); trivial.
  - intros Y. destruct (Nat.eq_dec Y X) as [-> | Hne].
    + rewrite Hd. apply remove_length_le.
    + unfold cur_domain. now rewrite (Hother Y Hne).
  - rewrite Hd. now apply remove_length_lt.
Qed.

Lemma GAC_vals_measure : forall vs vals curr var que ps w w' que' ps',
  In var vs ->
  GAC_vals curr var vals que ps w = (w', Ok (Next (que', ps'))) ->
  dom_size vs w' + List.length ps' <= dom_size vs w + List.length ps.
Proof.
  intros vs. induction vals as [| val vals IH];
    intros curr var que ps w w' que' ps' Hvar H; simpl in H.
  - unfold ret in H. injection H as <- _ <-. lia.
  - unfold bind at 1 in H. unfold gets at 1 in H.
    destruct (has_support curr var val w); cbn [negb] in H.
    + eapply IH; eassumption.
    + unfold bind at 1 in H.
      destruct (prune_value var val w) as [w1 [[] | e]] eqn:EP; [| discriminate].
      apply (prune_value_size vs) in EP; [| exact Hvar].
      unfold bind at 1 in H. unfold gets at 1 in H.
      destruct (cur_domain var w1); [discriminate |].
      unfold bind at 1 in H. unfold gets at 1 in H.
      apply (IH _ _ _ _ _ _ _ _ Hvar) in H.
      rewrite length_app in H. simpl in H. lia.
Qed.

Lemma GAC_scope_measure : forall vs vars curr que ps w w' que' ps',
  incl vars vs ->
  GAC_scope curr vars que ps w = (w', Ok (Next (que', ps'))) ->
  dom_size vs w' + List.length ps' <= dom_size vs w + List.length ps.
Proof.
  intros vs. induction vars as [| var vars IH];
    intros curr que ps w w' que' ps' Hvars H; simpl in H.
  - unfold ret in H. injection H as <- _ <-. lia.
  - unfold bind at 1 in H. unfold gets at 1 in H. unfold bind at 1 in H.
    destruct (GAC_vals curr var (cur_domain var w) que ps w)
      as [w1 [[[que1 ps1] | out] | e]] eqn:EV; [| | discriminate].
    2: { unfold ret in H. discriminate. }
    apply (GAC_vals_measure vs) in EV; [| apply Hvars; now left].
    apply (IH _ _ _ _ _ _ _) in H; [| intros Y HY; apply Hvars; now right].
    lia.
Qed.

(** With the rounds of the bound, the loop comes to an end. *)
Lemma GAC_loop_enough : forall fuel que ps w,
  incl que (get_all_cons w) ->
  List.length que
  + dom_size (scope_vars w) w * S (List.length (get_all_cons w)) <= fuel ->
  GAC_loop fuel que ps w <> None.
Proof.
  induction fuel as [| fuel IH]; intros que ps w Hincl Hfuel.
  - destruct que; simpl in *; [discriminate | lia].
  - destruct que as [| curr rest]; simpl; [discriminate |].
    destruct (GAC_scope curr (get_scope curr) rest ps w)
      as [w1 [[[que1 ps1] | out] | e]] eqn:ES; try discriminate.
    assert (Hcurr : In curr (get_all_cons w)) by (apply Hincl; now left).
    assert (Hsc : incl (get_scope curr) (scope_vars w)).
    { intros Y HY. unfold scope_vars. apply in_flat_map. exists curr. tauto. }
    pose proof (GAC_scope_measure (scope_vars w) _ _ _ _ _ _ _ _ Hsc ES) as Hm.
    pose proof (GAC_scope_frame (get_scope curr) curr rest ps w) as HF.
    rewrite ES in HF. simpl in HF.
    pose proof (frame_cons _ _ HF) as Hc.
    apply GAC_scope_que in ES as (news & Hps & Hq).
    destruct (enqueue_all_spec w news rest) as (new & He & Hnd & Hiff).
    assert (Hnew : incl new (get_all_cons w)).
    { intros d Hd. apply Hiff in Hd as (_ & p & _ & Hd).
      now apply cons_with_var_In in Hd. }
    assert (Hlen : List.length new <= List.length (get_all_cons w))
      by (apply NoDup_incl_length; assumption).
    assert (Hsv : scope_vars w1 = scope_vars w) by (unfold scope_vars; now rewrite Hc).
    apply IH.
    + rewrite Hc, Hq, He. intros d Hd. apply in_app_or in Hd as [Hd | Hd].
      * apply Hincl. now right.
      * now apply Hnew.
    + rewrite Hsv, Hc, Hq, He, length_app.
      subst ps1. rewrite length_app in Hm. simpl in Hfuel.
      destruct news as [| p news].
      * assert (new = []) as ->.
        { destruct new as [| d new]; [reflexivity |].
          exfalso. destruct (proj1 (Hiff d) (or_introl eq_refl))
            as (_ & q & [] & _). }
        simpl. simpl in Hm.
        assert (dom_size (scope_vars w) w1 <= dom_size (scope_vars w) w) by lia.
        nia.
      * simpl in Hm.
        assert (S (dom_size (scope_vars w) w1) <= dom_size (scope_vars w) w) by lia.
        nia.
Qed.

(** More rounds than needed change nothing. *)
Lemma GAC_loop_more : forall fuel fuel' que ps w r,
  GAC_loop fuel que ps w = Some r -> fuel <= fuel' ->
  GAC_loop fuel' que ps w = Some r.
Proof.
  induction fuel as [| fuel IH]; intros fuel' que ps w r H Hle.
  - destruct que; simpl in H; [| discriminate].
    destruct fuel'; exact H.
  - destruct fuel' as [| fuel']; [lia |].
    destruct que as [| curr rest]; simpl in *; [exact H |].
    destruct (GAC_scope curr (get_scope curr) rest ps w)
      as [w1 [[[que1 ps1] | out] | e]]; trivial.
    apply (IH fuel'); [exact H | lia].
Qed.

Lemma GAC_init_incl : forall newVar w, incl (GAC_init newVar w) (get_all_cons w).
Proof.
  intros [V |] w c Hc; simpl in Hc; [| exact Hc].
  now apply cons_with_var_In in Hc.
Qed.

(** prop_GAC is total: it returns or raises, and it is the run of the loop
    with any number of rounds that lets the loop end. *)
Lemma prop_GAC_total : forall newVar w,
  prop_GAC_fuel (GAC_fuel newVar w) newVar w = Some (prop_GAC newVar w).
Proof.
  intros newVar w. unfold prop_GAC.
  destruct (prop_GAC_fuel (GAC_fuel newVar w) newVar w) as [r |] eqn:E;
    [reflexivity |].
  exfalso. revert E. unfold prop_GAC_fuel.
  apply GAC_loop_enough; [apply GAC_init_incl | unfold GAC_fuel; lia].
Qed.

Lemma prop_GAC_fuel_agrees : forall fuel newVar w r,
  prop_GAC_fuel fuel newVar w = Some r -> r = prop_GAC newVar w.
Proof.
  intros fuel newVar w r H. pose proof (prop_GAC_total newVar w) as HT.
  unfold prop_GAC_fuel in *.
  destruct (Nat.le_ge_cases fuel (GAC_fuel newVar w)) as [Hle | Hge].
  - rewrite (GAC_loop_more _ _ _ _ _ _ H Hle) in HT. congruence.
  - rewrite (GAC_loop_more _ _ _ _ _ _ HT Hge) in H. congruence.
Qed.

(* ------------------------------------------------------------------ *)
(** ** The worklist of prop_GAC is a queue *)
(* ------------------------------------------------------------------ *)

Lemma subseq_filter : forall (A : Type) (p : A -> bool) l,
  subseq (filter p l) l.
Proof.
  intros A p l. induction l as [| x l IH]; simpl; [constructor |].
  destruct (p x); [now apply subseq_take | now apply subseq_skip].
Qed.

Lemma subseq_trans : forall (A : Type) (l1 l2 l3 : list A),
  subseq l1 l2 -> subseq l2 l3 -> subseq l1 l3.
Proof.
  intros A l1 l2 l3 H12 H23. revert l1 H12.
  induction H23 as [l | x l2 l3 H IH | x l2 l3 H IH]; intros l1 H12.
  - inversion H12. constructor.
  - apply subseq_skip. now apply IH.
  - inversion H12 as [| y k1 k2 Hk | y k1 k2 Hk]; subst.
    + constructor.
    + apply subseq_skip. now apply IH.
    + apply subseq_take. now apply IH.
Qed.

(** Enqueuing appends, behind the worklist, once each and in the order
    they are offered, the offered constraints that are not in it. *)
Lemma enqueue_subseq : forall cs que,
  exists new,
    enqueue que cs = que ++ new /\
    NoDup new /\
    (forall d, In d new <-> In d cs /\ ~ In d que) /\
    subseq new cs.
Proof.
  induction cs as [| con cs IH]; intros que; simpl.
  - exists []. rewrite app_nil_r. split; [reflexivity |].
    split; [constructor |]. split; [| constructor]. intros d. simpl. tauto.
  - destruct (in_dec Constraint_eq_dec con que) as [Hin | Hn].
    + destruct (IH que) as (new & He & Hnd & Hiff & Hsub).
      exists new. split; [exact He |]. split; [exact Hnd |].
      split; [| now apply subseq_skip].
      intros d. rewrite Hiff. split; [tauto |].
      intros [[<- | Hd] Hq]; tauto.
    + destruct (IH (que ++ [con])) as (new & He & Hnd & Hiff & Hsub).
      exists (con :: new). split; [| split; [| split]].
      * rewrite He, <- app_assoc. reflexivity.
      * constructor; [| exact Hnd]. intros Hc. apply Hiff in Hc as [_ Hc].
        apply Hc. apply in_or_app. right. now left.
      * intros d. simpl. rewrite Hiff, in_app_iff. simpl.
        destruct (Constraint_eq_dec con d) as [-> | Hne]; tauto.
      * now apply subseq_take.
Qed.

Lemma enqueue_joins : forall w X que,
  exists new,
    enqueue que (get_cons_with_var X w) = que ++ new /\ joins w X que new.
Proof.
  intros w X que.
  destruct (enqueue_subseq (get_cons_with_var X w) que)
    as (new & He & Hnd & Hiff & Hsub).
  exists new. split; [exact He |]. split; [exact Hnd |]. split.
  - intros d. rewrite Hiff, cons_with_var_In. tauto.
  - eapply subseq_trans; [exact Hsub |]. apply subseq_filter.
Qed.

Lemma joins_NoDup : forall w X que new,
  joins w X que new -> NoDup que -> NoDup (que ++ new).
Proof.
  intros w X que new (Hnd & Hiff & _) Hq. apply NoDup_app; trivial.
  intros d Hd Hd'. apply Hiff in Hd'. tauto.
Qed.

Lemma GAC_vals_round : forall vals curr var que ps w w' r,
  GAC_vals curr var vals que ps w = (w', r) ->
  exists news tr que' o,
    vals_round curr var vals que w news tr que' w' o /\
    round_result ps news que' o r /\
    (NoDup que -> Forall (@NoDup Constraint) tr /\ NoDup que').
Proof.
  induction vals as [| val vals IH]; intros curr var que ps w w' r H;
    simpl in H.
  - unfold ret in H. injection H as <- <-.
    exists [], [], que, Goes. split; [constructor |]. split.
    + simpl. now rewrite app_nil_r.
    + intros Hq. split; [constructor | exact Hq].
  - unfold bind at 1 in H. unfold gets at 1 in H.
    destruct (has_support curr var val w) eqn:ES; cbn [negb] in H.
    + destruct (IH curr var que ps w w' r H)
        as (news & tr & que' & o & Hr & Hres & Hnd).
      exists news, tr, que', o. split; [| split; assumption].
      eapply vals_keep; [exact ES | exact Hr].
    + unfold bind at 1 in H.
      destruct (prune_value var val w) as [w1 [[] | e]] eqn:EP.
      * unfold bind at 1 in H. unfold gets at 1 in H.
        destruct (cur_domain var w1) as [| d0 dom] eqn:ED.
        -- unfold ret in H. injection H as <- <-.
           exists [(var, val)], [], que, Wiped. split; [| split].
           ++ eapply vals_wiped; [exact ES | exact EP | exact ED].
           ++ reflexivity.
           ++ intros Hq. split; [constructor | exact Hq].
        -- unfold bind at 1 in H. unfold gets at 1 in H.
           destruct (enqueue_joins w1 var que) as (new & He & Hj).
           rewrite He in H.
           destruct (IH curr var (que ++ new) (ps ++ [(var, val)]) w1 w' r H)
             as (news & tr & que' & o & Hr & Hres & Hnd).
           exists ((var, val) :: news), ((que ++ new) :: tr), que', o.
           split; [| split].
           ++ eapply vals_prune; [exact ES | exact EP | | exact Hj | exact Hr].
              rewrite ED. discriminate.
           ++ destruct o; simpl in Hres |- *; rewrite Hres;
                try rewrite <- app_assoc; reflexivity.
           ++ intros Hq. pose proof (joins_NoDup _ _ _ _ Hj Hq) as Hq1.
              destruct (Hnd Hq1) as [Ht Hq']. split; [| exact Hq'].
              constructor; assumption.
      * injection H as <- <-.
        exists [], [], que, (Raised e). split; [| split].
        -- eapply vals_raised; [exact ES | exact EP].
        -- reflexivity.
        -- intros Hq. split; [constructor | exact Hq].
Qed.

Lemma GAC_scope_round : forall vars curr que ps w w' r,
  GAC_scope curr vars que ps w = (w', r) ->
  exists news tr que' o,
    scope_round curr vars que w news tr que' w' o /\
    round_result ps news que' o r /\
    (NoDup que -> Forall (@NoDup Constraint) tr /\ NoDup que').
Proof.
  induction vars as [| var vars IH]; intros curr que ps w w' r H; simpl in H.
  - unfold ret in H. injection H as <- <-.
    exists [], [], que, Goes. split; [constructor |]. split.
    + simpl. now rewrite app_nil_r.
    + intros Hq. split; [constructor | exact Hq].
  - unfold bind at 1 in H. unfold gets at 1 in H. unfold bind at 1 in H.
    destruct (GAC_vals curr var (cur_domain var w) que ps w) as [w1 r1] eqn:EV.
    destruct (GAC_vals_round _ _ _ _ _ _ _ _ EV)
      as (n1 & t1 & que1 & o1 & Hr1 & Hres1 & Hnd1).
    destruct o1 as [| | e]; simpl in Hres1; subst r1.
    + destruct (IH curr que1 (ps ++ n1) w1 w' r H)
        as (n2 & t2 & que' & o & Hr2 & Hres2 & Hnd2).
      exists (n1 ++ n2), (t1 ++ t2), que', o. split; [| split].
      * eapply scope_next; [exact Hr1 | exact Hr2].
      * destruct o; simpl in Hres2 |- *; rewrite Hres2;
          try rewrite <- app_assoc; reflexivity.
      * intros Hq. destruct (Hnd1 Hq) as [Ht1 Hq1].
        destruct (Hnd2 Hq1) as [Ht2 Hq2]. split; [| exact Hq2].
        apply Forall_app. now split.
    + unfold ret in H. injection H as <- <-.
      exists n1, t1, que1, Wiped. split; [| split].
      * eapply scope_stop; [exact Hr1 | discriminate].
      * reflexivity.
      * exact Hnd1.
    + injection H as <- <-.
      exists n1, t1, que1, (Raised e). split; [| split].
      * eapply scope_stop; [exact Hr1 | discriminate].
      * reflexivity.
      * exact Hnd1.
Qed.

Lemma fifo_run_head : forall que ps w trace r,
  fifo_run que ps w trace r -> exists tl, trace = que :: tl.
Proof.
  intros que ps w trace r H. destruct H; eexists; reflexivity.
Qed.

(** Every run of the loop of prop_GAC that ends is a run with the queue
    discipline, and from a worklist without repeats none of its worklists
    has a repeat. *)
Lemma GAC_loop_fifo : forall fuel que ps w r,
  GAC_loop fuel que ps w = Some r ->
  exists trace,
    fifo_run que ps w trace r /\
    (NoDup que -> Forall (@NoDup Constraint) trace).
Proof.
  induction fuel as [| fuel IH]; intros que ps w r H.
  - destruct que; simpl in H; [| discriminate].
    injection H as <-. exists [[]]. split; [constructor |].
    intros _. repeat constructor.
  - destruct que as [| curr rest]; simpl in H.
    + injection H as <-. exists [[]]. split; [constructor |].
      intros _. repeat constructor.
    + destruct (GAC_scope curr (get_scope curr) rest ps w) as [w1 r1] eqn:ES.
      destruct (GAC_scope_round _ _ _ _ _ _ _ ES)
        as (news & tr & que1 & o & Hr & Hres & Hnd).
      assert (Hrest : NoDup (curr :: rest) -> NoDup rest)
        by (intros Hq; now inversion Hq).
      destruct o as [| | e]; simpl in Hres; subst r1.
      * destruct (IH _ _ _ _ H) as (trace & Hrun & Hnd').
        exists ((curr :: rest) :: tr ++ trace). split.
        -- eapply fifo_next; [exact Hr | exact Hrun].
        -- intros Hq. destruct (Hnd (Hrest Hq)) as [Ht Hq1].
           constructor; [exact Hq |]. apply Forall_app. split; [exact Ht |].
           exact (Hnd' Hq1).
      * injection H as <-. exists ((curr :: rest) :: tr). split.
        -- eapply fifo_wipeout. exact Hr.
        -- intros Hq. destruct (Hnd (Hrest Hq)) as [Ht _].
           constructor; assumption.
      * injection H as <-. exists ((curr :: rest) :: tr). split.
        -- eapply fifo_raise. exact Hr.
        -- intros Hq. destruct (Hnd (Hrest Hq)) as [Ht _].
           constructor; assumption.
Qed.

Lemma GAC_init_NoDup : forall newVar w,
  NoDup (get_all_cons w) -> NoDup (GAC_init newVar w).
Proof.
  intros [V |] w Hnd; simpl; [| exact Hnd].
  unfold get_cons_with_var. now apply NoDup_filter.
Qed.

(** C3. The worklist of prop_GAC is a queue.  Every call is a run in which
    each round is the round of the constraint at the front of the
    worklist, the one that has waited longest; after a value of a variable
    X was pruned, the constraints that waited keep their order and behind
    them stand, once each and in the order of the CSP's listing, exactly
    the constraints of the CSP containing X that are not present in the
    worklist.  When the CSP lists none of its constraints twice, no
    worklist of the run, at a loop test or after an enqueuing, holds a
    constraint twice. *)
Theorem GAC_worklist_fifo : forall newVar w,
  exists trace,
    fifo_run (GAC_init newVar w) [] w trace (prop_GAC newVar w) /\
    (NoDup (get_all_cons w) -> Forall (@NoDup Constraint) trace).
Proof.
  intros newVar w.
  destruct (GAC_loop_fifo _ _ _ _ _ (prop_GAC_total newVar w))
    as (trace & Hrun & Hnd).
  exists trace. split; [exact Hrun |].
  intros H. apply Hnd. now apply GAC_init_NoDup.
Qed.

Lemma grid2_first_listing : NoDup (get_all_cons grid2_first).
Proof.
  unfold get_all_cons. rewrite grid2_first_csp, grid2_csp.
  apply (NoDup_map_inv cid). simpl. repeat constructor; simpl; lia.
Qed.

Lemma chain_listing : NoDup (get_all_cons chain_world).
Proof.
  apply (NoDup_map_inv cid). simpl. repeat constructor; simpl; lia.
Qed.

Lemma GAC_worklist_fifo_witness :
  (map (map get_scope) [GAC_init (Some 0) grid2_first] = [[[0; 2]; [0; 1]]] /\
   snd (prop_GAC (Some 0) grid2_first) =
     Ok (true, [(2, 1%Z); (1, 1%Z); (0, 2%Z); (3, 2%Z)]) /\
   exists trace,
     fifo_run (GAC_init (Some 0) grid2_first) [] grid2_first trace
              (prop_GAC (Some 0) grid2_first) /\
     Forall (@NoDup Constraint) trace) /\
  (GAC_init None chain_world = [chain_c1; chain_c2] /\
   snd (prop_GAC None chain_world) = Ok (true, [(1, 1%Z); (2, 2%Z)]) /\
   exists trace,
     fifo_run (GAC_init None chain_world) [] chain_world trace
              (prop_GAC None chain_world) /\
     Forall (@NoDup Constraint) trace).
Proof.
  split; (split; [vm_compute; reflexivity |]);
    (split; [vm_compute; reflexivity |]).
  - destruct (GAC_worklist_fifo (Some 0) grid2_first) as (trace & Hrun & Hnd).
    exists trace. split; [exact Hrun | exact (Hnd grid2_first_listing)].
  - destruct (GAC_worklist_fifo None chain_world) as (trace & Hrun & Hnd).
    exists trace. split; [exact Hrun | exact (Hnd chain_listing)].
Defined.

(** C3 as worded fails on a CSP that lists a constraint twice: the
    worklist prop_GAC starts from holds it twice. *)
Lemma GAC_worklist_repeats :
  GAC_init None twice_world = [ne_con; ne_con] /\
  (exists trace,
     fifo_run (GAC_init None twice_world) [] twice_world trace
              (prop_GAC None twice_world)) /\
  ~ (exists trace,
       fifo_run (GAC_init None twice_world) [] twice_world trace
                (prop_GAC None twice_world) /\
       Forall (@NoDup Constraint) trace).
Proof.
  split; [reflexivity |]. split.
  - destruct (GAC_loop_fifo _ _ _ _ _ (prop_GAC_total None twice_world))
      as (trace & Hrun & _).
    now exists trace.
  - intros (trace & Hrun & Hnd).
    apply fifo_run_head in Hrun as (tl & ->).
    inversion Hnd as [| q qs Hq _]. subst.
    change (GAC_init None twice_world) with [ne_con; ne_con] in Hq.
    inversion Hq as [| c l Hc _]. apply Hc. now left.
Qed.

(* ------------------------------------------------------------------ *)
(** ** prop_GAC, the call *)
(* ------------------------------------------------------------------ *)

(** C1. When prop_GAC, called without a newly assigned variable, returns
    success, every value left in the current domain of a scope variable of
    a constraint of the CSP has a support under that constraint: the call
    ends in a fixed point of arc consistency. *)
Theorem prop_GAC_sound : forall w w' ps,
  prop_GAC None w = (w', Ok (true, ps)) ->
  forall C X v,
    In C (get_all_cons w') ->
    In X (get_scope C) ->
    In v (cur_domain X w') ->
    has_support C X v w' = true.
Proof.
  intros w w' ps H. pose proof (prop_GAC_total None w) as HT. rewrite H in HT.
  exact (GAC_rounds_sound _ _ _ _ HT).
Qed.

Lemma prop_GAC_sound_witness :
  exists w',
    prop_GAC None chain_world = (w', Ok (true, [(1, 1%Z); (2, 2%Z)])) /\
    has_support chain_c2 2 1%Z w' = true.
Proof.
  eexists. split; [reflexivity |].
  apply (prop_GAC_sound chain_world _ [(1, 1%Z); (2, 2%Z)] eq_refl chain_c2 2 1%Z).
  - simpl. tauto.
  - simpl. tauto.
  - simpl. now left.
Defined.

(** C2, amended.  One constraint over (A, B) with the single satisfying
    tuple (1, 2), A = {1}, B = {3}, nothing assigned: prop_GAC visits A first,
    finds no support for A's value 1 (2 is not in B's domain), prunes it,
    finds A's current domain empty and reports failure with the prune list
    [(A, 1)].  B is not reached: its value 3 stays in its current domain. *)
Theorem dwo_scenario : forall (w : World) (A B : Var) (c : Constraint),
  A <> B ->
  get_all_cons w = [c] ->
  get_scope c = [A; B] ->
  sat_tuples c = [[1; 2]%Z] ->
  cur_domain A w = [1%Z] ->
  cur_domain B w = [3%Z] ->
  get_assigned_value A w = None ->
  get_assigned_value B w = None ->
  exists w',
    prop_GAC None w = (w', Ok (false, [(A, 1%Z)])) /\
    cur_domain A w' = [] /\
    cur_domain B w' = [3%Z].
Proof.
  intros w A B c HAB Hcons Hscope Htup HA HB HaA HaB.
  destruct (dwo_rounds w A B c 0 HAB Hcons Hscope Htup HA HB HaA HaB)
    as (w' & Hrun & HA' & HB').
  apply prop_GAC_fuel_agrees in Hrun.
  exists w'. split; [now symmetry | split; assumption].
Qed.

Lemma dwo_scenario_witness :
  exists w',
    prop_GAC None dwo_world = (w', Ok (false, [(dwo_A, 1%Z)])) /\
    cur_domain dwo_A w' = [] /\
    cur_domain dwo_B w' = [3%Z].
Proof.
  apply (dwo_scenario dwo_world dwo_A dwo_B dwo_con); try reflexivity.
  unfold dwo_A, dwo_B. lia.
Defined.

(** C2 as worded fails on the scenario: prop_GAC does not report failure
    with B's value 3 pruned and B's current domain empty. *)
Lemma dwo_claim_fails :
  ~ (exists w' ps,
       prop_GAC None dwo_world = (w', Ok (false, ps)) /\
       In (dwo_B, 3%Z) ps /\
       cur_domain dwo_B w' = []).
Proof.
  intros (w' & ps & Hrun & Hin & Hdom).
  cbv in Hrun. injection Hrun as Hw Hps. subst ps.
  destruct Hin as [Hin | []]. discriminate.
Qed.

Lemma run_prop_tracks : forall p newVar w w' flag ps,
  run_prop p newVar w = (w', Ok (flag, ps)) ->
  tracks w ps w'.
Proof.
  intros p newVar w w' flag ps H. destruct p; simpl in H.
  - destruct newVar as [V |]; simpl in H.
    + unfold bind, gets in H. rewrite BT_loop_spec in H.
      injection H as <- _ <-. apply tracks_start.
    + unfold ret in H. injection H as <- _ <-. apply tracks_start.
  - unfold prop_FC, bind, gets in H.
    eapply FC_cons_tracks; [apply tracks_start | exact H].
  - pose proof (prop_GAC_total newVar w) as HT. rewrite H in HT.
    unfold prop_GAC_fuel in HT.
    eapply GAC_loop_tracks; [apply tracks_start | exact HT].
Qed.

(** C4. The prune list a call of prop_BT, prop_FC or prop_GAC returns names
    no pair twice; pruning its pairs again in order from the world of the
    call meets each value in the current domain of its variable right
    before it is pruned and ends in the world the call left; and the current
    domains the call left are those it found without the values the list
    names. *)
Theorem prune_list_exact : forall p newVar w w' flag ps,
  run_prop p newVar w = (w', Ok (flag, ps)) ->
  NoDup ps /\
  (exists wr, replay ps w = (wr, Ok tt) /\ weq wr w') /\
  (forall ps1 X v ps2, ps = ps1 ++ (X, v) :: ps2 ->
     exists w1, replay ps1 w = (w1, Ok tt) /\ In v (cur_domain X w1)) /\
  (forall X, cur_domain X w' =
             filter (fun v => negb (pruned ps X v)) (cur_domain X w)).
Proof.
  intros p newVar w w' flag ps H.
  apply run_prop_tracks in H. destruct H as (wr & Hr & Hq).
  split; [eapply replay_NoDup; exact Hr |].
  split; [exists wr; split; assumption |].
  split.
  - intros ps1 X v ps2 E. subst ps. eapply replay_split; exact Hr.
  - intros X. rewrite <- (replay_curdom _ _ _ X Hr).
    destruct Hq as (_ & _ & _ & Hv). unfold cur_domain. now rewrite Hv.
Qed.

Lemma prune_list_exact_witness :
  exists w',
    run_prop GAC None chain_world = (w', Ok (true, [(1, 1%Z); (2, 2%Z)])) /\
    NoDup [(1, 1%Z); (2, 2%Z)] /\
    cur_domain 1 w' = [2%Z] /\
    cur_domain 2 w' = [1%Z].
Proof.
  pose proof (prune_list_exact GAC None chain_world _ _ _ eq_refl)
    as (Hnd & _ & _ & Hc).
  eexists. split; [reflexivity |]. split; [exact Hnd |].
  split; [exact (Hc 1) | exact (Hc 2)].
Defined.

(** C8. A call of prop_GAC, whether it returns or raises, leaves the CSP
    object as it was -- the sequence of its constraints, each with its scope
    and satisfying tuples, and its variables -- and leaves every variable
    its name, initial domain and assigned value; current domains only lose
    values. *)
Theorem prop_GAC_frame : forall newVar w,
  w_csp (fst (prop_GAC newVar w)) = w_csp w /\
  get_all_cons (fst (prop_GAC newVar w)) = get_all_cons w /\
  csp_vars (w_csp (fst (prop_GAC newVar w))) = csp_vars (w_csp w) /\
  forall X,
    get_assigned_value X (fst (prop_GAC newVar w)) = get_assigned_value X w /\
    v_name (w_var (fst (prop_GAC newVar w)) X) = v_name (w_var w X) /\
    v_dom (w_var (fst (prop_GAC newVar w)) X) = v_dom (w_var w X) /\
    incl (cur_domain X (fst (prop_GAC newVar w))) (cur_domain X w).
Proof.
  intros newVar w. pose proof (prop_GAC_total newVar w) as HT.
  destruct (prop_GAC newVar w) as [w' out]. simpl.
  exact (GAC_rounds_frame _ _ _ _ _ HT).
Qed.

(* ------------------------------------------------------------------ *)
(** ** The list prop_GAC works on, and when prop_FC returns *)
(* ------------------------------------------------------------------ *)

Lemma last_cons_default : forall (A : Type) (l : list A) (a d d' : A),
  l <> [] -> last (a :: l) d = last l d'.
Proof.
  intros A l. induction l as [| b l IH]; intros a d d' Hne; [congruence |].
  cbn [last]. destruct l as [| c l]; [reflexivity |].
  apply (IH b d d'). discriminate.
Qed.

(** The worklist is updated in place: in a call without a newly assigned
    variable it starts as the listing [get_all_cons] hands out, and when the
    call succeeds it is empty.  The frame property of prop_GAC is about a
    listing that is a list of its own. *)
Lemma GAC_worklist_drained : forall fuel que ps w w' ps',
  GAC_loop fuel que ps w = Some (w', Ok (true, ps')) ->
  hd [] (GAC_worklists fuel que ps w) = que /\
  last (GAC_worklists fuel que ps w) que = [].
Proof.
  induction fuel as [| fuel IH]; intros que ps w w' ps' H.
  - destruct que; simpl in H; [| discriminate]. split; reflexivity.
  - destruct que as [| curr rest]; [split; reflexivity |].
    split; [reflexivity |]. simpl in H. cbn [GAC_worklists].
    destruct (GAC_scope curr (get_scope curr) rest ps w)
      as [w1 [[[que1 ps1] | [flag1 ps1]] | e]] eqn:ES; [| | discriminate].
    + destruct (IH _ _ _ _ _ H) as [Hhd Hlast].
      destruct (GAC_worklists fuel que1 ps1 w1) as [| q qs] eqn:EW.
      * destruct fuel, que1; discriminate.
      * rewrite <- Hlast. apply (last_cons_default _ (q :: qs)). discriminate.
    + apply GAC_scope_return in ES. subst flag1. discriminate.
Qed.

Lemma FC_vals_returns : forall vals con var ps flag w,
  get_assigned_value var w = None ->
  NoDup vals ->
  incl vals (cur_domain var w) ->
  exists w' r, FC_vals con var vals ps flag w = (w', Ok r).
Proof.
  induction vals as [| val vals IH]; intros con var ps flag w Hun Hnd Hincl.
  - exists w. eexists. reflexivity.
  - inversion Hnd as [| ? ? Hnotin Hnd']; subst.
    assert (Hval : In val (cur_domain var w)) by (apply Hincl; now left).
    cbn [FC_vals]. unfold bind at 1.
    assert (EA : exists w1, assign var val w = (w1, Ok tt)).
    { unfold assign, is_assigned. rewrite Hun.
      unfold cur_domain in Hval. apply in_dom_In in Hval. rewrite Hval.
      simpl. eexists. reflexivity. }
    destruct EA as (w1 & EA). rewrite EA.
    apply assign_unassign in EA as (_ & _ & _ & w2 & EU & Hweq).
    unfold bind at 1. unfold gets at 1. unfold bind at 1. rewrite EU.
    destruct Hweq as (Hc & Hn & Hm & Hv).
    assert (Hun2 : get_assigned_value var w2 = None)
      by (unfold get_assigned_value; now rewrite Hv).
    assert (Hcd2 : cur_domain var w2 = cur_domain var w)
      by (unfold cur_domain; now rewrite Hv).
    destruct (check con (assigned_values con w1)); simpl.
    + apply IH; trivial. rewrite Hcd2. intros x Hx. apply Hincl. now right.
    + unfold bind at 1.
      assert (EP : exists w3, prune_value var val w2 = (w3, Ok tt)).
      { unfold prune_value. rewrite <- Hcd2 in Hval. unfold cur_domain in Hval.
        apply in_dom_In in Hval. rewrite Hval. eexists. reflexivity. }
      destruct EP as (w3 & EP). rewrite EP.
      apply prune_value_ok in EP as (_ & Hd & _ & HF).
      apply IH; trivial.
      * now rewrite (frame_assigned _ _ var HF).
      * rewrite Hd, Hcd2. intros x Hx. apply in_in_remove.
        -- intros ->. contradiction.
        -- apply Hincl. now right.
Qed.

(** prop_FC returns -- it raises nothing -- when no current domain holds a
    value twice and, in a call without a newly assigned variable, no unary
    constraint has its variable assigned. *)
Lemma prop_FC_returns : forall newVar w,
  (newVar = None -> unary_unassigned w) ->
  (forall X, NoDup (cur_domain X w)) ->
  exists w' flag ps, prop_FC newVar w = (w', Ok (flag, ps)).
Proof.
  intros newVar w Hpre Hnd. unfold prop_FC, bind, gets.
  assert (Hne : forall con, In con (FC_collect newVar w) ->
                            get_unasgn_vars con w <> []).
  { intros con Hin. destruct newVar as [V |]; simpl in Hin;
      apply filter_In in Hin as [Hin Hf]; apply Nat.eqb_eq in Hf.
    - unfold get_n_unasgn in Hf. intros E. rewrite E in Hf. discriminate.
    - now apply Hpre. }
  revert Hne Hnd. generalize (FC_collect newVar w) ([] : list Prune) false.
  clear Hpre. intros lst. revert w.
  induction lst as [| con lst IH]; intros w ps flag Hne Hnd.
  - exists w, true, ps. reflexivity.
  - cbn [FC_cons]. unfold bind at 1. unfold gets at 1.
    destruct (get_unasgn_vars con w) as [| var us] eqn:EU.
    + exfalso. apply (Hne con); [now left | exact EU].
    + assert (Hun : get_assigned_value var w = None).
      { assert (Hin : In var (get_unasgn_vars con w)) by (rewrite EU; now left).
        unfold get_unasgn_vars in Hin. apply filter_In in Hin as [_ Hin].
        unfold is_assigned in Hin.
        destruct (get_assigned_value var w); [discriminate | reflexivity]. }
      unfold bind at 1. unfold gets at 1. unfold bind at 1.
      destruct (FC_vals_returns (cur_domain var w) con var ps flag w Hun
                  (Hnd var) (incl_refl _)) as (w1 & [ps1 flag1] & EV).
      rewrite EV. cbn [fst snd].
      destruct flag1; cbn [negb].
      * apply FC_vals_spec in EV as (_ & _ & Hpr).
        pose proof (pruned_to_frame _ _ _ _ Hpr) as HF.
        apply IH.
        -- intros c Hc. rewrite (frame_unasgn_vars _ _ c HF). apply Hne. now right.
        -- intros X. destruct Hpr as (_ & _ & _ & Hother & _ & _ & _ & Hcd).
           destruct (Nat.eq_dec X var) as [-> | Hneq].
           ++ unfold cur_domain. rewrite Hcd. apply NoDup_filter. apply Hnd.
           ++ unfold cur_domain. rewrite (Hother X Hneq). apply Hnd.
      * exists w1, false, ps1. reflexivity.
Qed.

(* ================================================================== *)
(** * Further properties of the propagators *)
(* ================================================================== *)

(* ------------------------------------------------------------------ *)
(** ** Solutions survive propagation *)
(* ------------------------------------------------------------------ *)

Lemma vals_eqb_Some : forall t, vals_eqb t (map Some t) = true.
Proof.
  induction t as [| u t IH]; simpl; [reflexivity |].
  now rewrite Z.eqb_refl, IH.
Qed.

Lemma csp_var_scope : forall w c X,
  In c (get_all_cons w) -> In X (get_scope c) -> csp_var w X.
Proof.
  intros w c X Hc HX. right. unfold scope_vars. apply in_flat_map.
  exists c. now split.
Qed.

Lemma csp_var_same : forall w w' X,
  w_csp w' = w_csp w -> csp_var w' X -> csp_var w X.
Proof.
  intros w w' X E. unfold csp_var, scope_vars, get_all_cons. now rewrite E.
Qed.

Lemma solution_tuple_supports : forall sol w X scope,
  (forall Y, In Y scope -> csp_var w Y) ->
  admits sol w ->
  tuple_supports w X (sol X) scope (map sol scope) = true.
Proof.
  intros sol w X scope Hsc Hadm. induction scope as [| Y scope IH]; simpl.
  - reflexivity.
  - rewrite IH, andb_true_r by (intros Z HZ; apply Hsc; now right).
    destruct (Nat.eqb Y X) eqn:E.
    + apply Nat.eqb_eq in E. subst. apply Z.eqb_refl.
    + unfold in_cur_domain.
      destruct (Hadm Y (Hsc Y (or_introl eq_refl))) as [Hin Hasg].
      destruct (get_assigned_value Y w) as [a |] eqn:EA.
      * rewrite (Hasg a eq_refl). apply Z.eqb_refl.
      * now apply in_dom_In.
Qed.

(** The value a solution gives a scope variable has a support: the
    solution's own tuple. *)
Lemma solution_supported : forall sol w c X,
  In c (get_all_cons w) ->
  In (map sol (get_scope c)) (sat_tuples c) ->
  admits sol w ->
  In X (get_scope c) ->
  has_support c X (sol X) w = true.
Proof.
  intros sol w c X Hc Hsat Hadm HX. unfold has_support.
  apply andb_true_iff. split.
  - apply existsb_exists. exists X. split; [exact HX | apply Nat.eqb_refl].
  - apply existsb_exists. exists (map sol (get_scope c)). split; [exact Hsat |].
    apply solution_tuple_supports; [| exact Hadm].
    intros Y HY. exact (csp_var_scope w c Y Hc HY).
Qed.

Lemma admits_prune : forall sol w w1 X v,
  admits sol w -> v <> sol X -> prune_value X v w = (w1, Ok tt) ->
  admits sol w1.
Proof.
  intros sol w w1 X v Hadm Hne EP Y HY.
  apply prune_value_ok in EP as (_ & Hd & Hother & HF).
  pose proof HF as (Hcsp & _).
  destruct (Hadm Y (csp_var_same w w1 Y Hcsp HY)) as [Hin Hasg]. split.
  - destruct (Nat.eq_dec Y X) as [-> | HYX].
    + rewrite Hd. apply in_in_remove; [congruence | exact Hin].
    + unfold cur_domain. now rewrite (Hother Y HYX).
  - intros a Ha. apply Hasg. now rewrite <- (frame_assigned _ _ Y HF).
Qed.

Lemma GAC_vals_keeps : forall sol vals curr var que ps w w' r,
  In curr (get_all_cons w) ->
  In (map sol (get_scope curr)) (sat_tuples curr) ->
  In var (get_scope curr) ->
  admits sol w ->
  (forall X, ~ In (X, sol X) ps) ->
  GAC_vals curr var vals que ps w = (w', Ok r) ->
  admits sol w' /\
  exists que' ps', r = Next (que', ps') /\ forall X, ~ In (X, sol X) ps'.
Proof.
  intros sol. induction vals as [| val vals IH];
    intros curr var que ps w w' r Hcurr Hsat Hvar Hadm Hps H; simpl in H.
  - unfold ret in H. injection H as <- <-. split; [exact Hadm |].
    exists que, ps. split; [reflexivity | exact Hps].
  - unfold bind at 1 in H. unfold gets at 1 in H.
    destruct (has_support curr var val w) eqn:ES; cbn [negb] in H.
    + eapply IH; eassumption.
    + assert (Hne : val <> sol var).
      { intros ->.
        rewrite (solution_supported sol w curr var Hcurr Hsat Hadm Hvar) in ES.
        discriminate. }
      unfold bind at 1 in H.
      destruct (prune_value var val w) as [w1 [[] | e]] eqn:EP; [| discriminate].
      pose proof (admits_prune sol w w1 var val Hadm Hne EP) as Hadm1.
      assert (Hcurr1 : In curr (get_all_cons w1)).
      { apply prune_value_ok in EP as (_ & _ & _ & HF).
        now rewrite (frame_cons _ _ HF). }
      unfold bind at 1 in H. unfold gets at 1 in H.
      destruct (cur_domain var w1) as [| d0 dom] eqn:ED.
      * exfalso.
        destruct (Hadm1 var (csp_var_scope w1 curr var Hcurr1 Hvar)) as [Hin _].
        rewrite ED in Hin. destruct Hin.
      * unfold bind at 1 in H. unfold gets at 1 in H.
        eapply (IH curr var _ (ps ++ [(var, val)]) w1 w' r Hcurr1 Hsat Hvar Hadm1);
          [| exact H].
        intros X Hin. apply in_app_or in Hin as [Hin | [E | []]].
        -- now apply (Hps X).
        -- injection E as <- E. congruence.
Qed.

Lemma GAC_scope_keeps : forall sol vars curr que ps w w' r,
  In curr (get_all_cons w) ->
  In (map sol (get_scope curr)) (sat_tuples curr) ->
  incl vars (get_scope curr) ->
  admits sol w ->
  (forall X, ~ In (X, sol X) ps) ->
  GAC_scope curr vars que ps w = (w', Ok r) ->
  admits sol w' /\
  exists que' ps', r = Next (que', ps') /\ forall X, ~ In (X, sol X) ps'.
Proof.
  intros sol. induction vars as [| var vars IH];
    intros curr que ps w w' r Hcurr Hsat Hvars Hadm Hps H; simpl in H.
  - unfold ret in H. injection H as <- <-. split; [exact Hadm |].
    exists que, ps. split; [reflexivity | exact Hps].
  - unfold bind at 1 in H. unfold gets at 1 in H. unfold bind at 1 in H.
    pose proof (GAC_vals_frame (cur_domain var w) curr var que ps w) as HF.
    destruct (GAC_vals curr var (cur_domain var w) que ps w)
      as [w1 [r1 | e]] eqn:EV; [| discriminate].
    simpl in HF.
    destruct (GAC_vals_keeps sol _ _ _ _ _ _ _ _ Hcurr Hsat
                (Hvars var (or_introl eq_refl)) Hadm Hps EV)
      as (Hadm1 & que1 & ps1 & -> & Hps1).
    apply (IH curr que1 ps1 w1 w' r); trivial.
    + now rewrite (frame_cons _ _ HF).
    + intros Y HY. apply Hvars. now right.
Qed.

(** A round that goes on keeps the worklist within the constraints of the
    CSP. *)
Lemma GAC_scope_que_incl : forall curr vars que ps w w' que' ps',
  incl que (get_all_cons w) ->
  GAC_scope curr vars que ps w = (w', Ok (Next (que', ps'))) ->
  incl que' (get_all_cons w).
Proof.
  intros curr vars que ps w w' que' ps' Hincl H.
  apply GAC_scope_que in H as (news & _ & ->).
  destruct (enqueue_all_spec w news que) as (new & -> & _ & Hiff).
  intros d Hd. apply in_app_or in Hd as [Hd | Hd]; [now apply Hincl |].
  apply Hiff in Hd as (_ & p & _ & Hd). now apply cons_with_var_In in Hd.
Qed.

Lemma GAC_loop_keeps : forall sol fuel que ps w w' flag ps',
  incl que (get_all_cons w) ->
  satisfies sol w ->
  admits sol w ->
  (forall X, ~ In (X, sol X) ps) ->
  GAC_loop fuel que ps w = Some (w', Ok (flag, ps')) ->
  flag = true /\ admits sol w' /\ forall X, ~ In (X, sol X) ps'.
Proof.
  intros sol. induction fuel as [| fuel IH];
    intros que ps w w' flag ps' Hincl Hsat Hadm Hps H.
  - destruct que; simpl in H; [| discriminate].
    injection H as <- <- <-. split; [reflexivity | split; assumption].
  - destruct que as [| curr rest]; simpl in H.
    + injection H as <- <- <-. split; [reflexivity | split; assumption].
    + assert (Hcurr : In curr (get_all_cons w)) by (apply Hincl; now left).
      pose proof (GAC_scope_frame (get_scope curr) curr rest ps w) as HF.
      destruct (GAC_scope curr (get_scope curr) rest ps w)
        as [w1 [r | e]] eqn:ES; [| discriminate].
      simpl in HF.
      destruct (GAC_scope_keeps sol _ _ _ _ _ _ _ Hcurr (Hsat curr Hcurr)
                  (incl_refl _) Hadm Hps ES)
        as (Hadm1 & que1 & ps1 & -> & Hps1).
      assert (Hincl1 : incl que1 (get_all_cons w)).
      { eapply GAC_scope_que_incl; [| exact ES].
        intros d Hd. apply Hincl. now right. }
      pose proof (frame_cons _ _ HF) as Hc.
      apply (IH que1 ps1 w1 w' flag ps'); trivial.
      * now rewrite Hc.
      * intros c Hcin. apply Hsat. now rewrite <- Hc.
Qed.

(** prop_GAC never loses a solution: when some assignment of the variables
    of the CSP satisfies every constraint of the CSP and lies within the
    current domains and the assignments made, a call that returns reports
    success, the assignment still lies within the current domains, and none
    of its values is in the prune list.  Nothing is asked of the variables
    of the store that are not the CSP's. *)
Theorem prop_GAC_keeps_solutions : forall sol newVar w w' flag ps,
  satisfies sol w ->
  admits sol w ->
  prop_GAC newVar w = (w', Ok (flag, ps)) ->
  flag = true /\ admits sol w' /\ forall X, ~ In (X, sol X) ps.
Proof.
  intros sol newVar w w' flag ps Hsat Hadm H.
  pose proof (prop_GAC_total newVar w) as HT. rewrite H in HT.
  unfold prop_GAC_fuel in HT.
  apply (GAC_loop_keeps sol _ _ _ _ _ _ _ (GAC_init_incl newVar w) Hsat Hadm) in HT;
    [exact HT |].
  intros X [].
Qed.

(** The Latin square [grid2_sol] is a solution of the 2 x 2 grid model,
    whose variables are its four cells; the variables of the store beyond
    them have no value at all. *)
Lemma grid2_sol_satisfies : forall w,
  w_csp w = w_csp grid2_world -> satisfies grid2_sol w.
Proof.
  intros w E c Hc. unfold get_all_cons in Hc. rewrite E, grid2_csp in Hc.
  destruct Hc as [<- | [<- | [<- | [<- | []]]]]; simpl; tauto.
Qed.

Lemma grid2_csp_var : forall w X,
  w_csp w = w_csp grid2_world -> csp_var w X -> X < 4.
Proof.
  intros w X E [H | H].
  - rewrite E, grid2_csp in H. simpl in H. lia.
  - unfold scope_vars, get_all_cons in H. rewrite E, grid2_csp in H.
    simpl in H. lia.
Qed.

Lemma grid2_first_admitted : admits grid2_sol grid2_first.
Proof.
  intros X HX. apply (grid2_csp_var grid2_first X grid2_first_csp) in HX.
  do 4 (destruct X as [| X];
        [vm_compute; split; [tauto | intros a E; now inversion E] |]).
  lia.
Qed.

Lemma grid2_row_admitted : admits grid2_sol grid2_row.
Proof.
  intros X HX. apply (grid2_csp_var grid2_row X grid2_row_csp) in HX.
  do 4 (destruct X as [| X];
        [vm_compute; split; [tauto | intros a E; now inversion E] |]).
  lia.
Qed.

Lemma grid2_first_GAC :
  prop_GAC (Some 0) grid2_first =
  (fst (prop_GAC (Some 0) grid2_first),
   Ok (true, [(2, 1%Z); (1, 1%Z); (0, 2%Z); (3, 2%Z)])).
Proof. vm_compute. reflexivity. Qed.

Lemma prop_GAC_keeps_solutions_witness :
  cur_domain 4 grid2_first = [] /\
  snd (prop_GAC (Some 0) grid2_first) =
    Ok (true, [(2, 1%Z); (1, 1%Z); (0, 2%Z); (3, 2%Z)]) /\
  admits grid2_sol (fst (prop_GAC (Some 0) grid2_first)).
Proof.
  split; [vm_compute; reflexivity |].
  split; [vm_compute; reflexivity |].
  apply (prop_GAC_keeps_solutions grid2_sol (Some 0) grid2_first _ true
           [(2, 1%Z); (1, 1%Z); (0, 2%Z); (3, 2%Z)]
           (grid2_sol_satisfies grid2_first grid2_first_csp)
           grid2_first_admitted grid2_first_GAC).
Defined.

Lemma probe_solution : forall sol con U w,
  In con (get_all_cons w) ->
  get_unasgn_vars con w = [U] ->
  admits sol w ->
  probe_vals con U (sol U) w = map Some (map sol (get_scope con)).
Proof.
  intros sol con U w Hcon HU Hadm. unfold probe_vals. rewrite map_map.
  apply map_ext_in. intros Y HY.
  destruct (Nat.eqb Y U) eqn:E.
  - apply Nat.eqb_eq in E. now subst.
  - destruct (get_assigned_value Y w) as [a |] eqn:EA.
    + destruct (Hadm Y (csp_var_scope w con Y Hcon HY)) as [_ Hasg].
      now rewrite (Hasg a EA).
    + exfalso. apply Nat.eqb_neq in E. apply E.
      assert (Hin : In Y (get_unasgn_vars con w)).
      { unfold get_unasgn_vars. apply filter_In. split; [exact HY |].
        unfold is_assigned. now rewrite EA. }
      rewrite HU in Hin. destruct Hin as [<- | []]. reflexivity.
Qed.

Lemma check_solution : forall sol con,
  In (map sol (get_scope con)) (sat_tuples con) ->
  check con (map Some (map sol (get_scope con))) = true.
Proof.
  intros sol con Hin. unfold check. apply existsb_exists.
  exists (map sol (get_scope con)). split; [exact Hin | apply vals_eqb_Some].
Qed.

Lemma admits_pruned_to : forall sol U bad w w1,
  pruned_to U bad w w1 -> ~ In (sol U) bad -> admits sol w -> admits sol w1.
Proof.
  intros sol U bad w w1 (Hcsp & _ & _ & Hother & _ & _ & Hasg & Hcd) Hbad Hadm Y HY.
  destruct (Hadm Y (csp_var_same w w1 Y Hcsp HY)) as [Hin Ha].
  destruct (Nat.eq_dec Y U) as [-> | Hne].
  - split.
    + unfold cur_domain. rewrite Hcd. apply filter_In. split; [exact Hin |].
      apply negb_true_iff. now apply in_dom_false.
    + unfold get_assigned_value. now rewrite Hasg.
  - unfold cur_domain, get_assigned_value. rewrite (Hother Y Hne).
    split; assumption.
Qed.

Lemma unasgn_single_In : forall con U w,
  get_unasgn_vars con w = [U] -> In U (get_scope con).
Proof.
  intros con U w HU.
  assert (Hin : In U (get_unasgn_vars con w)) by (rewrite HU; now left).
  unfold get_unasgn_vars in Hin. now apply filter_In in Hin.
Qed.

Lemma FC_spec_keeps : forall sol lst w flag ps w',
  FC_spec lst w flag ps w' ->
  (forall con, In con lst ->
     In con (get_all_cons w) /\ In (map sol (get_scope con)) (sat_tuples con)) ->
  admits sol w ->
  flag = true /\ admits sol w' /\ forall X, ~ In (X, sol X) ps.
Proof.
  intros sol lst w flag ps w' H.
  induction H as [w w' Hweq
                 | con lst U w w' HU Hpr Hsurv
                 | con lst U w w1 flag ps w' HU Hpr Hsurv Hrest IH];
    intros Hsat Hadm.
  - split; [reflexivity |]. split; [| intros X []].
    intros X HX. destruct Hweq as (Hcsp & _ & _ & Hv).
    unfold cur_domain, get_assigned_value. rewrite Hv.
    apply Hadm. exact (csp_var_same w w' X Hcsp HX).
  - exfalso. destruct (Hsat con (or_introl eq_refl)) as [Hcon Htup].
    assert (Hin : In (sol U) (surviving con U w)).
    { unfold surviving. apply filter_In. split.
      - apply Hadm. exact (csp_var_scope w con U Hcon (unasgn_single_In con U w HU)).
      - rewrite (probe_solution sol con U w Hcon HU Hadm).
        now apply check_solution. }
    rewrite Hsurv in Hin. destruct Hin.
  - destruct (Hsat con (or_introl eq_refl)) as [Hcon Htup].
    assert (Hnot : ~ In (sol U) (failing con U w)).
    { unfold failing. intros Hin. apply filter_In in Hin as [_ Hin].
      rewrite (probe_solution sol con U w Hcon HU Hadm) in Hin.
      rewrite (check_solution sol con Htup) in Hin. discriminate. }
    destruct IH as (Hflag & Hadm' & Hps).
    + intros c Hc. destruct (Hsat c (or_intror Hc)) as [Hc1 Hc2].
      split; [| exact Hc2].
      destruct Hpr as (Hcsp & _). unfold get_all_cons in *. now rewrite Hcsp.
    + exact (admits_pruned_to sol U (failing con U w) w w1 Hpr Hnot Hadm).
    + split; [exact Hflag |]. split; [exact Hadm' |].
      intros X Hin. apply in_app_or in Hin as [Hin | Hin]; [| now apply (Hps X)].
      apply in_map_iff in Hin as (v & E & Hv). injection E as E1 E2.
      subst X v. now apply Hnot.
Qed.

Lemma FC_collect_incl : forall newVar w,
  incl (FC_collect newVar w) (get_all_cons w).
Proof.
  intros [V |] w c Hc; simpl in Hc; apply filter_In in Hc as [Hc _].
  - now apply cons_with_var_In in Hc.
  - exact Hc.
Qed.

(** prop_FC never loses a solution: when some assignment of the variables
    of the CSP satisfies every constraint of the CSP and lies within the
    current domains and the assignments made, a call that returns reports
    success, the assignment still lies within the current domains, and none
    of its values is in the prune list. *)
Theorem prop_FC_keeps_solutions : forall sol newVar w w' flag ps,
  satisfies sol w ->
  admits sol w ->
  prop_FC newVar w = (w', Ok (flag, ps)) ->
  flag = true /\ admits sol w' /\ forall X, ~ In (X, sol X) ps.
Proof.
  intros sol newVar w w' flag ps Hsat Hadm H.
  unfold prop_FC, bind, gets in H.
  destruct (FC_cons_spec _ _ _ _ _ _ (FC_collect_single newVar w) H)
    as (ps1 & Hps & Hspec).
  simpl in Hps. subst ps1.
  apply (FC_spec_keeps sol _ _ _ _ _ Hspec); [| exact Hadm].
  intros con Hc. apply (FC_collect_incl newVar w) in Hc.
  split; [exact Hc | now apply Hsat].
Qed.

Lemma prop_FC_keeps_solutions_witness :
  cur_domain 4 grid2_first = [] /\
  snd (prop_FC (Some 0) grid2_first) = Ok (true, [(2, 1%Z); (1, 1%Z)]) /\
  admits grid2_sol (fst (prop_FC (Some 0) grid2_first)).
Proof.
  split; [vm_compute; reflexivity |].
  split; [vm_compute; reflexivity |].
  apply (prop_FC_keeps_solutions grid2_sol (Some 0) grid2_first _ true
           [(2, 1%Z); (1, 1%Z)]
           (grid2_sol_satisfies grid2_first grid2_first_csp)
           grid2_first_admitted grid2_first_FC).
Defined.

Lemma assigned_solution : forall sol c w,
  In c (get_all_cons w) ->
  get_n_unasgn c w = 0 ->
  admits sol w ->
  assigned_values c w = map Some (map sol (get_scope c)).
Proof.
  intros sol c w Hc Hn Hadm. unfold assigned_values. rewrite map_map.
  apply map_ext_in. intros Y HY.
  destruct (get_assigned_value Y w) as [a |] eqn:EA.
  - destruct (Hadm Y (csp_var_scope w c Y Hc HY)) as [_ Hasg].
    now rewrite (Hasg a EA).
  - exfalso. unfold get_n_unasgn in Hn. apply length_zero_iff_nil in Hn.
    assert (Hin : In Y (get_unasgn_vars c w)).
    { unfold get_unasgn_vars. apply filter_In. split; [exact HY |].
      unfold is_assigned. now rewrite EA. }
    rewrite Hn in Hin. destruct Hin.
Qed.

(** prop_BT never rejects the beginning of a solution: when the variables
    of the CSP assigned so far are assigned as some assignment that
    satisfies every constraint of the CSP says, prop_BT returns
    (True, []). *)
Theorem prop_BT_keeps_solutions : forall sol newVar w,
  satisfies sol w ->
  admits sol w ->
  prop_BT newVar w = (w, Ok (true, [])).
Proof.
  intros sol [V |] w Hsat Hadm; [| reflexivity].
  unfold prop_BT, bind, gets. rewrite BT_loop_spec.
  f_equal. f_equal. f_equal. unfold BT_verdict. apply forallb_forall.
  intros c Hc. apply cons_with_var_In in Hc as [Hc _].
  destruct (Nat.eqb (get_n_unasgn c w) 0) eqn:E; [| reflexivity].
  apply Nat.eqb_eq in E. simpl.
  rewrite (assigned_solution sol c w Hc E Hadm).
  apply check_solution. now apply Hsat.
Qed.

Lemma prop_BT_keeps_solutions_witness :
  cur_domain 4 grid2_row = [] /\
  prop_BT (Some 1) grid2_row = (grid2_row, Ok (true, [])).
Proof.
  split; [vm_compute; reflexivity |].
  apply (prop_BT_keeps_solutions grid2_sol (Some 1) grid2_row
           (grid2_sol_satisfies grid2_row grid2_row_csp) grid2_row_admitted).
Defined.

(* ------------------------------------------------------------------ *)
(** ** Failure of prop_GAC is a domain wipe-out *)
(* ------------------------------------------------------------------ *)

Lemma prune_keeps_nonempty : forall ps X0 v0 w w1,
  (forall X v, In (X, v) ps -> cur_domain X w <> []) ->
  prune_value X0 v0 w = (w1, Ok tt) ->
  cur_domain X0 w1 <> [] ->
  forall X v, In (X, v) (ps ++ [(X0, v0)]) -> cur_domain X w1 <> [].
Proof.
  intros ps X0 v0 w w1 Hps EP Hne X v Hin.
  apply prune_value_ok in EP as (_ & _ & Hother & _).
  destruct (Nat.eq_dec X X0) as [-> | HX]; [exact Hne |].
  apply in_app_or in Hin as [Hin | [E | []]].
  - unfold cur_domain. rewrite (Hother X HX). exact (Hps X v Hin).
  - injection E as E1 E2. congruence.
Qed.

Lemma GAC_vals_outcome : forall vals curr var que ps w w' r,
  (forall X v, In (X, v) ps -> cur_domain X w <> []) ->
  GAC_vals curr var vals que ps w = (w', Ok r) ->
  GAC_outcome w' r.
Proof.
  induction vals as [| val vals IH]; intros curr var que ps w w' r Hps H;
    simpl in H.
  - unfold ret in H. injection H as <- <-. exact Hps.
  - unfold bind at 1 in H. unfold gets at 1 in H.
    destruct (has_support curr var val w); cbn [negb] in H.
    + exact (IH curr var que ps w w' r Hps H).
    + unfold bind at 1 in H.
      destruct (prune_value var val w) as [w1 [[] | e]] eqn:EP; [| discriminate].
      unfold bind at 1 in H. unfold gets at 1 in H.
      destruct (cur_domain var w1) as [| d0 dom] eqn:ED.
      * unfold ret in H. injection H as <- <-. split; [reflexivity |].
        exists var, val, ps. split; [reflexivity | exact ED].
      * unfold bind at 1 in H. unfold gets at 1 in H.
        refine (IH curr var _ (ps ++ [(var, val)]) w1 w' r _ H).
        apply (prune_keeps_nonempty ps var val w w1 Hps EP).
        rewrite ED. discriminate.
Qed.

Lemma GAC_scope_outcome : forall vars curr que ps w w' r,
  (forall X v, In (X, v) ps -> cur_domain X w <> []) ->
  GAC_scope curr vars que ps w = (w', Ok r) ->
  GAC_outcome w' r.
Proof.
  induction vars as [| var vars IH]; intros curr que ps w w' r Hps H;
    simpl in H.
  - unfold ret in H. injection H as <- <-. exact Hps.
  - unfold bind at 1 in H. unfold gets at 1 in H. unfold bind at 1 in H.
    destruct (GAC_vals curr var (cur_domain var w) que ps w)
      as [w1 [r1 | e]] eqn:EV; [| discriminate].
    pose proof (GAC_vals_outcome _ _ _ _ _ _ _ _ Hps EV) as Hout.
    destruct r1 as [[que1 ps1] | out].
    + exact (IH curr que1 ps1 w1 w' r Hout H).
    + unfold ret in H. injection H as <- <-. exact Hout.
Qed.

Lemma GAC_loop_outcome : forall fuel que ps w w' flag ps',
  (forall X v, In (X, v) ps -> cur_domain X w <> []) ->
  GAC_loop fuel que ps w = Some (w', Ok (flag, ps')) ->
  (flag = true -> forall X v, In (X, v) ps' -> cur_domain X w' <> []) /\
  (flag = false ->
   exists X v ps0, ps' = ps0 ++ [(X, v)] /\ cur_domain X w' = []).
Proof.
  induction fuel as [| fuel IH]; intros que ps w w' flag ps' Hps H.
  - destruct que; simpl in H; [| discriminate].
    injection H as <- <- <-. split; [intros _; exact Hps | discriminate].
  - destruct que as [| curr rest]; simpl in H.
    + injection H as <- <- <-. split; [intros _; exact Hps | discriminate].
    + destruct (GAC_scope curr (get_scope curr) rest ps w)
        as [w1 [r | e]] eqn:ES; [| discriminate].
      pose proof (GAC_scope_outcome _ _ _ _ _ _ _ Hps ES) as Hout.
      destruct r as [[que1 ps1] | [flag1 ps1]].
      * exact (IH que1 ps1 w1 w' flag ps' Hout H).
      * injection H as <- <- <-. destruct Hout as [-> Hout].
        split; [discriminate | intros _; exact Hout].
Qed.

(** A call of prop_GAC that returns False has just emptied a current
    domain: the last pair of its prune list names a variable whose current
    domain is empty when the call returns.  A call that returns True leaves
    a value in the current domain of every variable it pruned. *)
Theorem prop_GAC_wipeout : forall newVar w w' flag ps,
  prop_GAC newVar w = (w', Ok (flag, ps)) ->
  (flag = false ->
   exists X v ps0, ps = ps0 ++ [(X, v)] /\ cur_domain X w' = []) /\
  (flag = true -> forall X v, In (X, v) ps -> cur_domain X w' <> []).
Proof.
  intros newVar w w' flag ps H.
  pose proof (prop_GAC_total newVar w) as HT. rewrite H in HT.
  unfold prop_GAC_fuel in HT.
  apply GAC_loop_outcome in HT; [tauto |].
  intros X v [].
Qed.

Lemma prop_GAC_wipeout_witness :
  exists w',
    prop_GAC None dwo_world = (w', Ok (false, [(dwo_A, 1%Z)])) /\
    exists X v ps0, [(dwo_A, 1%Z)] = ps0 ++ [(X, v)] /\ cur_domain X w' = [].
Proof.
  eexists. split; [reflexivity |].
  exact (proj1 (prop_GAC_wipeout None dwo_world _ false [(dwo_A, 1%Z)] eq_refl)
           eq_refl).
Defined.

(* ------------------------------------------------------------------ *)
(** ** prop_GAC prunes only values without support *)
(* ------------------------------------------------------------------ *)

Lemma replay_app : forall n1 n2 w w1,
  replay n1 w = (w1, Ok tt) -> replay (n1 ++ n2) w = replay n2 w1.
Proof.
  induction n1 as [| [Y u] n1 IH]; intros n2 w w1 H; simpl in H |- *.
  - unfold ret in H. now injection H as <-.
  - unfold bind in H |- *.
    destruct (prune_value Y u w) as [w0 [[] | e]]; [| discriminate].
    exact (IH n2 w0 w1 H).
Qed.

Lemma justified_app : forall n1 w w1 n2,
  justified w n1 -> replay n1 w = (w1, Ok tt) -> justified w1 n2 ->
  justified w (n1 ++ n2).
Proof.
  intros n1 w w1 n2 H. revert w1 n2.
  induction H as [w | w X v ps w0 c Hc HX Hs EP Hj IH]; intros w1 n2 Hr Hj2.
  - simpl in Hr. unfold ret in Hr. injection Hr as <-. exact Hj2.
  - simpl in Hr. unfold bind in Hr. rewrite EP in Hr. simpl.
    eapply justified_cons; [exact Hc | exact HX | exact Hs | exact EP |].
    exact (IH w1 n2 Hr Hj2).
Qed.

Lemma GAC_vals_justified : forall vals curr var que ps w w' r,
  In curr (get_all_cons w) -> In var (get_scope curr) ->
  GAC_vals curr var vals que ps w = (w', Ok r) ->
  exists news,
    replay news w = (w', Ok tt) /\ justified w news /\
    match r with
    | Next (_, ps') | Return (_, ps') => ps' = ps ++ news
    end.
Proof.
  induction vals as [| val vals IH]; intros curr var que ps w w' r Hc Hvar H;
    simpl in H.
  - unfold ret in H. injection H as <- <-. exists [].
    split; [reflexivity |]. split; [constructor | now rewrite app_nil_r].
  - unfold bind at 1 in H. unfold gets at 1 in H.
    destruct (has_support curr var val w) eqn:ES; cbn [negb] in H.
    + exact (IH curr var que ps w w' r Hc Hvar H).
    + unfold bind at 1 in H.
      destruct (prune_value var val w) as [w1 [[] | e]] eqn:EP; [| discriminate].
      pose proof (prune_value_ok _ _ _ _ EP) as (_ & _ & _ & HF).
      unfold bind at 1 in H. unfold gets at 1 in H.
      destruct (cur_domain var w1) as [| d0 dom] eqn:ED.
      * unfold ret in H. injection H as <- <-. exists [(var, val)].
        split; [simpl; unfold bind; now rewrite EP |].
        split; [| reflexivity].
        eapply justified_cons; [exact Hc | exact Hvar | exact ES | exact EP |].
        constructor.
      * unfold bind at 1 in H. unfold gets at 1 in H.
        assert (Hc1 : In curr (get_all_cons w1))
          by now rewrite (frame_cons _ _ HF).
        destruct (IH curr var _ (ps ++ [(var, val)]) w1 w' r Hc1 Hvar H)
          as (news & Hr & Hj & Hps).
        exists ((var, val) :: news).
        split; [simpl; unfold bind; now rewrite EP |].
        split;
          [eapply justified_cons;
             [exact Hc | exact Hvar | exact ES | exact EP | exact Hj] |].
        destruct r as [[q p] | [f p]]; rewrite Hps, <- app_assoc; reflexivity.
Qed.

Lemma GAC_scope_justified : forall vars curr que ps w w' r,
  In curr (get_all_cons w) -> incl vars (get_scope curr) ->
  GAC_scope curr vars que ps w = (w', Ok r) ->
  exists news,
    replay news w = (w', Ok tt) /\ justified w news /\
    match r with
    | Next (_, ps') | Return (_, ps') => ps' = ps ++ news
    end.
Proof.
  induction vars as [| var vars IH]; intros curr que ps w w' r Hc Hvars H;
    simpl in H.
  - unfold ret in H. injection H as <- <-. exists [].
    split; [reflexivity |]. split; [constructor | now rewrite app_nil_r].
  - unfold bind at 1 in H. unfold gets at 1 in H. unfold bind at 1 in H.
    destruct (GAC_vals curr var (cur_domain var w) que ps w)
      as [w1 [r1 | e]] eqn:EV; [| discriminate].
    destruct (GAC_vals_justified _ _ _ _ _ _ _ _ Hc
                (Hvars var (or_introl eq_refl)) EV) as (n1 & Hr1 & Hj1 & Hps1).
    destruct r1 as [[que1 ps1] | [f1 ps1]].
    + pose proof (replay_frame _ _ _ Hr1) as HF.
      assert (Hc1 : In curr (get_all_cons w1))
        by now rewrite (frame_cons _ _ HF).
      assert (Hvars1 : incl vars (get_scope curr))
        by (intros Y HY; apply Hvars; now right).
      destruct (IH curr que1 ps1 w1 w' r Hc1 Hvars1 H) as (n2 & Hr2 & Hj2 & Hps2).
      exists (n1 ++ n2).
      split; [now rewrite (replay_app n1 n2 w w1 Hr1) |].
      split; [exact (justified_app n1 w w1 n2 Hj1 Hr1 Hj2) |].
      destruct r as [[q p] | [f p]]; rewrite Hps2, Hps1, app_assoc; reflexivity.
    + unfold ret in H. injection H as <- <-. exists n1.
      split; [exact Hr1 |]. split; [exact Hj1 | exact Hps1].
Qed.

Lemma GAC_loop_justified : forall fuel que ps w w' flag ps',
  incl que (get_all_cons w) ->
  GAC_loop fuel que ps w = Some (w', Ok (flag, ps')) ->
  exists news,
    replay news w = (w', Ok tt) /\ justified w news /\ ps' = ps ++ news.
Proof.
  induction fuel as [| fuel IH]; intros que ps w w' flag ps' Hincl H.
  - destruct que; simpl in H; [| discriminate].
    injection H as <- <- <-. exists [].
    split; [reflexivity |]. split; [constructor | now rewrite app_nil_r].
  - destruct que as [| curr rest]; simpl in H.
    + injection H as <- <- <-. exists [].
      split; [reflexivity |]. split; [constructor | now rewrite app_nil_r].
    + assert (Hcurr : In curr (get_all_cons w)) by (apply Hincl; now left).
      destruct (GAC_scope curr (get_scope curr) rest ps w)
        as [w1 [r | e]] eqn:ES; [| discriminate].
      destruct (GAC_scope_justified _ _ _ _ _ _ _ Hcurr (incl_refl _) ES)
        as (n1 & Hr1 & Hj1 & Hps1).
      destruct r as [[que1 ps1] | [f1 ps1]].
      * assert (Hincl1 : incl que1 (get_all_cons w1)).
        { rewrite (frame_cons _ _ (replay_frame _ _ _ Hr1)).
          eapply GAC_scope_que_incl; [| exact ES].
          intros d Hd. apply Hincl. now right. }
        destruct (IH que1 ps1 w1 w' flag ps' Hincl1 H) as (n2 & Hr2 & Hj2 & Hps2).
        exists (n1 ++ n2).
        split; [now rewrite (replay_app n1 n2 w w1 Hr1) |].
        split; [exact (justified_app n1 w w1 n2 Hj1 Hr1 Hj2) |].
        now rewrite Hps2, Hps1, app_assoc.
      * injection H as <- <- <-. exists n1.
        split; [exact Hr1 |]. split; [exact Hj1 | exact Hps1].
Qed.

(** prop_GAC prunes only values without support: every pair of the prune
    list, at the moment it was pruned, was a value that a constraint of the
    CSP over its variable did not support, given the prunes before it. *)
Theorem prop_GAC_prunes_unsupported : forall newVar w w' flag ps,
  prop_GAC newVar w = (w', Ok (flag, ps)) ->
  justified w ps.
Proof.
  intros newVar w w' flag ps H.
  pose proof (prop_GAC_total newVar w) as HT. rewrite H in HT.
  unfold prop_GAC_fuel in HT.
  destruct (GAC_loop_justified _ _ _ _ _ _ _ (GAC_init_incl newVar w) HT)
    as (news & _ & Hj & ->).
  exact Hj.
Qed.

Lemma prop_GAC_prunes_unsupported_witness :
  exists w',
    prop_GAC None chain_world = (w', Ok (true, [(1, 1%Z); (2, 2%Z)])) /\
    justified chain_world [(1, 1%Z); (2, 2%Z)].
Proof.
  eexists. split; [reflexivity |].
  exact (prop_GAC_prunes_unsupported None chain_world _ true
           [(1, 1%Z); (2, 2%Z)] eq_refl).
Defined.

(* ------------------------------------------------------------------ *)
(** ** prop_GAC after a variable was assigned, and on a fixed point *)
(* ------------------------------------------------------------------ *)

Lemma GAC_init_inv : forall V w,
  (forall c, In c (get_all_cons w) -> ~ In V (get_scope c) -> gac_ok c w) ->
  gac_inv (GAC_init (Some V) w) w.
Proof.
  intros V w Hrest c Hc. simpl.
  destruct (in_scope V c) eqn:E.
  - left. apply cons_with_var_In. split; [exact Hc |]. now apply in_scope_In.
  - right. apply Hrest; [exact Hc |]. intros HV. apply in_scope_In in HV.
    congruence.
Qed.

(** prop_GAC called with a variable V re-establishes arc consistency when
    only the constraints over V can have lost it: if every constraint whose
    scope does not contain V is arc consistent before the call and the call
    returns True, every constraint of the CSP is arc consistent after it. *)
Theorem prop_GAC_incremental : forall V w w' ps,
  (forall c, In c (get_all_cons w) -> ~ In V (get_scope c) -> gac_ok c w) ->
  prop_GAC (Some V) w = (w', Ok (true, ps)) ->
  forall C, In C (get_all_cons w') -> gac_ok C w'.
Proof.
  intros V w w' ps Hrest H C HC.
  pose proof (prop_GAC_total (Some V) w) as HT. rewrite H in HT.
  unfold prop_GAC_fuel in HT.
  destruct (GAC_loop_sound _ _ _ _ _ _ (GAC_init_inv V w Hrest) HT C HC)
    as [[] | Hok].
  exact Hok.
Qed.

Lemma chain_c2_ok : forall c,
  In c (get_all_cons chain_world) -> ~ In 0 (get_scope c) -> gac_ok c chain_world.
Proof.
  intros c [<- | [<- | []]] HV.
  - exfalso. apply HV. now left.
  - intros X v [<- | [<- | []]] [<- | [<- | []]]; reflexivity.
Qed.

Lemma prop_GAC_incremental_witness :
  exists w',
    prop_GAC (Some 0) chain_world = (w', Ok (true, [(1, 1%Z); (2, 2%Z)])) /\
    forall C, In C (get_all_cons w') -> gac_ok C w'.
Proof.
  eexists. split; [reflexivity |].
  exact (prop_GAC_incremental 0 chain_world _ [(1, 1%Z); (2, 2%Z)]
           chain_c2_ok eq_refl).
Defined.

Lemma GAC_vals_noop : forall vals curr var que ps w,
  (forall v, In v vals -> has_support curr var v w = true) ->
  GAC_vals curr var vals que ps w = (w, Ok (Next (que, ps))).
Proof.
  induction vals as [| val vals IH]; intros curr var que ps w Hall; simpl.
  - reflexivity.
  - unfold bind at 1. unfold gets at 1.
    rewrite (Hall val (or_introl eq_refl)). cbn [negb].
    apply IH. intros v Hv. apply Hall. now right.
Qed.

Lemma GAC_scope_noop : forall vars curr que ps w,
  (forall X v, In X vars -> In v (cur_domain X w) ->
               has_support curr X v w = true) ->
  GAC_scope curr vars que ps w = (w, Ok (Next (que, ps))).
Proof.
  induction vars as [| var vars IH]; intros curr que ps w Hall; simpl.
  - reflexivity.
  - unfold bind at 1. unfold gets at 1. unfold bind at 1.
    rewrite (GAC_vals_noop (cur_domain var w) curr var que ps w
               (fun v Hv => Hall var v (or_introl eq_refl) Hv)).
    apply IH. intros X v HX Hv. apply Hall; [now right | exact Hv].
Qed.

Lemma GAC_loop_noop : forall que fuel ps w,
  (forall c, In c que -> gac_ok c w) ->
  List.length que <= fuel ->
  GAC_loop fuel que ps w = Some (w, Ok (true, ps)).
Proof.
  induction que as [| curr que IH]; intros fuel ps w Hok Hlen.
  - destruct fuel; reflexivity.
  - destruct fuel as [| fuel]; [simpl in Hlen; lia |]. simpl.
    rewrite (GAC_scope_noop (get_scope curr) curr que ps w
               (Hok curr (or_introl eq_refl))).
    apply IH; [| simpl in Hlen; lia].
    intros c Hc. apply Hok. now right.
Qed.

(** On arc-consistent constraints prop_GAC does nothing: when every
    constraint of its initial worklist is arc consistent, the call returns
    (True, []) and leaves every object as it was. *)
Theorem prop_GAC_fixed_point : forall newVar w,
  (forall c, In c (GAC_init newVar w) -> gac_ok c w) ->
  prop_GAC newVar w = (w, Ok (true, [])).
Proof.
  intros newVar w Hok. symmetry.
  apply (prop_GAC_fuel_agrees (List.length (GAC_init newVar w)) newVar w).
  unfold prop_GAC_fuel. apply GAC_loop_noop; [exact Hok | lia].
Qed.

Lemma chain_fixed_ok : forall c,
  In c (GAC_init (Some 1) chain_fixed) -> gac_ok c chain_fixed.
Proof.
  intros c [<- | [<- | []]] X v [<- | [<- | []]] Hv; vm_compute in Hv;
    repeat (destruct Hv as [<- | Hv]; [reflexivity |]); destruct Hv.
Qed.

Lemma prop_GAC_fixed_point_witness :
  prop_GAC (Some 1) chain_fixed = (chain_fixed, Ok (true, [])).
Proof.
  exact (prop_GAC_fixed_point (Some 1) chain_fixed chain_fixed_ok).
Defined.

(** prop_GAC is idempotent: after a call without a newly assigned variable
    has returned True, a second call, with or without a variable, returns
    (True, []) and changes nothing. *)
Theorem prop_GAC_idempotent : forall w w' ps newVar,
  prop_GAC None w = (w', Ok (true, ps)) ->
  prop_GAC newVar w' = (w', Ok (true, [])).
Proof.
  intros w w' ps newVar H.
  pose proof (prop_GAC_total None w) as HT. rewrite H in HT.
  symmetry.
  apply (prop_GAC_fuel_agrees (List.length (GAC_init newVar w')) newVar w').
  unfold prop_GAC_fuel. apply GAC_loop_noop; [| lia].
  intros c Hc X v HX Hv.
  apply (GAC_rounds_sound _ _ _ _ HT c X v); trivial.
  now apply (GAC_init_incl newVar w').
Qed.

Lemma prop_GAC_idempotent_witness :
  exists w',
    prop_GAC None chain_world = (w', Ok (true, [(1, 1%Z); (2, 2%Z)])) /\
    prop_GAC (Some 1) w' = (w', Ok (true, [])).
Proof.
  eexists. split; [reflexivity |].
  exact (prop_GAC_idempotent chain_world _ [(1, 1%Z); (2, 2%Z)] (Some 1) eq_refl).
Defined.

(* ------------------------------------------------------------------ *)
(** ** prop_FC prunes only values without support *)
(* ------------------------------------------------------------------ *)

Lemma unasgn_single : forall con U w Y,
  get_unasgn_vars con w = [U] -> In Y (get_scope con) -> Y <> U ->
  is_assigned Y w = true.
Proof.
  intros con U w Y HU HY Hne.
  destruct (is_assigned Y w) eqn:E; [reflexivity |]. exfalso. apply Hne.
  assert (Hin : In Y (get_unasgn_vars con w)).
  { unfold get_unasgn_vars. apply filter_In. split; [exact HY |]. now rewrite E. }
  rewrite HU in Hin. destruct Hin as [<- | []]. reflexivity.
Qed.

Lemma unasgn_single_scope : forall con U w,
  get_unasgn_vars con w = [U] -> In U (get_scope con).
Proof.
  intros con U w HU.
  assert (Hin : In U (get_unasgn_vars con w)) by (rewrite HU; now left).
  unfold get_unasgn_vars in Hin. now apply filter_In in Hin as [Hin _].
Qed.

Lemma tuple_supports_probe : forall w U v scope t,
  (forall Y, In Y scope -> Y <> U -> is_assigned Y w = true) ->
  tuple_supports w U v scope t =
  vals_eqb t (map (fun Y => if Nat.eqb Y U then Some v
                            else get_assigned_value Y w) scope).
Proof.
  intros w U v scope. induction scope as [| Y scope IH]; intros t Hasg.
  - destruct t; reflexivity.
  - destruct t as [| u t]; [reflexivity |]. cbn [tuple_supports map].
    rewrite IH by (intros Z HZ; apply Hasg; now right).
    destruct (Nat.eqb Y U) eqn:E; [reflexivity |].
    apply Nat.eqb_neq in E.
    pose proof (Hasg Y (or_introl eq_refl) E) as HY.
    unfold is_assigned in HY. unfold in_cur_domain.
    destruct (get_assigned_value Y w); [reflexivity | discriminate].
Qed.

(** On a constraint with a single unassigned variable the probe of prop_FC
    and [has_support] agree. *)
Lemma probe_support : forall con U v w,
  get_unasgn_vars con w = [U] ->
  has_support con U v w = check con (probe_vals con U v w).
Proof.
  intros con U v w HU. unfold has_support, check, probe_vals.
  pose proof (unasgn_single_scope con U w HU) as Hin.
  apply in_scope_In in Hin. unfold in_scope in Hin. rewrite Hin. simpl.
  induction (sat_tuples con) as [| t l IH]; simpl; [reflexivity |].
  rewrite IH. f_equal. apply tuple_supports_probe.
  intros Y HY Hne. exact (unasgn_single con U w Y HU HY Hne).
Qed.

Lemma replay_justified : forall ps w w',
  replay ps w = (w', Ok tt) ->
  (forall X v, In (X, v) ps ->
     exists c, In c (get_all_cons w) /\ In X (get_scope c) /\
               forall w1, frame w w1 -> has_support c X v w1 = false) ->
  justified w ps.
Proof.
  induction ps as [| [Y u] ps IH]; intros w w' Hr Hall; [constructor |].
  simpl in Hr. unfold bind in Hr.
  destruct (prune_value Y u w) as [w1 [[] | e]] eqn:EP; [| discriminate].
  pose proof (prune_value_ok _ _ _ _ EP) as (_ & _ & _ & HF).
  destruct (Hall Y u (or_introl eq_refl)) as (c & Hc & HY & Hs).
  eapply justified_cons;
    [exact Hc | exact HY | exact (Hs w (frame_refl w)) | exact EP |].
  apply (IH w1 w' Hr). intros X v Hin.
  destruct (Hall X v (or_intror Hin)) as (d & Hd & HX & Hsd).
  exists d. split; [now rewrite (frame_cons _ _ HF) |]. split; [exact HX |].
  intros w2 HF2. apply Hsd. exact (frame_trans _ _ _ HF HF2).
Qed.

Lemma FC_spec_pairs : forall lst w flag ps w',
  FC_spec lst w flag ps w' ->
  forall X v, In (X, v) ps ->
    exists con, In con lst /\ get_unasgn_vars con w = [X] /\
                check con (probe_vals con X v w) = false.
Proof.
  intros lst w flag ps w' H.
  induction H as [w w' Hweq
                 | con lst U w w' HU Hpr Hsurv
                 | con lst U w w1 flag ps w' HU Hpr Hsurv Hrest IH];
    intros X v Hin.
  - destruct Hin.
  - apply in_map_iff in Hin as (u & E & Hu). injection E as E1 E2. subst X u.
    exists con. split; [now left |]. split; [exact HU |].
    unfold failing in Hu. apply filter_In in Hu as [_ Hu].
    now apply negb_true_iff in Hu.
  - apply in_app_or in Hin as [Hin | Hin].
    + apply in_map_iff in Hin as (u & E & Hu). injection E as E1 E2. subst X u.
      exists con. split; [now left |]. split; [exact HU |].
      unfold failing in Hu. apply filter_In in Hu as [_ Hu].
      now apply negb_true_iff in Hu.
    + destruct (IH X v Hin) as (d & Hd & HUd & Hck).
      pose proof (pruned_to_frame _ _ _ _ Hpr) as HF.
      exists d. split; [now right |].
      rewrite <- (frame_unasgn_vars _ _ d HF). split; [exact HUd |].
      now rewrite <- (probe_vals_frame d X v w w1 HF).
Qed.

(** prop_FC prunes only values without support: every pair of the prune
    list, at the moment it was pruned, was a value that a constraint of the
    CSP over its variable did not support. *)
Theorem prop_FC_prunes_unsupported : forall newVar w w' flag ps,
  prop_FC newVar w = (w', Ok (flag, ps)) ->
  justified w ps.
Proof.
  intros newVar w w' flag ps H.
  assert (Ht : tracks w ps w').
  { unfold prop_FC, bind, gets in H.
    exact (FC_cons_tracks _ _ _ _ _ _ _ _ (tracks_start w) H). }
  destruct Ht as (wr & Hr & _).
  apply (replay_justified ps w wr Hr). intros X v Hin.
  unfold prop_FC, bind, gets in H.
  destruct (FC_cons_spec _ _ _ _ _ _ (FC_collect_single newVar w) H)
    as (ps1 & Hps & Hspec).
  simpl in Hps. subst ps1.
  destruct (FC_spec_pairs _ _ _ _ _ Hspec X v Hin) as (con & Hc & HU & Hck).
  exists con. split; [now apply (FC_collect_incl newVar w) |].
  split; [exact (unasgn_single_scope con X w HU) |].
  intros w1 HF.
  rewrite probe_support by now rewrite (frame_unasgn_vars _ _ con HF).
  now rewrite (probe_vals_frame con X v w w1 HF).
Qed.

Lemma prop_FC_prunes_unsupported_witness :
  exists w',
    prop_FC (Some 0) asg_world = (w', Ok (true, [(1, 1%Z)])) /\
    justified asg_world [(1, 1%Z)].
Proof.
  eexists. split; [reflexivity |].
  exact (prop_FC_prunes_unsupported (Some 0) asg_world _ true [(1, 1%Z)] eq_refl).
Defined.

(* ------------------------------------------------------------------ *)
(** ** What the verdict of prop_FC says about the current domains *)
(* ------------------------------------------------------------------ *)

Lemma FC_spec_frame : forall lst w flag ps w',
  FC_spec lst w flag ps w' -> frame w w'.
Proof.
  intros lst w flag ps w' H.
  induction H as [w w' Hweq
                 | con lst U w w' HU Hpr Hsurv
                 | con lst U w w1 flag ps w' HU Hpr Hsurv Hrest IH].
  - now apply weq_frame.
  - exact (pruned_to_frame _ _ _ _ Hpr).
  - exact (frame_trans _ _ _ (pruned_to_frame _ _ _ _ Hpr) IH).
Qed.

Lemma pruned_to_failing : forall con U w w1 v,
  pruned_to U (failing con U w) w w1 ->
  (In v (cur_domain U w1) <-> In v (surviving con U w)).
Proof.
  intros con U w w1 v (_ & _ & _ & _ & _ & _ & _ & Hcd).
  unfold cur_domain. rewrite Hcd. unfold surviving, failing.
  rewrite !filter_In. fold (cur_domain U w). split.
  - intros [Hin Hnot]. split; [exact Hin |].
    apply negb_true_iff, in_dom_false in Hnot.
    destruct (check con (probe_vals con U v w)) eqn:E; [reflexivity |].
    exfalso. apply Hnot. apply filter_In. split; [exact Hin | now rewrite E].
  - intros [Hin Hck]. split; [exact Hin |].
    apply negb_true_iff, in_dom_false. intros Hf.
    apply filter_In in Hf as [_ Hf]. rewrite Hck in Hf. discriminate.
Qed.

Lemma FC_spec_failure : forall lst w flag ps w',
  FC_spec lst w flag ps w' -> flag = false ->
  exists con U, In con lst /\ get_unasgn_vars con w = [U] /\
                cur_domain U w' = [].
Proof.
  intros lst w flag ps w' H.
  induction H as [w w' Hweq
                 | con lst U w w' HU Hpr Hsurv
                 | con lst U w w1 flag ps w' HU Hpr Hsurv Hrest IH];
    intros Hflag.
  - discriminate.
  - exists con, U. split; [now left |]. split; [exact HU |].
    destruct (cur_domain U w') as [| v l] eqn:E; [reflexivity |].
    exfalso.
    assert (Hin : In v (surviving con U w)).
    { apply (pruned_to_failing con U w w' v Hpr). rewrite E. now left. }
    rewrite Hsurv in Hin. destruct Hin.
  - destruct (IH Hflag) as (d & V & Hd & HV & Hempty).
    exists d, V. split; [now right |]. split; [| exact Hempty].
    now rewrite <- (frame_unasgn_vars _ _ d (pruned_to_frame _ _ _ _ Hpr)).
Qed.

Lemma FC_spec_success : forall lst w flag ps w',
  FC_spec lst w flag ps w' -> flag = true ->
  (forall Y, cur_domain Y w <> [] -> cur_domain Y w' <> []) /\
  (forall con, In con lst ->
     exists U, get_unasgn_vars con w = [U] /\ cur_domain U w' <> [] /\
               forall v, In v (cur_domain U w') ->
                         check con (probe_vals con U v w') = true).
Proof.
  intros lst w flag ps w' H.
  induction H as [w w' Hweq
                 | con lst U w w' HU Hpr Hsurv
                 | con lst U w w1 flag ps w' HU Hpr Hsurv Hrest IH];
    intros Hflag.
  - split; [| intros con []].
    intros Y HY. destruct Hweq as (_ & _ & _ & Hv).
    unfold cur_domain. now rewrite Hv.
  - discriminate.
  - destruct (IH Hflag) as (Hkeep & Hcons).
    pose proof (pruned_to_frame _ _ _ _ Hpr) as HF.
    pose proof (FC_spec_frame _ _ _ _ _ Hrest) as HF1.
    assert (HU1 : cur_domain U w1 <> []).
    { destruct (surviving con U w) as [| v l] eqn:E; [contradiction |].
      intros Hempty.
      assert (Hin : In v (cur_domain U w1)).
      { apply (pruned_to_failing con U w w1 v Hpr). rewrite E. now left. }
      rewrite Hempty in Hin. destruct Hin. }
    split.
    + intros Y HY. apply Hkeep.
      destruct (Nat.eq_dec Y U) as [-> | Hne]; [exact HU1 |].
      destruct Hpr as (_ & _ & _ & Hother & _).
      unfold cur_domain. now rewrite (Hother Y Hne).
    + intros c [<- | Hc].
      * exists U. split; [exact HU |]. split; [exact (Hkeep U HU1) |].
        intros v Hv.
        rewrite (probe_vals_frame con U v w w' (frame_trans _ _ _ HF HF1)).
        apply (frame_curdom w1 w' U v HF1) in Hv.
        apply (pruned_to_failing con U w w1 v Hpr) in Hv.
        unfold surviving in Hv. now apply filter_In in Hv as [_ Hv].
      * destruct (Hcons c Hc) as (V & HV & Hne & Hck).
        exists V. split; [| split; assumption].
        now rewrite <- (frame_unasgn_vars _ _ c HF).
Qed.

(** The verdict of prop_FC read on the current domains.  A call that
    returns False has emptied, or found empty, the current domain of the
    single unassigned variable of a constraint it collected.  A call that
    returns True leaves every collected constraint forward checked: its
    single unassigned variable keeps a value, every value it keeps passes
    [check] beside the assigned values of the rest of the scope, and no
    current domain that held a value before the call is empty after it. *)
Theorem prop_FC_verdict : forall newVar w w' flag ps,
  prop_FC newVar w = (w', Ok (flag, ps)) ->
  (flag = false ->
   exists con U, In con (FC_collect newVar w) /\
                 get_unasgn_vars con w = [U] /\ cur_domain U w' = []) /\
  (flag = true ->
   (forall Y, cur_domain Y w <> [] -> cur_domain Y w' <> []) /\
   forall con, In con (FC_collect newVar w) ->
     exists U, get_unasgn_vars con w = [U] /\ cur_domain U w' <> [] /\
               forall v, In v (cur_domain U w') ->
                         check con (probe_vals con U v w') = true).
Proof.
  intros newVar w w' flag ps H.
  unfold prop_FC, bind, gets in H.
  destruct (FC_cons_spec _ _ _ _ _ _ (FC_collect_single newVar w) H)
    as (ps1 & Hps & Hspec).
  split; intros Hflag.
  - exact (FC_spec_failure _ _ _ _ _ Hspec Hflag).
  - exact (FC_spec_success _ _ _ _ _ Hspec Hflag).
Qed.

Lemma prop_FC_verdict_witness :
  exists w',
    prop_FC (Some 0) asg_world = (w', Ok (true, [(1, 1%Z)])) /\
    forall con, In con (FC_collect (Some 0) asg_world) ->
      exists U, get_unasgn_vars con asg_world = [U] /\ cur_domain U w' <> [] /\
                forall v, In v (cur_domain U w') ->
                          check con (probe_vals con U v w') = true.
Proof.
  eexists. split; [reflexivity |].
  exact (proj2 (proj2 (prop_FC_verdict (Some 0) asg_world _ true [(1, 1%Z)]
                         eq_refl) eq_refl)).
Defined.

Lemma prop_FC_returns_witness :
  exists w' flag ps, prop_FC (Some 0) asg_world = (w', Ok (flag, ps)).
Proof.
  apply (prop_FC_returns (Some 0) asg_world); [discriminate |].
  intros [| [| X]]; simpl; repeat constructor; simpl; intuition discriminate.
Defined.

(* ------------------------------------------------------------------ *)
(** ** prop_GAC raises nothing *)
(* ------------------------------------------------------------------ *)

Lemma prune_value_NoDup : forall X v w w1,
  (forall Y, NoDup (cur_domain Y w)) ->
  prune_value X v w = (w1, Ok tt) ->
  forall Y, NoDup (cur_domain Y w1).
Proof.
  intros X v w w1 Hnd EP Y.
  apply prune_value_ok in EP as (_ & Hd & Hother & _).
  destruct (Nat.eq_dec Y X) as [-> | Hne].
  - rewrite Hd, remove_as_filter. apply NoDup_filter, Hnd.
  - unfold cur_domain. rewrite (Hother Y Hne). apply Hnd.
Qed.

Lemma GAC_vals_returns : forall vals curr var que ps w,
  (forall X, NoDup (cur_domain X w)) ->
  NoDup vals ->
  incl vals (cur_domain var w) ->
  exists w' r, GAC_vals curr var vals que ps w = (w', Ok r) /\
               forall X, NoDup (cur_domain X w').
Proof.
  induction vals as [| val vals IH]; intros curr var que ps w Hnd Hvals Hincl.
  - exists w. eexists. split; [reflexivity | exact Hnd].
  - inversion Hvals as [| ? ? Hnotin Hvals']; subst.
    cbn [GAC_vals]. unfold bind at 1. unfold gets at 1.
    destruct (has_support curr var val w); cbn [negb].
    + apply IH; trivial. intros x Hx. apply Hincl. now right.
    + assert (Hval : In val (cur_domain var w)) by (apply Hincl; now left).
      assert (EP : exists w1, prune_value var val w = (w1, Ok tt)).
      { unfold prune_value. unfold cur_domain in Hval.
        apply in_dom_In in Hval. rewrite Hval. eexists. reflexivity. }
      destruct EP as (w1 & EP). unfold bind at 1. rewrite EP.
      pose proof (prune_value_NoDup var val w w1 Hnd EP) as Hnd1.
      pose proof (prune_value_ok _ _ _ _ EP) as (_ & Hd & _ & _).
      unfold bind at 1. unfold gets at 1.
      destruct (cur_domain var w1) as [| d0 dom] eqn:ED.
      * exists w1. eexists. split; [reflexivity | exact Hnd1].
      * unfold bind at 1. unfold gets at 1.
        apply IH; trivial.
        rewrite ED, Hd. intros x Hx. apply in_in_remove.
        -- intros ->. contradiction.
        -- apply Hincl. now right.
Qed.

Lemma GAC_scope_returns : forall vars curr que ps w,
  (forall X, NoDup (cur_domain X w)) ->
  exists w' r, GAC_scope curr vars que ps w = (w', Ok r) /\
               forall X, NoDup (cur_domain X w').
Proof.
  induction vars as [| var vars IH]; intros curr que ps w Hnd.
  - exists w. eexists. split; [reflexivity | exact Hnd].
  - cbn [GAC_scope]. unfold bind at 1. unfold gets at 1. unfold bind at 1.
    destruct (GAC_vals_returns (cur_domain var w) curr var que ps w Hnd
                (Hnd var) (incl_refl _)) as (w1 & r1 & EV & Hnd1).
    rewrite EV. destruct r1 as [[que1 ps1] | out].
    + apply IH. exact Hnd1.
    + exists w1. eexists. split; [reflexivity | exact Hnd1].
Qed.

Lemma GAC_loop_returns : forall fuel que ps w w' r,
  (forall X, NoDup (cur_domain X w)) ->
  GAC_loop fuel que ps w = Some (w', r) ->
  exists out, r = Ok out.
Proof.
  induction fuel as [| fuel IH]; intros que ps w w' r Hnd H.
  - destruct que; simpl in H; [| discriminate].
    injection H as _ <-. eexists. reflexivity.
  - destruct que as [| curr rest]; simpl in H.
    + injection H as _ <-. eexists. reflexivity.
    + destruct (GAC_scope_returns (get_scope curr) curr rest ps w Hnd)
        as (w1 & r1 & ES & Hnd1).
      rewrite ES in H. destruct r1 as [[que1 ps1] | out].
      * exact (IH que1 ps1 w1 w' r Hnd1 H).
      * injection H as _ <-. eexists. reflexivity.
Qed.

(** prop_GAC raises nothing: when no current domain holds a value twice,
    every call returns a pair of a flag and a prune list. *)
Theorem prop_GAC_returns : forall newVar w,
  (forall X, NoDup (cur_domain X w)) ->
  exists w' flag ps, prop_GAC newVar w = (w', Ok (flag, ps)).
Proof.
  intros newVar w Hnd.
  pose proof (prop_GAC_total newVar w) as HT. unfold prop_GAC_fuel in HT.
  destruct (prop_GAC newVar w) as [w' r].
  destruct (GAC_loop_returns _ _ _ _ _ _ Hnd HT) as ([flag ps] & ->).
  exists w', flag, ps. reflexivity.
Qed.

Lemma prop_GAC_returns_witness :
  exists w' flag ps, prop_GAC None chain_world = (w', Ok (flag, ps)).
Proof.
  apply (prop_GAC_returns None chain_world).
  intros [| [| X]]; simpl; repeat constructor; simpl; intuition discriminate.
Defined.

(* ================================================================== *)
(** * Further properties of the grid models *)
(* ================================================================== *)

(* ------------------------------------------------------------------ *)
(** ** The variables of init_board *)
(* ------------------------------------------------------------------ *)

(** One row of init_board, with the objects it leaves. *)
Lemma init_board_row_vars : forall n i dom k j0 pre row post w,
  List.length pre = i ->
  exists w',
    foldM (fun var_array j =>
             v <- new_Variable (str (n - i) ++ str (j + 1)) dom ;;
             match append_at var_array i v with
             | Some var_array' => add_var v ;;; ret var_array'
             | None => raise IndexError
             end) (seq j0 k) (pre ++ row :: post) w =
    (w', Ok (pre ++ (row ++ seq (w_nvar w) k) :: post)) /\
    w_nvar w' = w_nvar w + k /\
    w_ncon w' = w_ncon w /\
    w_csp w' = mkCSP (csp_name (w_csp w)) (csp_vars (w_csp w) ++ seq (w_nvar w) k)
                     (csp_cons (w_csp w)) /\
    (forall Y, Y < w_nvar w \/ w_nvar w + k <= Y -> w_var w' Y = w_var w Y) /\
    (forall t, t < k ->
       w_var w' (w_nvar w + t) =
       mkVar (str (n - i) ++ str (j0 + t + 1)) dom dom None).
Proof.
  intros n i dom.
  set (body := fun (var_array : list (list Var)) (j : nat) =>
                 v <- new_Variable (str (n - i) ++ str (j + 1)) dom ;;
                 match append_at var_array i v with
                 | Some var_array' => add_var v ;;; ret var_array'
                 | None => raise IndexError
                 end).
  induction k as [| k IH]; intros j0 pre row post w Hlen.
  - exists w. simpl. rewrite !app_nil_r, Nat.add_0_r.
    split; [reflexivity |]. split; [reflexivity |]. split; [reflexivity |].
    split; [now destruct (w_csp w) |]. split; [reflexivity | intros t Ht; lia].
  - set (w1 := mkWorld (mkCSP (csp_name (w_csp w))
                              (csp_vars (w_csp w) ++ [w_nvar w])
                              (csp_cons (w_csp w)))
                       (fun Y => if Nat.eqb Y (w_nvar w)
                                 then mkVar (str (n - i) ++ str (j0 + 1)) dom dom None
                                 else w_var w Y)
                       (S (w_nvar w)) (w_ncon w)).
    assert (Hstep : body (pre ++ row :: post) j0 w =
                    (w1, Ok (pre ++ (row ++ [w_nvar w]) :: post))).
    { unfold body, bind, new_Variable. cbn beta iota.
      pose proof (append_at_mid pre row post (w_nvar w)) as Ha.
      rewrite Hlen in Ha. rewrite Ha. reflexivity. }
    destruct (IH (S j0) pre (row ++ [w_nvar w]) post w1 Hlen)
      as (w' & Hrun & Hnv & Hnc & Hcsp & Hout & Hin).
    exists w'. cbn [seq foldM]. unfold bind at 1. rewrite Hstep, Hrun.
    subst w1. cbn [w_nvar w_ncon w_csp w_var csp_name csp_vars csp_cons] in *.
    split; [now rewrite <- app_assoc |].
    split; [lia |]. split; [exact Hnc |].
    split; [now rewrite Hcsp, <- app_assoc |]. split.
    + intros Y HY. rewrite Hout by lia.
      destruct (Nat.eqb Y (w_nvar w)) eqn:E; [| reflexivity].
      apply Nat.eqb_eq in E. lia.
    + intros [| t] Ht.
      * rewrite Nat.add_0_r, Hout by lia. now rewrite Nat.eqb_refl, Nat.add_0_r.
      * replace (w_nvar w + S t) with (S (w_nvar w) + t) by lia.
        rewrite Hin by lia. do 3 f_equal. lia.
Qed.

Lemma init_board_rows_vars : forall n dom k done w,
  exists w',
    foldM (fun var_array i =>
             foldM (fun var_array j =>
                      v <- new_Variable (str (n - i) ++ str (j + 1)) dom ;;
                      match append_at var_array i v with
                      | Some var_array' => add_var v ;;; ret var_array'
                      | None => raise IndexError
                      end) (range 0 n) var_array)
          (seq (List.length done) k) (done ++ repeat [] k) w =
    (w', Ok (done ++ map (fun r => seq (w_nvar w + (r - List.length done) * n) n)
                         (seq (List.length done) k))) /\
    w_nvar w' = w_nvar w + k * n /\
    w_ncon w' = w_ncon w /\
    w_csp w' = mkCSP (csp_name (w_csp w))
                     (csp_vars (w_csp w) ++ seq (w_nvar w) (k * n))
                     (csp_cons (w_csp w)) /\
    (forall Y, Y < w_nvar w \/ w_nvar w + k * n <= Y -> w_var w' Y = w_var w Y) /\
    (forall r j, r < k -> j < n ->
       w_var w' (w_nvar w + r * n + j) =
       mkVar (str (n - (List.length done + r)) ++ str (j + 1)) dom dom None).
Proof.
  intros n dom k. induction k as [| k IH]; intros done w.
  - exists w. simpl. rewrite !app_nil_r, Nat.add_0_r.
    split; [reflexivity |]. split; [reflexivity |]. split; [reflexivity |].
    split; [now destruct (w_csp w) |]. split; [reflexivity | intros r j Hr; lia].
  - destruct (init_board_row_vars n (List.length done) dom n 0
                                  done [] (repeat [] k) w eq_refl)
      as (w1 & Hrow & Hn1 & Hm1 & Hc1 & Hout1 & Hin1).
    simpl app in Hrow.
    destruct (IH (done ++ [seq (w_nvar w) n]) w1)
      as (w' & Hrun & Hnv & Hnc & Hcsp & Hout & Hin).
    rewrite length_app in Hrun, Hin. simpl List.length in Hrun, Hin.
    rewrite Nat.add_1_r, <- app_assoc in Hrun. simpl app in Hrun.
    exists w'. split; [| split; [| split; [| split; [| split]]]].
    + cbn [seq repeat foldM]. unfold bind at 1.
      rewrite range_0 in *. rewrite Hrow, Hrun.
      f_equal. f_equal. rewrite <- app_assoc. f_equal. cbn [map app].
      rewrite Nat.sub_diag. simpl. rewrite Nat.add_0_r. f_equal.
      apply map_ext_in. intros r Hr. apply in_seq in Hr. f_equal.
      rewrite Hn1. replace (r - List.length done) with (S (r - S (List.length done)))
        by lia.
      simpl. lia.
    + rewrite Hnv, Hn1. simpl. lia.
    + now rewrite Hnc.
    + rewrite Hcsp, Hc1, Hn1. simpl. rewrite <- app_assoc, <- seq_app.
      reflexivity.
    + intros Y HY. rewrite Hout by (simpl in HY; lia).
      apply Hout1. simpl in HY. lia.
    + intros [| r] j Hr Hj.
      * simpl. rewrite Nat.add_0_r, Hout by lia.
        rewrite (Hin1 j Hj). now rewrite Nat.add_0_r.
      * replace (w_nvar w + S r * n + j) with (w_nvar w1 + r * n + j)
          by (rewrite Hn1; simpl; lia).
        rewrite Hin by lia. do 3 f_equal. lia.
Qed.

Lemma init_board_vars : forall n w,
  exists w',
    init_board n w = (w', Ok (board_of (w_nvar w) n)) /\
    csp_vars (w_csp w') = csp_vars (w_csp w) ++ seq (w_nvar w) (n * n) /\
    get_all_cons w' = get_all_cons w /\
    (forall i j, i < n -> j < n ->
       board_at (board_of (w_nvar w) n) i j = Some (w_nvar w + i * n + j) /\
       w_var w' (w_nvar w + i * n + j) =
       mkVar (str (n - i) ++ str (j + 1))
             (map Z.of_nat (seq 1 n)) (map Z.of_nat (seq 1 n)) None) /\
    (forall Y, Y < w_nvar w \/ w_nvar w + n * n <= Y -> w_var w' Y = w_var w Y) /\
    w_nvar w' = w_nvar w + n * n /\
    w_ncon w' = w_ncon w /\
    csp_name (w_csp w') = csp_name (w_csp w).
Proof.
  intros n w. unfold init_board.
  destruct (init_board_rows_vars n (map Z.of_nat (range 1 (n + 1))) n [] w)
    as (w' & Hrun & Hnv & Hnc & Hcsp & Hout & Hin).
  exists w'. simpl in Hrun, Hin.
  replace (range 1 (n + 1)) with (seq 1 n) in *
    by (unfold range; f_equal; lia).
  split; [| split; [| split; [| split; [| split; [| split; [| split]]]]]].
  - rewrite range_0 in Hrun |- *. rewrite Hrun. f_equal. f_equal.
    unfold board_of. apply map_ext. intros r. now rewrite Nat.sub_0_r.
  - now rewrite Hcsp.
  - unfold get_all_cons. now rewrite Hcsp.
  - intros i j Hi Hj. split; [now apply board_of_at |]. now apply Hin.
  - exact Hout.
  - exact Hnv.
  - exact Hnc.
  - now rewrite Hcsp.
Qed.

(** init_board, in full: it returns the n rows of n fresh variables; the
    variable at [i][j] is named str(n - i) + str(j + 1), has the domain and
    the current domain 1..n and is unassigned; the CSP gains these
    variables, row after row, and nothing else changes. *)
Theorem init_board_cells : forall n w,
  exists w',
    init_board n w = (w', Ok (board_of (w_nvar w) n)) /\
    csp_vars (w_csp w') = csp_vars (w_csp w) ++ seq (w_nvar w) (n * n) /\
    get_all_cons w' = get_all_cons w /\
    (forall i j, i < n -> j < n ->
       board_at (board_of (w_nvar w) n) i j = Some (w_nvar w + i * n + j) /\
       w_var w' (w_nvar w + i * n + j) =
       mkVar (str (n - i) ++ str (j + 1))
             (map Z.of_nat (seq 1 n)) (map Z.of_nat (seq 1 n)) None) /\
    (forall Y, Y < w_nvar w -> w_var w' Y = w_var w Y).
Proof.
  intros n w.
  destruct (init_board_vars n w) as (w' & Hrun & Hvs & Hcs & Hcell & Hout & _).
  exists w'. repeat (split; [assumption |]).
  intros Y HY. apply Hout. now left.
Qed.

(* ------------------------------------------------------------------ *)
(** ** The names of the variables *)
(* ------------------------------------------------------------------ *)

(** From size 11 on, the names init_board gives are ambiguous: the cell of
    row 1 and column 11 and the cell of row 11 and column 1 are two
    variables that are both named 111. *)
Theorem init_board_names_clash : forall n w,
  11 <= n ->
  exists w' board X Y,
    init_board n w = (w', Ok board) /\
    board_at board (n - 1) 10 = Some X /\
    board_at board (n - 11) 0 = Some Y /\
    X <> Y /\
    v_name (w_var w' X) = "111"%string /\
    v_name (w_var w' Y) = "111"%string.
Proof.
  intros n w Hn.
  destruct (init_board_vars n w) as (w' & Hrun & _ & _ & Hcell & _).
  destruct (Hcell (n - 1) 10) as [HX HnX]; [lia | lia |].
  destruct (Hcell (n - 11) 0) as [HY HnY]; [lia | lia |].
  exists w', (board_of (w_nvar w) n),
         (w_nvar w + (n - 1) * n + 10), (w_nvar w + (n - 11) * n + 0).
  split; [exact Hrun |]. split; [exact HX |]. split; [exact HY |].
  split; [nia |].
  rewrite HnX, HnY. cbn [v_name].
  replace (n - (n - 1)) with 1 by lia. replace (n - (n - 11)) with 11 by lia.
  split; reflexivity.
Qed.

Lemma init_board_names_clash_witness :
  exists w' board X Y,
    init_board 11 chain_world = (w', Ok board) /\
    board_at board 10 10 = Some X /\
    board_at board 0 0 = Some Y /\
    X <> Y /\
    v_name (w_var w' X) = "111"%string /\
    v_name (w_var w' Y) = "111"%string.
Proof.
  exact (init_board_names_clash 11 chain_world (le_n 11)).
Defined.

Lemma cell_names_differ : forall n,
  n <= 10 ->
  forallb (fun i => forallb (fun j => forallb (fun i' => forallb (fun j' =>
    (Nat.eqb i i' && Nat.eqb j j')
    || negb (String.eqb (str (n - i) ++ str (j + 1))
                        (str (n - i') ++ str (j' + 1))))
    (seq 0 n)) (seq 0 n)) (seq 0 n)) (seq 0 n) = true.
Proof.
  intros n Hn.
  do 11 (destruct n as [| n]; [vm_compute; reflexivity |]). lia.
Qed.

(** Up to size 10 the names init_board gives tell the cells apart: two
    cells of the board with the same name are the same cell. *)
Theorem init_board_names_unique : forall n w,
  n <= 10 ->
  exists w',
    init_board n w = (w', Ok (board_of (w_nvar w) n)) /\
    forall i j i' j', i < n -> j < n -> i' < n -> j' < n ->
      v_name (w_var w' (w_nvar w + i * n + j)) =
      v_name (w_var w' (w_nvar w + i' * n + j')) ->
      i = i' /\ j = j'.
Proof.
  intros n w Hn.
  destruct (init_board_vars n w) as (w' & Hrun & _ & _ & Hcell & _).
  exists w'. split; [exact Hrun |].
  intros i j i' j' Hi Hj Hi' Hj' Hname.
  destruct (Hcell i j Hi Hj) as [_ H1]. destruct (Hcell i' j' Hi' Hj') as [_ H2].
  rewrite H1, H2 in Hname. cbn [v_name] in Hname.
  pose proof (cell_names_differ n Hn) as Hall.
  rewrite forallb_forall in Hall.
  specialize (Hall i (proj2 (in_seq n 0 i) (conj (Nat.le_0_l i) Hi))).
  rewrite forallb_forall in Hall.
  specialize (Hall j (proj2 (in_seq n 0 j) (conj (Nat.le_0_l j) Hj))).
  rewrite forallb_forall in Hall.
  specialize (Hall i' (proj2 (in_seq n 0 i') (conj (Nat.le_0_l i') Hi'))).
  rewrite forallb_forall in Hall.
  specialize (Hall j' (proj2 (in_seq n 0 j') (conj (Nat.le_0_l j') Hj'))).
  apply orb_true_iff in Hall as [Hall | Hall].
  - apply andb_true_iff in Hall as [E1 E2].
    apply Nat.eqb_eq in E1. apply Nat.eqb_eq in E2. now split.
  - rewrite Hname, String.eqb_refl in Hall. discriminate.
Qed.

Lemma init_board_names_unique_witness :
  exists w',
    init_board 3 chain_world = (w', Ok (board_of 3 3)) /\
    forall i j i' j', i < 3 -> j < 3 -> i' < 3 -> j' < 3 ->
      v_name (w_var w' (3 + i * 3 + j)) = v_name (w_var w' (3 + i' * 3 + j')) ->
      i = i' /\ j = j'.
Proof.
  apply (init_board_names_unique 3 chain_world). lia.
Defined.

(* ------------------------------------------------------------------ *)
(** ** The constraints of warehouse_binary_ne_grid *)
(* ------------------------------------------------------------------ *)

Lemma add_tuples_In : forall tuples acc (t : list Value),
  In t (fold_left (fun acc t => if in_dec (list_eq_dec Z.eq_dec) t acc
                                then acc else acc ++ [t]) tuples acc) <->
  In t acc \/ In t tuples.
Proof.
  induction tuples as [| u tuples IH]; intros acc t; simpl.
  - tauto.
  - rewrite IH. destruct (in_dec (list_eq_dec Z.eq_dec) u acc) as [Hin | Hn].
    + split; [tauto |]. intros [H | [<- | H]]; tauto.
    + rewrite in_app_iff. simpl. tauto.
Qed.

Lemma made_app : forall l1 l2 k sat,
  made k (l1 ++ l2) sat = made k l1 sat ++ made (k + List.length l1) l2 sat.
Proof.
  induction l1 as [| [nm sc] l1 IH]; intros l2 k sat; simpl.
  - now rewrite Nat.add_0_r.
  - rewrite IH. do 3 f_equal. lia.
Qed.

Lemma made_length : forall l k sat, List.length (made k l sat) = List.length l.
Proof.
  induction l as [| [nm sc] l IH]; intros k sat; simpl; [reflexivity |].
  now rewrite IH.
Qed.

Lemma made_In : forall l k sat c,
  In c (made k l sat) ->
  In (c_name c, c_scope c) l /\ forall t, In t (sat_tuples c) <-> In t sat.
Proof.
  induction l as [| [nm sc] l IH]; intros k sat c Hin; simpl in Hin.
  - destruct Hin.
  - destruct Hin as [<- | Hin].
    + split; [now left |]. intros t. unfold add_satisfying_tuples. simpl.
      rewrite add_tuples_In. simpl. tauto.
    + destruct (IH _ _ _ Hin) as [H1 H2]. split; [now right | exact H2].
Qed.

Lemma made_has : forall l k sat nm sc,
  In (nm, sc) l ->
  exists c, In c (made k l sat) /\ c_name c = nm /\ c_scope c = sc.
Proof.
  induction l as [| [nm0 sc0] l IH]; intros k sat nm sc Hin; simpl in Hin.
  - destruct Hin.
  - destruct Hin as [E | Hin].
    + injection E as -> ->. eexists. split; [now left |]. split; reflexivity.
    + destruct (IH (S k) sat nm sc Hin) as (c & Hc & Hn & Hs).
      exists c. split; [now right | split; assumption].
Qed.

Lemma builds_seq : forall m1 m2 l1 l2 sat,
  builds m1 l1 sat -> builds m2 l2 sat -> builds (m1 ;;; m2) (l1 ++ l2) sat.
Proof.
  intros m1 m2 l1 l2 sat H1 H2 w.
  destruct (H1 w) as (w1 & Hr1 & Hv1 & Hn1 & Hc1 & Hnm1 & Hvs1 & Hcs1).
  destruct (H2 w1) as (w2 & Hr2 & Hv2 & Hn2 & Hc2 & Hnm2 & Hvs2 & Hcs2).
  exists w2. unfold bind. rewrite Hr1. split; [exact Hr2 |].
  split; [congruence |]. split; [congruence |].
  split; [rewrite Hc2, Hc1, length_app; lia |].
  split; [congruence |]. split; [congruence |].
  now rewrite Hcs2, Hcs1, Hc1, made_app, app_assoc.
Qed.

Lemma builds_forM : forall (A : Type) (l : list A) body
                           (f : A -> list (string * list Var)) sat,
  (forall a, In a l -> builds (body a) (f a) sat) ->
  builds (forM l body) (flat_map f l) sat.
Proof.
  intros A l body f sat. induction l as [| a l IH]; intros Hbody.
  - intros w. exists w. simpl. rewrite Nat.add_0_r, app_nil_r.
    repeat split; reflexivity.
  - cbn [forM flat_map]. apply builds_seq.
    + apply Hbody. now left.
    + apply IH. intros b Hb. apply Hbody. now right.
Qed.

Lemma flat_map_single : forall (A B : Type) (f : A -> B) (l : list A),
  flat_map (fun a => [f a]) l = map f l.
Proof.
  intros A B f l. induction l as [| a l IH]; simpl; [reflexivity |].
  now rewrite IH.
Qed.

Lemma expand_step_builds : forall base n x1 y1 x2 y2 nm sat,
  x1 < n -> y1 < n -> x2 < n -> y2 < n ->
  builds (rx <- subscript (board_of base n) x1 ;; bxy <- subscript rx y1 ;;
          ri <- subscript (board_of base n) x2 ;; biy <- subscript ri y2 ;;
          con <- new_Constraint nm [bxy; biy] ;;
          add_constraint (add_satisfying_tuples con sat))
         [(nm, [base + x1 * n + y1; base + x2 * n + y2])] sat.
Proof.
  intros base n x1 y1 x2 y2 nm sat H1 H2 H3 H4 w.
  unfold bind, subscript.
  rewrite (board_row base n x1 H1). unfold ret at 1.
  rewrite (seq_at _ n y1 H2). unfold ret at 1.
  rewrite (board_row base n x2 H3). unfold ret at 1.
  rewrite (seq_at _ n y2 H4). unfold ret at 1.
  unfold new_Constraint, add_constraint. eexists. split; [reflexivity |].
  simpl. repeat split; lia.
Qed.

Lemma expand_builds : forall base n x y sat,
  x < n -> y < n ->
  builds (_expand x y (board_of base n) n sat) (expand_scopes base n x y) sat.
Proof.
  intros base n x y sat Hx Hy. unfold _expand, expand_scopes.
  rewrite <- !flat_map_single.
  apply builds_seq; apply builds_forM; intros i Hi; apply range_In in Hi;
    apply expand_step_builds; lia.
Qed.

Lemma generator_builds : forall base n sat,
  builds (binary_constraint_generator n (board_of base n) sat)
         (grid_scopes base n) sat.
Proof.
  intros base n sat. unfold binary_constraint_generator, grid_scopes.
  apply builds_forM. intros x Hx. apply range_In in Hx.
  apply builds_forM. intros y Hy. apply range_In in Hy.
  apply expand_builds; lia.
Qed.

Lemma grid_scopes_In : forall base n nm sc,
  In (nm, sc) (grid_scopes base n) <->
  exists x y i, x < n /\ y < n /\ i < n /\
    nm = (str x ++ str y ++ str i ++ str y)%string /\
    ((x < i /\ sc = [base + x * n + y; base + i * n + y]) \/
     (y < i /\ sc = [base + x * n + y; base + x * n + i])).
Proof.
  intros base n nm sc. unfold grid_scopes, expand_scopes. split.
  - intros H. apply in_flat_map in H as (x & Hx & H).
    apply in_flat_map in H as (y & Hy & H).
    apply range_In in Hx. apply range_In in Hy.
    apply in_app_or in H as [H | H]; apply in_map_iff in H as (i & E & Hi);
      apply range_In in Hi; injection E as <- <-; exists x, y, i;
      repeat split; try lia; [left | right]; split; (lia || reflexivity).
  - intros (x & y & i & Hx & Hy & Hi & -> & H).
    apply in_flat_map. exists x. split; [apply range_In; lia |].
    apply in_flat_map. exists y. split; [apply range_In; lia |].
    apply in_or_app. destruct H as [[Hlt ->] | [Hlt ->]]; [left | right];
      apply in_map_iff; exists i; (split; [reflexivity | apply range_In; lia]).
Qed.

Lemma ne_tuples_In : forall n t,
  In t (ne_tuples n) <->
  exists a b, t = [a; b] /\ (1 <= a <= Z.of_nat n)%Z /\
              (1 <= b <= Z.of_nat n)%Z /\ a <> b.
Proof.
  intros n t. unfold ne_tuples. split.
  - intros H. apply in_flat_map in H as (x & Hx & H).
    apply in_flat_map in H as (y & Hy & H).
    apply range_In in Hx. apply range_In in Hy.
    destruct (Nat.eqb x y) eqn:E; [destruct H |].
    destruct H as [<- | []]. apply Nat.eqb_neq in E.
    exists (Z.of_nat x), (Z.of_nat y). repeat split; lia.
  - intros (a & b & -> & Ha & Hb & Hne).
    apply in_flat_map. exists (Z.to_nat a). split; [apply range_In; lia |].
    apply in_flat_map. exists (Z.to_nat b). split; [apply range_In; lia |].
    destruct (Nat.eqb (Z.to_nat a) (Z.to_nat b)) eqn:E.
    + apply Nat.eqb_eq in E. lia.
    + left. rewrite !Z2Nat.id by lia. reflexivity.
Qed.

Lemma list_sum_map_add : forall (A : Type) (f g : A -> nat) l,
  list_sum (map (fun x => f x + g x) l) = list_sum (map f l) + list_sum (map g l).
Proof.
  intros A f g l. induction l as [| a l IH]; simpl; [reflexivity |]. lia.
Qed.

Lemma list_sum_map_const : forall (A : Type) (c : nat) (l : list A),
  list_sum (map (fun _ => c) l) = List.length l * c.
Proof.
  intros A c l. induction l as [| a l IH]; simpl; [reflexivity |]. lia.
Qed.

Lemma sum_down : forall n m,
  n <= m + 1 ->
  2 * list_sum (map (fun x => m - x) (seq 0 n)) + n * (n - 1) = 2 * n * m.
Proof.
  induction n as [| n IH]; intros m Hn; [reflexivity |].
  rewrite seq_S, map_app, list_sum_app. simpl map. simpl list_sum.
  specialize (IH m). nia.
Qed.

Lemma grid_scopes_length : forall base n,
  List.length (grid_scopes base n) = n * n * (n - 1).
Proof.
  intros base n. unfold grid_scopes. rewrite length_flat_map.
  rewrite (map_ext _ (fun x => n * (n - 1 - x)
                               + list_sum (map (fun y => n - 1 - y) (seq 0 n)))).
  - rewrite list_sum_map_add, list_sum_map_const, range_0, length_seq.
    assert (Hm : list_sum (map (fun x => n * (n - 1 - x)) (seq 0 n)) =
                 n * list_sum (map (fun x => n - 1 - x) (seq 0 n))).
    { induction (seq 0 n) as [| a l IHl]; simpl; [lia |]. rewrite IHl. lia. }
    pose proof (sum_down n (n - 1)) as Hs.
    rewrite Hm. nia.
  - intros x. rewrite length_flat_map, range_0.
    rewrite (map_ext _ (fun y => (n - 1 - x) + (n - 1 - y))).
    + rewrite list_sum_map_add, list_sum_map_const, length_seq. reflexivity.
    + intros y. unfold expand_scopes, range.
      rewrite length_app, !length_map, !length_seq. lia.
Qed.

(** warehouse_binary_ne_grid, as a run: the board of init_board, and the
    constraints of binary_constraint_generator on it, in order. *)
Lemma binary_grid_run : forall n r0 rest w,
  exists w',
    warehouse_binary_ne_grid ((n :: r0) :: rest) w =
      (w', Ok (board_of (w_nvar w) n)) /\
    csp_vars (w_csp w') = seq (w_nvar w) (n * n) /\
    get_all_cons w' =
      made (w_ncon w) (grid_scopes (w_nvar w) n) (ne_tuples n).
Proof.
  intros n r0 rest w. unfold warehouse_binary_ne_grid.
  unfold bind at 1. unfold new_CSP at 1. cbn beta iota.
  unfold bind at 1. unfold subscript at 1. cbn [nth_error]. unfold ret at 1.
  unfold bind at 1. unfold subscript at 1. cbn [nth_error]. unfold ret at 1.
  unfold bind at 1.
  match goal with
  | |- context [init_board n ?w0] =>
      destruct (init_board_vars n w0)
        as (w1 & Hib & Hvs & Hc1 & _ & _ & _ & Hnc & _)
  end.
  rewrite Hib. cbn [w_nvar w_ncon w_csp csp_vars] in *.
  destruct (generator_builds (w_nvar w) n (ne_tuples n) w1)
    as (w2 & Hgen & _ & _ & _ & _ & Hvs2 & Hcs2).
  unfold bind at 1. rewrite Hgen.
  exists w2. split; [reflexivity |]. split; [now rewrite Hvs2, Hvs |].
  unfold get_all_cons in *. rewrite Hcs2, Hc1, Hnc. reflexivity.
Qed.

Lemma vals_eqb_eq : forall t l, vals_eqb t (map Some l) = true <-> t = l.
Proof.
  induction t as [| u t IH]; intros [| v l]; simpl; try (split; congruence).
  rewrite andb_true_iff, IH, Z.eqb_eq. split.
  - intros [-> ->]. reflexivity.
  - intros E. injection E as -> ->. split; reflexivity.
Qed.

Lemma check_In : forall c l,
  check c (map Some l) = true <-> In l (sat_tuples c).
Proof.
  intros c l. unfold check. rewrite existsb_exists. split.
  - intros (t & Ht & E). apply vals_eqb_eq in E. now subst.
  - intros H. exists l. split; [exact H | now apply vals_eqb_eq].
Qed.

(** warehouse_binary_ne_grid builds the grid model: the CSP owns the n * n
    variables of the board and n * n * (n - 1) constraints; every constraint
    is a not-equal constraint, accepting exactly the pairs of different
    values of 1..n, over two cells of one row or of one column, and every
    two cells of one row or column have their constraint. *)
Theorem binary_grid_constraints : forall n r0 rest w,
  exists w',
    warehouse_binary_ne_grid ((n :: r0) :: rest) w =
      (w', Ok (board_of (w_nvar w) n)) /\
    csp_vars (w_csp w') = seq (w_nvar w) (n * n) /\
    List.length (get_all_cons w') = n * n * (n - 1) /\
    (forall c, In c (get_all_cons w') ->
       exists x y x' y',
         x < n /\ y < n /\ x' < n /\ y' < n /\
         ((x = x' /\ y < y') \/ (x < x' /\ y = y')) /\
         c_scope c = [w_nvar w + x * n + y; w_nvar w + x' * n + y'] /\
         forall a b, check c [Some a; Some b] = true <->
                     (1 <= a <= Z.of_nat n)%Z /\ (1 <= b <= Z.of_nat n)%Z /\
                     a <> b) /\
    (forall x y x' y',
       x < n -> y < n -> x' < n -> y' < n ->
       (x = x' /\ y < y') \/ (x < x' /\ y = y') ->
       exists c, In c (get_all_cons w') /\
                 c_scope c = [w_nvar w + x * n + y; w_nvar w + x' * n + y']).
Proof.
  intros n r0 rest w.
  destruct (binary_grid_run n r0 rest w) as (w' & Hrun & Hvs & Hcs).
  exists w'. split; [exact Hrun |]. split; [exact Hvs |].
  rewrite Hcs. split; [now rewrite made_length, grid_scopes_length |]. split.
  - intros c Hc. apply made_In in Hc as [Hsc Hsat].
    apply grid_scopes_In in Hsc as (x & y & i & Hx & Hy & Hi & _ & Hs).
    assert (Hck : forall a b, check c [Some a; Some b] = true <->
                    (1 <= a <= Z.of_nat n)%Z /\ (1 <= b <= Z.of_nat n)%Z /\
                    a <> b).
    { intros a b. change [Some a; Some b] with (map Some [a; b]).
      rewrite check_In, Hsat, ne_tuples_In. split.
      - intros (a' & b' & E & H). injection E as -> ->. exact H.
      - intros H. exists a, b. split; [reflexivity | exact H]. }
    destruct Hs as [[Hlt Hs] | [Hlt Hs]].
    + exists x, y, i, y.
      split; [exact Hx |]. split; [exact Hy |]. split; [exact Hi |].
      split; [exact Hy |]. split; [right; now split |].
      split; [exact Hs | exact Hck].
    + exists x, y, x, i.
      split; [exact Hx |]. split; [exact Hy |]. split; [exact Hx |].
      split; [exact Hi |]. split; [left; now split |].
      split; [exact Hs | exact Hck].
  - intros x y x' y' Hx Hy Hx' Hy' Hline.
    destruct (made_has (grid_scopes (w_nvar w) n) (w_ncon w) (ne_tuples n)
                (if Nat.eqb x x'
                 then (str x ++ str y ++ str y' ++ str y)%string
                 else (str x ++ str y ++ str x' ++ str y)%string)
                [w_nvar w + x * n + y; w_nvar w + x' * n + y'])
      as (c & Hc & _ & Hs).
    + apply grid_scopes_In. destruct Hline as [[<- Hlt] | [Hlt <-]].
      * rewrite Nat.eqb_refl. exists x, y, y'. repeat split; trivial.
        right. now split.
      * assert (E : Nat.eqb x x' = false) by (apply Nat.eqb_neq; lia).
        rewrite E. exists x, y, x'. repeat split; trivial. left. now split.
    + exists c. split; assumption.
Qed.

Lemma binary_grid_pairs : forall n r0 rest w,
  exists w',
    warehouse_binary_ne_grid ((n :: r0) :: rest) w =
      (w', Ok (board_of (w_nvar w) n)) /\
    forall sol,
      satisfies sol w' <->
      forall x y x' y',
        x < n -> y < n -> x' < n -> y' < n ->
        (x = x' /\ y < y') \/ (x < x' /\ y = y') ->
        In [sol (w_nvar w + x * n + y); sol (w_nvar w + x' * n + y')]
           (ne_tuples n).
Proof.
  intros n r0 rest w.
  destruct (binary_grid_run n r0 rest w) as (w' & Hrun & _ & Hcs).
  exists w'. split; [exact Hrun |]. intros sol. unfold satisfies.
  rewrite Hcs. split.
  - intros Hsat x y x' y' Hx Hy Hx' Hy' Hline.
    destruct (made_has (grid_scopes (w_nvar w) n) (w_ncon w) (ne_tuples n)
                (if Nat.eqb x x'
                 then (str x ++ str y ++ str y' ++ str y)%string
                 else (str x ++ str y ++ str x' ++ str y)%string)
                [w_nvar w + x * n + y; w_nvar w + x' * n + y'])
      as (c & Hc & _ & Hs).
    + apply grid_scopes_In. destruct Hline as [[<- Hlt] | [Hlt <-]].
      * rewrite Nat.eqb_refl. exists x, y, y'. repeat split; trivial.
        right. now split.
      * assert (E : Nat.eqb x x' = false) by (apply Nat.eqb_neq; lia).
        rewrite E. exists x, y, x'. repeat split; trivial. left. now split.
    + pose proof (Hsat c Hc) as Hin. unfold get_scope in Hin.
      rewrite Hs in Hin. apply made_In in Hc as [_ Hst]. now apply Hst.
  - intros Hall c Hc. pose proof (made_In _ _ _ _ Hc) as [Hsc Hst].
    apply grid_scopes_In in Hsc as (x & y & i & Hx & Hy & Hi & _ & Hs).
    apply Hst. unfold get_scope.
    destruct Hs as [[Hlt ->] | [Hlt ->]]; simpl; apply Hall; trivial;
      [right | left]; now split.
Qed.

(** The solutions of the model of warehouse_binary_ne_grid are the Latin
    squares: from size 2 on, an assignment satisfies every constraint of
    the CSP exactly when the values of the cells lie in 1..n and differ
    along every row and every column of the board. *)
Theorem binary_grid_latin : forall n r0 rest w,
  2 <= n ->
  exists w',
    warehouse_binary_ne_grid ((n :: r0) :: rest) w =
      (w', Ok (board_of (w_nvar w) n)) /\
    forall sol,
      satisfies sol w' <-> latin n (fun x y => sol (w_nvar w + x * n + y)).
Proof.
  intros n r0 rest w Hn.
  destruct (binary_grid_pairs n r0 rest w) as (w' & Hrun & Hiff).
  exists w'. split; [exact Hrun |]. intros sol. rewrite Hiff. clear Hiff Hrun.
  split.
  - intros Hall.
    assert (Hpair : forall x y x' y',
              x < n -> y < n -> x' < n -> y' < n ->
              (x = x' /\ y < y') \/ (x < x' /\ y = y') ->
              (1 <= sol (w_nvar w + x * n + y)%nat <= Z.of_nat n)%Z /\
              (1 <= sol (w_nvar w + x' * n + y')%nat <= Z.of_nat n)%Z /\
              sol (w_nvar w + x * n + y) <> sol (w_nvar w + x' * n + y')).
    { intros x y x' y' Hx Hy Hx' Hy' Hline.
      pose proof (Hall x y x' y' Hx Hy Hx' Hy' Hline) as Hin.
      apply ne_tuples_In in Hin as (a & b & E & Ha & Hb & Hne).
      injection E as -> ->. repeat split; tauto. }
    split; [| split].
    + intros x y Hx Hy. destruct y as [| y].
      * apply (Hpair x 0 x 1); lia.
      * apply (Hpair x 0 x (S y)); lia.
    + intros x y y' Hx Hy Hy' Hne.
      destruct (Nat.lt_ge_cases y y') as [Hlt | Hge].
      * apply (Hpair x y x y'); lia.
      * intros E. symmetry in E. revert E. apply (Hpair x y' x y); lia.
    + intros x x' y Hx Hx' Hy Hne.
      destruct (Nat.lt_ge_cases x x') as [Hlt | Hge].
      * apply (Hpair x y x' y); lia.
      * intros E. symmetry in E. revert E. apply (Hpair x' y x y); lia.
  - intros (Hrange & Hrow & Hcol) x y x' y' Hx Hy Hx' Hy' Hline.
    apply ne_tuples_In. eexists. eexists. split; [reflexivity |].
    split; [now apply Hrange |]. split; [now apply Hrange |].
    destruct Hline as [[<- Hlt] | [Hlt <-]].
    + apply Hrow; trivial. lia.
    + apply Hcol; trivial. lia.
Qed.

Lemma binary_grid_latin_witness :
  exists w',
    warehouse_binary_ne_grid [[2]] chain_world = (w', Ok (board_of 3 2)) /\
    forall sol, satisfies sol w' <-> latin 2 (fun x y => sol (3 + x * 2 + y)).
Proof.
  exact (binary_grid_latin 2 [] [] chain_world (le_n 2)).
Defined.

(* ------------------------------------------------------------------ *)
(** ** The constraints of warehouse_nary_ad_grid *)
(* ------------------------------------------------------------------ *)

Lemma select_Permutation : forall (A : Type) (l : list A) a r,
  In (a, r) (select l) -> Permutation l (a :: r).
Proof.
  intros A l. induction l as [| b l IH]; intros a r H; simpl in H.
  - destruct H.
  - destruct H as [E | H].
    + injection E as -> ->. apply Permutation_refl.
    + apply in_map_iff in H as ([a' r'] & E & Hin). simpl in E.
      injection E as E1 E2. subst a r. apply IH in Hin.
      eapply perm_trans; [apply perm_skip; exact Hin | apply perm_swap].
Qed.

Lemma select_has : forall (A : Type) (l : list A) a,
  In a l -> exists r, In (a, r) (select l).
Proof.
  intros A l. induction l as [| b l IH]; intros a H; simpl in H.
  - destruct H.
  - destruct H as [-> | H].
    + exists l. now left.
    + destruct (IH a H) as (r & Hr). exists (b :: r). simpl. right.
      apply in_map_iff. exists (a, r). split; [reflexivity | exact Hr].
Qed.

Lemma permutations_of_iff : forall (A : Type) k (l t : list A),
  List.length l = k ->
  (In t (permutations_of k l) <-> Permutation l t).
Proof.
  intros A k. induction k as [| k IH]; intros l t Hlen; simpl.
  - destruct l; [| discriminate]. split.
    + intros [<- | []]. apply perm_nil.
    + intros H. apply Permutation_nil in H. now left.
  - rewrite in_flat_map. split.
    + intros ([a r] & Hsel & Hin). simpl in Hin.
      apply in_map_iff in Hin as (t' & <- & Ht').
      pose proof (select_Permutation A l a r Hsel) as Hp.
      assert (Hr : List.length r = k).
      { apply Permutation_length in Hp. simpl in Hp. lia. }
      apply (IH r t' Hr) in Ht'.
      eapply perm_trans; [exact Hp | now apply perm_skip].
    + intros Hp. destruct t as [| a t'].
      * apply Permutation_length in Hp. simpl in Hp. lia.
      * assert (Ha : In a l).
        { apply (Permutation_in a (Permutation_sym Hp)). now left. }
        destruct (select_has A l a Ha) as (r & Hsel).
        pose proof (select_Permutation A l a r Hsel) as Hq.
        assert (Hr : List.length r = k).
        { apply Permutation_length in Hq. simpl in Hq. lia. }
        exists (a, r). split; [exact Hsel |]. simpl.
        apply in_map. apply (IH r t' Hr).
        apply (Permutation_cons_inv (a := a)).
        eapply perm_trans; [apply Permutation_sym; exact Hq | exact Hp].
Qed.

(** [permutations] yields the orderings of its list and nothing else. *)
Lemma permutations_In : forall (A : Type) (l t : list A),
  In t (permutations l) <-> Permutation l t.
Proof.
  intros A l t. unfold permutations. now apply permutations_of_iff.
Qed.

Lemma NoDup_dom : forall n, NoDup (map Z.of_nat (seq 1 n)).
Proof.
  intros n. generalize 1. induction n as [| n IH]; intros a; simpl.
  - constructor.
  - constructor; [| apply IH].
    intros H. apply in_map_iff in H as (x & E & Hx). apply in_seq in Hx. lia.
Qed.

(** The tuples of an all-different constraint over 1..n. *)
Lemma all_different_iff : forall n (t : list Value),
  Permutation (map Z.of_nat (seq 1 n)) t <->
  List.length t = n /\ NoDup t /\
  forall v, In v t -> (1 <= v <= Z.of_nat n)%Z.
Proof.
  intros n t. split.
  - intros Hp. split; [| split].
    + apply Permutation_length in Hp. now rewrite length_map, length_seq in Hp.
    + exact (Permutation_NoDup Hp (NoDup_dom n)).
    + intros v Hv. apply (Permutation_in v (Permutation_sym Hp)) in Hv.
      apply in_map_iff in Hv as (x & <- & Hx). apply in_seq in Hx. lia.
  - intros (Hlen & Hnd & Hran). apply Permutation_sym.
    apply NoDup_Permutation_bis; [exact Hnd | |].
    + rewrite length_map, length_seq. apply Nat.eq_le_incl. symmetry.
      exact Hlen.
    + intros v Hv. apply Hran in Hv. apply in_map_iff.
      exists (Z.to_nat v). split; [lia | apply in_seq; lia].
Qed.

Lemma map_seq_shift : forall (B : Type) (f : nat -> B) a n,
  map f (seq a n) = map (fun y => f (a + y)) (seq 0 n).
Proof.
  intros B f a n. revert a. induction n as [| n IH]; intros a; simpl.
  - reflexivity.
  - rewrite Nat.add_0_r. f_equal.
    rewrite (IH (S a)), <- (seq_shift n 0), map_map.
    apply map_ext. intros y. f_equal. lia.
Qed.

Lemma NoDup_map_seq : forall (g : nat -> Value) n,
  NoDup (map g (seq 0 n)) <->
  forall i j, i < n -> j < n -> i <> j -> g i <> g j.
Proof.
  intros g n. rewrite (NoDup_nth (map g (seq 0 n)) (g 0)).
  rewrite length_map, length_seq. split.
  - intros H i j Hi Hj Hne E. apply Hne. apply (H i j Hi Hj).
    rewrite !map_nth, !seq_nth by assumption. exact E.
  - intros H i j Hi Hj E. rewrite !map_nth, !seq_nth in E by assumption.
    destruct (Nat.eq_dec i j) as [-> | Hne]; [reflexivity |].
    exfalso. exact (H i j Hi Hj Hne E).
Qed.

(** A line of n cells holds an ordering of 1..n exactly when its values
    lie in 1..n and differ from one another. *)
Lemma line_all_different : forall n (g : nat -> Value),
  In (map g (seq 0 n)) (permutations (map Z.of_nat (seq 1 n))) <->
  (forall i, i < n -> (1 <= g i <= Z.of_nat n)%Z) /\
  (forall i j, i < n -> j < n -> i <> j -> g i <> g j).
Proof.
  intros n g. rewrite permutations_In, all_different_iff, NoDup_map_seq.
  rewrite length_map, length_seq. split.
  - intros (_ & Hnd & Hran). split; [| exact Hnd].
    intros i Hi. apply Hran. apply in_map. apply in_seq. lia.
  - intros (Hran & Hnd). split; [reflexivity |]. split; [exact Hnd |].
    intros v Hv. apply in_map_iff in Hv as (i & <- & Hi). apply in_seq in Hi.
    apply Hran. lia.
Qed.

Lemma board_of_length : forall base n, List.length (board_of base n) = n.
Proof.
  intros base n. unfold board_of. now rewrite length_map, length_seq.
Qed.

Lemma get_column_fold : forall base n col k a acc w,
  col < n -> a + k <= n ->
  foldM (fun res_col i =>
           ri <- subscript (board_of base n) i ;; v <- subscript ri col ;;
           ret (res_col ++ [v]))
        (seq a k) acc w =
  (w, Ok (acc ++ map (fun i => base + i * n + col) (seq a k))).
Proof.
  intros base n col k. induction k as [| k IH]; intros a acc w Hcol Hk; simpl.
  - now rewrite app_nil_r.
  - unfold bind at 1. unfold bind at 1. unfold subscript at 1.
    rewrite (board_row base n a) by lia. unfold ret at 1.
    unfold bind at 1. unfold subscript at 1.
    rewrite (seq_at _ n col Hcol). unfold ret at 1. unfold ret at 1.
    rewrite IH by lia. now rewrite <- app_assoc.
Qed.

(** _get_column on the board of init_board: the cells of the column, from
    the first row to the last. *)
Lemma get_column_spec : forall base n col w,
  col < n ->
  _get_column col (board_of base n) w =
  (w, Ok (map (fun i => base + i * n + col) (seq 0 n))).
Proof.
  intros base n col w Hcol. unfold _get_column.
  rewrite board_of_length, range_0.
  now rewrite (get_column_fold base n col n 0 [] w Hcol).
Qed.

Lemma nary_generator_builds : forall base n sat,
  builds (n_ary_constraint_generator n (board_of base n) sat)
         (nary_scopes base n) sat.
Proof.
  intros base n sat. unfold n_ary_constraint_generator, nary_scopes.
  rewrite <- !flat_map_single.
  apply builds_seq; apply builds_forM; intros i Hi; apply range_In in Hi;
    intros w; unfold bind.
  - unfold subscript. rewrite (board_row base n i) by lia. unfold ret at 1.
    unfold new_Constraint, add_constraint. eexists. split; [reflexivity |].
    simpl. repeat split; lia.
  - rewrite (get_column_spec base n i w) by lia.
    unfold new_Constraint, add_constraint. eexists. split; [reflexivity |].
    simpl. repeat split; lia.
Qed.

(** warehouse_nary_ad_grid, as a run: the board of init_board, and the
    constraints of n_ary_constraint_generator on it, in order. *)
Lemma nary_grid_run : forall n r0 rest w,
  exists w',
    warehouse_nary_ad_grid ((n :: r0) :: rest) w =
      (w', Ok (board_of (w_nvar w) n)) /\
    csp_vars (w_csp w') = seq (w_nvar w) (n * n) /\
    get_all_cons w' =
      made (w_ncon w) (nary_scopes (w_nvar w) n)
           (permutations (map Z.of_nat (seq 1 n))).
Proof.
  intros n r0 rest w. unfold warehouse_nary_ad_grid.
  unfold bind at 1. unfold new_CSP at 1. cbn beta iota.
  unfold bind at 1. unfold subscript at 1. cbn [nth_error]. unfold ret at 1.
  unfold bind at 1. unfold subscript at 1. cbn [nth_error]. unfold ret at 1.
  unfold bind at 1.
  match goal with
  | |- context [init_board n ?w0] =>
      destruct (init_board_vars n w0)
        as (w1 & Hib & Hvs & Hc1 & _ & _ & _ & Hnc & _)
  end.
  rewrite Hib. cbn [w_nvar w_ncon w_csp csp_vars] in *. cbv zeta.
  replace (range 1 (n + 1)) with (seq 1 n) by (unfold range; f_equal; lia).
  destruct (nary_generator_builds (w_nvar w) n
              (permutations (map Z.of_nat (seq 1 n))) w1)
    as (w2 & Hgen & _ & _ & _ & _ & Hvs2 & Hcs2).
  unfold bind at 1. rewrite Hgen.
  exists w2. split; [reflexivity |]. split; [now rewrite Hvs2, Hvs |].
  unfold get_all_cons in *. rewrite Hcs2, Hc1, Hnc. reflexivity.
Qed.

Lemma made_names : forall l k sat,
  map (fun c => (c_name c, c_scope c)) (made k l sat) = l.
Proof.
  induction l as [| [nm sc] l IH]; intros k sat; simpl; [reflexivity |].
  now rewrite IH.
Qed.

Lemma str_inj : forall a b, str a = str b -> a = b.
Proof.
  intros a b H. unfold str in H.
  assert (Hn : forall k, Nat.to_uint k <> Decimal.Nil).
  { intros k E. pose proof (Unsigned.of_to k) as Hk.
    pose proof (Unsigned.to_of (Nat.to_uint k)) as H1. rewrite Hk in H1.
    rewrite E in H1 at 2. simpl in H1. rewrite E in H1. discriminate. }
  apply Unsigned.to_uint_inj.
  pose proof (NilZero.usu _ (Hn a)) as Ha. pose proof (NilZero.usu _ (Hn b)) as Hb.
  rewrite H in Ha. congruence.
Qed.

Lemma NoDup_map_inj : forall (A B : Type) (f : A -> B) (l : list A),
  (forall x y, f x = f y -> x = y) -> NoDup l -> NoDup (map f l).
Proof.
  intros A B f l Hinj Hnd. induction Hnd as [| a l Hnotin Hnd IH]; simpl.
  - constructor.
  - constructor; [| exact IH]. intros Hin.
    apply in_map_iff in Hin as (x & E & Hx). apply Hinj in E. now subst.
Qed.

Lemma nary_names_NoDup : forall base n,
  NoDup (map fst (nary_scopes base n)).
Proof.
  intros base n. unfold nary_scopes. rewrite map_app, !map_map. simpl.
  apply NoDup_app.
  - apply NoDup_map_inj; [| apply seq_NoDup].
    intros x y E. injection E as E. now apply str_inj.
  - apply NoDup_map_inj; [| apply seq_NoDup].
    intros x y E. injection E as E. now apply str_inj.
  - intros nm H1 H2. apply in_map_iff in H1 as (x & <- & _).
    apply in_map_iff in H2 as (y & E & _). discriminate.
Qed.

(** warehouse_nary_ad_grid builds the n-ary model: the CSP owns the n * n
    variables of the board and 2 * n constraints, first row0 .. row(n-1)
    over the rows of the board, then column0 .. column(n-1) over its
    columns; their names are pairwise different, and each accepts exactly
    the tuples of n pairwise different values of 1..n. *)
Theorem nary_grid_constraints : forall n r0 rest w,
  exists w',
    warehouse_nary_ad_grid ((n :: r0) :: rest) w =
      (w', Ok (board_of (w_nvar w) n)) /\
    csp_vars (w_csp w') = seq (w_nvar w) (n * n) /\
    map (fun c => (c_name c, c_scope c)) (get_all_cons w') =
      nary_scopes (w_nvar w) n /\
    List.length (get_all_cons w') = 2 * n /\
    NoDup (map c_name (get_all_cons w')) /\
    forall c t, In c (get_all_cons w') ->
      (check c (map Some t) = true <->
       List.length t = n /\ NoDup t /\
       forall v, In v t -> (1 <= v <= Z.of_nat n)%Z).
Proof.
  intros n r0 rest w.
  destruct (nary_grid_run n r0 rest w) as (w' & Hrun & Hvs & Hcs).
  exists w'. split; [exact Hrun |]. split; [exact Hvs |].
  rewrite Hcs. split; [apply made_names |]. split; [| split].
  - rewrite made_length. unfold nary_scopes.
    rewrite length_app, !length_map, range_0, length_seq. lia.
  - pose proof (nary_names_NoDup (w_nvar w) n) as Hnd.
    rewrite <- (made_names (nary_scopes (w_nvar w) n) (w_ncon w)
                  (permutations (map Z.of_nat (seq 1 n)))) in Hnd.
    rewrite map_map in Hnd. exact Hnd.
  - intros c t Hc. apply made_In in Hc as [_ Hst].
    now rewrite check_In, Hst, permutations_In, all_different_iff.
Qed.

Lemma nary_grid_lines : forall n r0 rest w,
  exists w',
    warehouse_nary_ad_grid ((n :: r0) :: rest) w =
      (w', Ok (board_of (w_nvar w) n)) /\
    forall sol,
      satisfies sol w' <-> latin n (fun x y => sol (w_nvar w + x * n + y)).
Proof.
  intros n r0 rest w.
  destruct (nary_grid_run n r0 rest w) as (w' & Hrun & _ & Hcs).
  exists w'. split; [exact Hrun |]. intros sol. unfold satisfies.
  rewrite Hcs.
  set (sat := permutations (map Z.of_nat (seq 1 n))).
  assert (Hrow : forall r,
            map sol (seq (w_nvar w + r * n) n) =
            map (fun y => sol (w_nvar w + r * n + y)) (seq 0 n)).
  { intros r. apply map_seq_shift. }
  assert (Hcol : forall c,
            map sol (map (fun i => w_nvar w + i * n + c) (seq 0 n)) =
            map (fun i => sol (w_nvar w + i * n + c)) (seq 0 n)).
  { intros c. apply map_map. }
  split.
  - intros Hsat.
    assert (Hr : forall r, r < n ->
              In (map (fun y => sol (w_nvar w + r * n + y)) (seq 0 n)) sat).
    { intros r Hlt.
      destruct (made_has (nary_scopes (w_nvar w) n) (w_ncon w) sat
                  ("row" ++ str r)%string (seq (w_nvar w + r * n) n))
        as (c & Hc & _ & Hs).
      - unfold nary_scopes. apply in_or_app. left. apply in_map_iff.
        exists r. split; [reflexivity | apply range_In; lia].
      - pose proof (Hsat c Hc) as Hin. unfold get_scope in Hin.
        rewrite Hs, Hrow in Hin. apply made_In in Hc as [_ Hst].
        now apply Hst. }
    assert (Hc : forall c, c < n ->
              In (map (fun i => sol (w_nvar w + i * n + c)) (seq 0 n)) sat).
    { intros c Hlt.
      destruct (made_has (nary_scopes (w_nvar w) n) (w_ncon w) sat
                  ("column" ++ str c)%string
                  (map (fun i => w_nvar w + i * n + c) (seq 0 n)))
        as (d & Hd & _ & Hs).
      - unfold nary_scopes. apply in_or_app. right. apply in_map_iff.
        exists c. split; [reflexivity | apply range_In; lia].
      - pose proof (Hsat d Hd) as Hin. unfold get_scope in Hin.
        rewrite Hs, Hcol in Hin. apply made_In in Hd as [_ Hst].
        now apply Hst. }
    split; [| split].
    + intros x y Hx Hy.
      exact (proj1 (proj1 (line_all_different n _) (Hr x Hx)) y Hy).
    + intros x y y' Hx Hy Hy' Hne.
      exact (proj2 (proj1 (line_all_different n _) (Hr x Hx)) y y' Hy Hy' Hne).
    + intros x x' y Hx Hx' Hy Hne.
      exact (proj2 (proj1 (line_all_different n _) (Hc y Hy)) x x' Hx Hx' Hne).
  - intros (Hrange & Hrows & Hcols) c Hc.
    pose proof (made_In _ _ _ _ Hc) as [Hsc Hst].
    apply Hst. unfold get_scope. unfold nary_scopes in Hsc.
    apply in_app_or in Hsc as [Hsc | Hsc];
      apply in_map_iff in Hsc as (i & E & Hi); apply range_In in Hi;
      injection E as _ <-.
    + rewrite Hrow. apply line_all_different. split.
      * intros y Hy. apply Hrange; lia.
      * intros y y' Hy Hy' Hne. apply Hrows; trivial. lia.
    + rewrite Hcol. apply line_all_different. split.
      * intros x Hx. apply Hrange; lia.
      * intros x x' Hx Hx' Hne. apply Hcols; trivial. lia.
Qed.

(** The solutions of the model of warehouse_nary_ad_grid are the Latin
    squares: an assignment satisfies every constraint of the CSP exactly
    when the values of the cells lie in 1..n and differ along every row
    and every column of the board. *)
Theorem nary_grid_latin : forall n r0 rest w,
  exists w',
    warehouse_nary_ad_grid ((n :: r0) :: rest) w =
      (w', Ok (board_of (w_nvar w) n)) /\
    forall sol,
      satisfies sol w' <-> latin n (fun x y => sol (w_nvar w + x * n + y)).
Proof.
  exact nary_grid_lines.
Qed.

(** The two grid models agree: from size 2 on, built from the same state,
    warehouse_binary_ne_grid and warehouse_nary_ad_grid return the same
    board, and an assignment satisfies the constraints of the one exactly
    when it satisfies the constraints of the other. *)
Theorem grid_models_agree : forall n r0 rest w,
  2 <= n ->
  exists wb wn board,
    warehouse_binary_ne_grid ((n :: r0) :: rest) w = (wb, Ok board) /\
    warehouse_nary_ad_grid ((n :: r0) :: rest) w = (wn, Ok board) /\
    forall sol, satisfies sol wb <-> satisfies sol wn.
Proof.
  intros n r0 rest w Hn.
  destruct (binary_grid_pairs n r0 rest w) as (wb & Hb & Hpairs).
  destruct (nary_grid_lines n r0 rest w) as (wn & Hnr & Hlat).
  exists wb, wn, (board_of (w_nvar w) n).
  split; [exact Hb |]. split; [exact Hnr |].
  intros sol. rewrite Hpairs, Hlat. split.
  - intros Hall.
    assert (Hpair : forall x y x' y',
              x < n -> y < n -> x' < n -> y' < n ->
              (x = x' /\ y < y') \/ (x < x' /\ y = y') ->
              (1 <= sol (w_nvar w + x * n + y)%nat <= Z.of_nat n)%Z /\
              (1 <= sol (w_nvar w + x' * n + y')%nat <= Z.of_nat n)%Z /\
              sol (w_nvar w + x * n + y) <> sol (w_nvar w + x' * n + y')).
    { intros x y x' y' Hx Hy Hx' Hy' Hline.
      pose proof (Hall x y x' y' Hx Hy Hx' Hy' Hline) as Hin.
      apply ne_tuples_In in Hin as (a & b & E & Ha & Hb' & Hne).
      injection E as -> ->. repeat split; tauto. }
    split; [| split].
    + intros x y Hx Hy. destruct y as [| y].
      * apply (Hpair x 0 x 1); lia.
      * apply (Hpair x 0 x (S y)); lia.
    + intros x y y' Hx Hy Hy' Hne.
      destruct (Nat.lt_ge_cases y y') as [Hlt | Hge].
      * apply (Hpair x y x y'); lia.
      * intros E. symmetry in E. revert E. apply (Hpair x y' x y); lia.
    + intros x x' y Hx Hx' Hy Hne.
      destruct (Nat.lt_ge_cases x x') as [Hlt | Hge].
      * apply (Hpair x y x' y); lia.
      * intros E. symmetry in E. revert E. apply (Hpair x' y x y); lia.
  - intros (Hrange & Hrow & Hcol) x y x' y' Hx Hy Hx' Hy' Hline.
    apply ne_tuples_In. eexists. eexists. split; [reflexivity |].
    split; [now apply Hrange |]. split; [now apply Hrange |].
    destruct Hline as [[<- Hlt] | [Hlt <-]].
    + apply Hrow; trivial. lia.
    + apply Hcol; trivial. lia.
Qed.

Lemma grid_models_agree_witness :
  exists wb wn board,
    warehouse_binary_ne_grid [[2]] chain_world = (wb, Ok board) /\
    warehouse_nary_ad_grid [[2]] chain_world = (wn, Ok board) /\
    forall sol, satisfies sol wb <-> satisfies sol wn.
Proof.
  exact (grid_models_agree 2 [] [] chain_world (le_n 2)).
Defined.

(* ------------------------------------------------------------------ *)
(** ** board_converter *)
(* ------------------------------------------------------------------ *)

Lemma nth_map_seq : forall (B : Type) (f : nat -> B) n i d,
  i < n -> nth i (map f (seq 0 n)) d = f i.
Proof.
  intros B f n i d Hi.
  rewrite (nth_indep _ d (f 0)) by (rewrite length_map, length_seq; lia).
  now rewrite map_nth, seq_nth.
Qed.

Lemma subscript_row : forall (board : list (list Var)) x w,
  x < List.length board ->
  subscript board x w = (w, Ok (nth x board [])).
Proof.
  intros board x w Hx. unfold subscript.
  now rewrite (nth_error_nth' board [] Hx).
Qed.

Lemma subscript_cell : forall (board : list (list Var)) x y w,
  x < List.length board -> y < List.length (nth x board []) ->
  subscript (nth x board []) y w = (w, Ok (cell board x y)).
Proof.
  intros board x y w Hx Hy. unfold subscript, cell.
  now rewrite (nth_error_nth' (nth x board []) 0 Hy).
Qed.

Lemma subscript_short : forall (r : list Var) y w,
  List.length r <= y -> subscript r y w = (w, Raise IndexError).
Proof.
  intros r y w Hy. unfold subscript.
  now rewrite (proj2 (nth_error_None r y) Hy).
Qed.

(** The inner loop of board_converter for row i. *)
Lemma board_converter_row : forall board i k a pre row w,
  (forall r, In r board -> List.length board <= List.length r) ->
  i < List.length board ->
  List.length pre = i ->
  a + k <= List.length board ->
  foldM (fun new_boards j =>
           r <- subscript board (List.length board - j - 1) ;;
           v <- subscript r (List.length board - i - 1) ;;
           match append_at new_boards i v with
           | Some new_boards' => ret new_boards'
           | None => raise IndexError
           end) (seq a k) (pre ++ [row]) w =
  (w, Ok (pre ++ [row ++ map (fun j => cell board (List.length board - 1 - j)
                                              (List.length board - 1 - i))
                             (seq a k)])).
Proof.
  intros board i k. induction k as [| k IH]; intros a pre row w Hwide Hi Hpre Hk.
  - simpl. now rewrite app_nil_r.
  - cbn [seq foldM]. unfold bind at 1. unfold bind at 1.
    assert (Hx : List.length board - a - 1 < List.length board) by lia.
    rewrite (subscript_row board _ w Hx).
    assert (Hy : List.length board - i - 1 <
                 List.length (nth (List.length board - a - 1) board [])).
    { pose proof (Hwide _ (nth_In board [] Hx)). lia. }
    unfold bind at 1. rewrite (subscript_cell board _ _ w Hx Hy).
    pose proof (append_at_mid pre row []
                  (cell board (List.length board - a - 1)
                        (List.length board - i - 1))) as Ha.
    rewrite Hpre in Ha. rewrite Ha. unfold ret at 1.
    rewrite (IH (S a) pre _ w Hwide Hi Hpre) by lia.
    rewrite <- app_assoc. simpl.
    replace (List.length board - 1 - a) with (List.length board - a - 1) by lia.
    replace (List.length board - 1 - i) with (List.length board - i - 1) by lia.
    reflexivity.
Qed.

Lemma board_converter_rows : forall board k a acc w,
  (forall r, In r board -> List.length board <= List.length r) ->
  List.length acc = a ->
  a + k <= List.length board ->
  foldM (fun new_boards i =>
           foldM (fun new_boards j =>
                    r <- subscript board (List.length board - j - 1) ;;
                    v <- subscript r (List.length board - i - 1) ;;
                    match append_at new_boards i v with
                    | Some new_boards' => ret new_boards'
                    | None => raise IndexError
                    end) (seq 0 (List.length board)) (new_boards ++ [[]]))
        (seq a k) acc w =
  (w, Ok (acc ++ map (fun i =>
                        map (fun j => cell board (List.length board - 1 - j)
                                           (List.length board - 1 - i))
                            (seq 0 (List.length board)))
                     (seq a k))).
Proof.
  intros board k. induction k as [| k IH]; intros a acc w Hwide Hacc Hk.
  - simpl. now rewrite app_nil_r.
  - cbn [seq foldM]. unfold bind at 1.
    rewrite (board_converter_row board a (List.length board) 0 acc [] w Hwide)
      by (trivial; lia).
    rewrite IH; trivial; [| rewrite length_app; simpl; lia | lia].
    now rewrite <- app_assoc.
Qed.

Lemma board_converter_wide : forall board w,
  (forall r, In r board -> List.length board <= List.length r) ->
  board_converter board w = (w, Ok (anti_transpose board)).
Proof.
  intros board w Hwide. unfold board_converter, anti_transpose. cbv zeta.
  rewrite range_0.
  now rewrite (board_converter_rows board (List.length board) 0 [] w Hwide).
Qed.

Lemma anti_transpose_length : forall board,
  List.length (anti_transpose board) = List.length board.
Proof.
  intros board. unfold anti_transpose. now rewrite length_map, length_seq.
Qed.

Lemma anti_transpose_square : forall board, square (anti_transpose board).
Proof.
  intros board r Hr. rewrite anti_transpose_length.
  unfold anti_transpose in Hr. apply in_map_iff in Hr as (i & <- & _).
  now rewrite length_map, length_seq.
Qed.

Lemma anti_transpose_cell : forall board x y,
  x < List.length board -> y < List.length board ->
  cell (anti_transpose board) x y =
  cell board (List.length board - 1 - y) (List.length board - 1 - x).
Proof.
  intros board x y Hx Hy. unfold cell at 1. unfold anti_transpose.
  rewrite (nth_map_seq _ _ _ x [] Hx). now rewrite (nth_map_seq _ _ _ y 0 Hy).
Qed.

Lemma anti_transpose_involutive : forall board,
  square board -> anti_transpose (anti_transpose board) = board.
Proof.
  intros board Hsq.
  apply (nth_ext _ _ [] []).
  - now rewrite !anti_transpose_length.
  - intros i Hi. rewrite !anti_transpose_length in Hi.
    assert (Hrow : List.length (nth i board []) = List.length board)
      by (apply Hsq, nth_In, Hi).
    unfold anti_transpose at 1. rewrite anti_transpose_length.
    rewrite (nth_map_seq _ _ _ i [] Hi).
    apply (nth_ext _ _ 0 0).
    + rewrite length_map, length_seq. symmetry. exact Hrow.
    + intros j Hj. rewrite length_map, length_seq in Hj.
      rewrite (nth_map_seq _ _ _ j 0 Hj).
      rewrite anti_transpose_cell by lia.
      unfold cell. f_equal; [lia |]. f_equal. lia.
Qed.

Lemma cell_board_at : forall board x y,
  x < List.length board -> y < List.length (nth x board []) ->
  board_at board x y = Some (cell board x y).
Proof.
  intros board x y Hx Hy. unfold board_at, cell.
  rewrite (nth_error_nth' board [] Hx).
  now rewrite (nth_error_nth' (nth x board []) 0 Hy).
Qed.

(** On a board of n rows of n cells, board_converter returns the n x n
    board whose cell [i][j] is the cell [n - 1 - j][n - 1 - i] of the
    board it is given, and converting that board gives the first one
    back. *)
Theorem board_converter_involutive : forall board w,
  square board ->
  exists board',
    board_converter board w = (w, Ok board') /\
    List.length board' = List.length board /\
    square board' /\
    (forall i j, i < List.length board -> j < List.length board ->
       board_at board' i j =
       board_at board (List.length board - 1 - j) (List.length board - 1 - i)) /\
    board_converter board' w = (w, Ok board).
Proof.
  intros board w Hsq.
  assert (Hwide : forall r, In r board -> List.length board <= List.length r).
  { intros r Hr. rewrite (Hsq r Hr). lia. }
  exists (anti_transpose board).
  split; [exact (board_converter_wide board w Hwide) |].
  split; [apply anti_transpose_length |].
  split; [apply anti_transpose_square |]. split.
  - intros i j Hi Hj.
    assert (Hrow : forall x, x < List.length board ->
                             List.length (nth x board []) = List.length board)
      by (intros x Hx; apply Hsq, nth_In, Hx).
    rewrite (cell_board_at (anti_transpose board) i j).
    + rewrite (cell_board_at board) by (try rewrite Hrow; lia).
      now rewrite anti_transpose_cell.
    + now rewrite anti_transpose_length.
    + rewrite (anti_transpose_square board); [now rewrite anti_transpose_length |].
      apply nth_In. now rewrite anti_transpose_length.
  - rewrite board_converter_wide.
    + now rewrite anti_transpose_involutive.
    + intros r Hr. rewrite (anti_transpose_square board r Hr). lia.
Qed.

Lemma square_board_of : forall base n, square (board_of base n).
Proof.
  intros base n r Hr. rewrite board_of_length. unfold board_of in Hr.
  apply in_map_iff in Hr as (x & <- & _). apply length_seq.
Qed.

Lemma board_converter_involutive_witness :
  exists board',
    board_converter (board_of 0 3) chain_world = (chain_world, Ok board') /\
    List.length board' = List.length (board_of 0 3) /\
    square board' /\
    (forall i j, i < List.length (board_of 0 3) ->
                 j < List.length (board_of 0 3) ->
       board_at board' i j =
       board_at (board_of 0 3) (List.length (board_of 0 3) - 1 - j)
                (List.length (board_of 0 3) - 1 - i)) /\
    board_converter board' chain_world = (chain_world, Ok (board_of 0 3)).
Proof.
  exact (board_converter_involutive (board_of 0 3) chain_world
           (square_board_of 0 3)).
Defined.

(** The first pass of board_converter reads the last column, row after row
    from the bottom: it raises at the first row that is too short. *)
Lemma board_converter_first_pass : forall (board : list (list Var)) k a
                                          (row : list Var) w,
  a + k <= List.length board ->
  (exists j, a <= j < a + k /\
             List.length (nth (List.length board - j - 1) board []) <
             List.length board) ->
  foldM (fun new_boards j =>
           r <- subscript board (List.length board - j - 1) ;;
           v <- subscript r (List.length board - 0 - 1) ;;
           match append_at new_boards 0 v with
           | Some new_boards' => ret new_boards'
           | None => raise IndexError
           end) (seq a k) [row] w =
  (w, Raise IndexError).
Proof.
  intros board k. induction k as [| k IH]; intros a row w Hk (j & Hj & Hshort).
  - lia.
  - cbn [seq foldM]. unfold bind at 1. unfold bind at 1.
    assert (Hx : List.length board - a - 1 < List.length board) by lia.
    rewrite (subscript_row board _ w Hx). unfold bind at 1.
    destruct (Nat.lt_ge_cases
                (List.length (nth (List.length board - a - 1) board []))
                (List.length board)) as [Hlt | Hge].
    + rewrite subscript_short by lia. reflexivity.
    + rewrite (subscript_cell board _ _ w Hx) by lia.
      simpl append_at. unfold ret at 1.
      apply IH; [lia |]. exists j. split; [| exact Hshort].
      destruct (Nat.eq_dec j a) as [-> | Hne]; [lia | lia].
Qed.

(** board_converter raises IndexError as soon as a row of the board has
    fewer cells than the board has rows, and leaves the objects as they
    were. *)
Theorem board_converter_short_row : forall board w,
  (exists r, In r board /\ List.length r < List.length board) ->
  board_converter board w = (w, Raise IndexError).
Proof.
  intros board w (r & Hr & Hshort).
  destruct (In_nth board r [] Hr) as (x & Hx & Hnth).
  assert (Hs : seq 0 (List.length board) = 0 :: seq 1 (List.length board - 1)).
  { destruct (List.length board); [lia | simpl; now rewrite Nat.sub_0_r]. }
  unfold board_converter. cbv zeta. rewrite range_0.
  match goal with |- foldM ?f _ _ _ = _ => set (body := f) end.
  rewrite Hs. cbn [foldM]. unfold bind at 1. subst body. cbv beta. simpl app.
  rewrite (board_converter_first_pass board (List.length board) 0 [] w).
  - reflexivity.
  - lia.
  - exists (List.length board - 1 - x). split; [lia |].
    replace (List.length board - (List.length board - 1 - x) - 1) with x by lia.
    rewrite Hnth. lia.
Qed.

Lemma board_converter_short_row_witness :
  board_converter [[0; 1]; [2]] chain_world = (chain_world, Raise IndexError).
Proof.
  apply (board_converter_short_row [[0; 1]; [2]] chain_world).
  exists [2]. split; [right; now left | simpl; lia].
Defined.

(* ------------------------------------------------------------------ *)
(** ** coordinate_converter *)
(* ------------------------------------------------------------------ *)

(** coordinate_converter finds a cell by the digits of its name: for a row
    digit a and a column digit b within 1..n it gives the subscripts
    (n - a, b - 1), which are in range on the board of init_board, and the
    variable there is the one init_board named str(a) + str(b). *)
Theorem coordinate_converter_names : forall n a b w,
  1 <= a <= n -> 1 <= b <= n ->
  exists w' board X,
    init_board n w = (w', Ok board) /\
    coordinate_converter (Z.of_nat a) (Z.of_nat b) (Z.of_nat n) =
      (Z.of_nat (n - a), Z.of_nat (b - 1)) /\
    board_at board (n - a) (b - 1) = Some X /\
    v_name (w_var w' X) = (str a ++ str b)%string.
Proof.
  intros n a b w Ha Hb.
  destruct (init_board_vars n w) as (w' & Hrun & _ & _ & Hcell & _).
  destruct (Hcell (n - a) (b - 1)) as [Hat Hvar]; [lia | lia |].
  exists w', (board_of (w_nvar w) n), (w_nvar w + (n - a) * n + (b - 1)).
  split; [exact Hrun |]. split; [| split; [exact Hat |]].
  - unfold coordinate_converter. cbv zeta. f_equal; lia.
  - rewrite Hvar. cbn [v_name].
    replace (n - (n - a)) with a by lia. replace (b - 1 + 1) with b by lia.
    reflexivity.
Qed.

Lemma coordinate_converter_names_witness :
  exists w' board X,
    init_board 3 chain_world = (w', Ok board) /\
    coordinate_converter 1 2 3 = (2%Z, 1%Z) /\
    board_at board 2 1 = Some X /\
    v_name (w_var w' X) = "12"%string.
Proof.
  exact (coordinate_converter_names 3 1 2 chain_world
           (conj (le_n 1) (le_S _ _ (le_S _ _ (le_n 1))))
           (conj (le_S _ _ (le_n 1)) (le_S _ _ (le_n 2)))).
Defined.

(* ------------------------------------------------------------------ *)
(** ** The buildings of the full model *)
(* ------------------------------------------------------------------ *)

Lemma two_digits : forall code,
  code < 100 -> 1 <= code / 10 ->
  match String.get 0 (str code), String.get 1 (str code) with
  | Some c0, Some c1 =>
      nat_of_ascii c0 = 48 + code / 10 /\ nat_of_ascii c1 = 48 + code mod 10
  | _, _ => False
  end.
Proof.
  intros code Hlt Hge.
  assert (Hall : forallb (fun code =>
            Nat.ltb (code / 10) 1 ||
            match String.get 0 (str code), String.get 1 (str code) with
            | Some c0, Some c1 =>
                Nat.eqb (nat_of_ascii c0) (48 + code / 10)
                && Nat.eqb (nat_of_ascii c1) (48 + code mod 10)
            | _, _ => false
            end) (seq 0 100) = true) by (vm_compute; reflexivity).
  rewrite forallb_forall in Hall.
  specialize (Hall code (proj2 (in_seq 100 0 code) (conj (Nat.le_0_l _) Hlt))).
  apply orb_true_iff in Hall as [Hall | Hall].
  - apply Nat.ltb_lt in Hall. lia.
  - destruct (String.get 0 (str code)) as [c0 |]; [| discriminate].
    destruct (String.get 1 (str code)) as [c1 |]; [| discriminate].
    apply andb_true_iff in Hall as [H0 H1].
    apply Nat.eqb_eq in H0. apply Nat.eqb_eq in H1. now split.
Qed.

Lemma int_of_char_digit : forall c d w,
  nat_of_ascii c = 48 + d -> d <= 9 ->
  int_of_char c w = (w, BOk (Z.of_nat d)).
Proof.
  intros c d w Hc Hd. unfold int_of_char. cbv zeta. rewrite Hc.
  replace (Nat.leb 48 (48 + d)) with true by (symmetry; apply Nat.leb_le; lia).
  replace (Nat.leb (48 + d) 57) with true by (symmetry; apply Nat.leb_le; lia).
  cbn [andb]. unfold bret. do 3 f_equal. lia.
Qed.

Lemma py_index_nat : forall (A : Type) (l : list A) (i : nat) w,
  py_index l (Z.of_nat i) w = subscript l i w.
Proof.
  intros A l i w. unfold py_index. cbv zeta.
  replace (0 <=? Z.of_nat i)%Z with true by (symmetry; apply Z.leb_le; lia).
  now rewrite Nat2Z.id.
Qed.

(** One cell of a building: the code is read as two digits, and the
    variable is taken from the board at the subscripts
    coordinate_converter gives. *)
Lemma building_cell : forall base n code w,
  n <= 9 -> 1 <= code / 10 <= n -> 1 <= code mod 10 <= n ->
  (c0 <- lift (str_index (str code) 0) ;;
   a <- int_of_char c0 ;;
   c1 <- lift (str_index (str code) 1) ;;
   b <- int_of_char c1 ;;
   r <- lift (py_index (board_of base n)
                       (fst (coordinate_converter a b (Z.of_nat n)))) ;;
   lift (py_index r (snd (coordinate_converter a b (Z.of_nat n)))))%build w =
  (w, BOk (code_cell base n code)).
Proof.
  intros base n code w Hn Ha Hb.
  assert (Hlt : code < 100).
  { pose proof (Nat.div_mod_eq code 10) as E.
    pose proof (Nat.mod_upper_bound code 10). lia. }
  pose proof (two_digits code Hlt (proj1 Ha)) as Hd.
  unfold bbind at 1. unfold lift at 1. unfold str_index at 1.
  destruct (String.get 0 (str code)) as [c0 |]; [| destruct Hd].
  unfold str_index in *.
  destruct (String.get 1 (str code)) as [c1 |]; [| destruct Hd].
  destruct Hd as [H0 H1]. unfold ret at 1.
  unfold bbind at 1. rewrite (int_of_char_digit c0 (code / 10) w H0) by lia.
  unfold bbind at 1. unfold lift at 1. unfold ret at 1.
  unfold bbind at 1. rewrite (int_of_char_digit c1 (code mod 10) w H1) by lia.
  unfold coordinate_converter. cbv zeta. cbn [fst snd].
  replace (Z.of_nat n - Z.of_nat (code / 10))%Z
    with (Z.of_nat (n - code / 10)) by lia.
  replace (Z.of_nat (code mod 10) - 1)%Z
    with (Z.of_nat (code mod 10 - 1)) by lia.
  unfold bbind at 1. unfold lift at 1. rewrite py_index_nat.
  unfold subscript at 1. rewrite (board_row base n (n - code / 10)) by lia.
  unfold ret at 1. unfold lift. rewrite py_index_nat.
  unfold subscript. rewrite (seq_at _ n (code mod 10 - 1)) by lia.
  reflexivity.
Qed.

Lemma building_vars_fold : forall base n codes rest k a acc w,
  n <= 9 ->
  Forall (fun code => 1 <= code / 10 <= n /\ 1 <= code mod 10 <= n) codes ->
  a + k <= List.length codes ->
  bfoldM (fun vars j =>
            num <- lift (subscript (codes ++ rest) j) ;;
            let temp := str num in
            c0 <- lift (str_index temp 0) ;;
            a <- int_of_char c0 ;;
            c1 <- lift (str_index temp 1) ;;
            b <- int_of_char c1 ;;
            let coord := coordinate_converter a b (Z.of_nat n) in
            r <- lift (py_index (board_of base n) (fst coord)) ;;
            v <- lift (py_index r (snd coord)) ;;
            bret (vars ++ [v]))%build
         (seq a k) acc w =
  (w, BOk (acc ++ map (fun j => code_cell base n (nth j codes 0)) (seq a k))).
Proof.
  intros base n codes rest k.
  induction k as [| k IH]; intros a acc w Hn Hcodes Hk.
  - simpl. now rewrite app_nil_r.
  - cbn [seq bfoldM map]. unfold bbind at 1. unfold bbind at 1.
    unfold lift at 1. unfold subscript at 1.
    rewrite nth_error_app1 by lia.
    rewrite (nth_error_nth' codes 0) by lia. unfold ret at 1. cbv zeta.
    assert (Hcode : 1 <= nth a codes 0 / 10 <= n /\
                    1 <= nth a codes 0 mod 10 <= n).
    { rewrite Forall_forall in Hcodes. apply Hcodes. apply nth_In. lia. }
    pose proof (building_cell base n (nth a codes 0) w Hn
                  (proj1 Hcode) (proj2 Hcode)) as Hcell.
    unfold bbind in Hcell |- *.
    destruct (lift (str_index (str (nth a codes 0)) 0) w)
      as [w1 [c0 | e]]; [| discriminate].
    destruct (int_of_char c0 w1) as [w2 [x | e]]; [| discriminate].
    destruct (lift (str_index (str (nth a codes 0)) 1) w2)
      as [w3 [c1 | e]]; [| discriminate].
    destruct (int_of_char c1 w3) as [w4 [y | e]]; [| discriminate].
    destruct (lift (py_index (board_of base n)
                             (fst (coordinate_converter x y (Z.of_nat n)))) w4)
      as [w5 [r | e]]; [| discriminate].
    rewrite Hcell. unfold bret at 1.
    fold (bbind (A := list Var) (C := list Var)).
    rewrite (IH (S a) _ w Hn Hcodes) by lia.
    now rewrite <- app_assoc.
Qed.

Lemma map_nth_all : forall (l : list nat) (f : nat -> Var),
  map (fun j => f (nth j l 0)) (seq 0 (List.length l)) = map f l.
Proof.
  intros l f. rewrite <- (map_map (fun j => nth j l 0) f). f_equal.
  apply (nth_ext _ _ 0 0).
  - now rewrite length_map, length_seq.
  - intros i Hi. rewrite length_map, length_seq in Hi.
    now rewrite (nth_map_seq nat (fun j => nth j l 0) _ i 0 Hi).
Qed.

(** The variables of a building whose cells are named by two digits
    within 1..n: the cells of the board with these names, in order. *)
Lemma building_vars_codes : forall base n codes operator value w,
  n <= 9 ->
  Forall (fun code => 1 <= code / 10 <= n /\ 1 <= code mod 10 <= n) codes ->
  building_vars (codes ++ [operator; value]) (board_of base n) n w =
  (w, BOk (map (code_cell base n) codes)).
Proof.
  intros base n codes operator value w Hn Hcodes. unfold building_vars.
  rewrite length_app. simpl List.length.
  replace (List.length codes + 2 - 2) with (List.length codes) by lia.
  rewrite range_0.
  pose proof (building_vars_fold base n codes [operator; value]
                (List.length codes) 0 [] w Hn Hcodes (le_n _)) as Hfold.
  cbv zeta in Hfold |- *. rewrite Hfold.
  simpl app. now rewrite map_nth_all.
Qed.

Lemma row_operator : forall (codes : list nat) operator value w,
  py_index (codes ++ [operator; value])
           (Z.of_nat (List.length (codes ++ [operator; value])) - 2) w =
  (w, Ok operator).
Proof.
  intros codes operator value w. rewrite length_app. simpl List.length.
  replace (Z.of_nat (List.length codes + 2) - 2)%Z
    with (Z.of_nat (List.length codes)) by lia.
  rewrite py_index_nat. unfold subscript.
  rewrite nth_error_app2, Nat.sub_diag by lia. reflexivity.
Qed.

Lemma row_value : forall (codes : list nat) operator value w,
  py_index (codes ++ [operator; value])
           (Z.of_nat (List.length (codes ++ [operator; value])) - 1) w =
  (w, Ok value).
Proof.
  intros codes operator value w. rewrite length_app. simpl List.length.
  replace (Z.of_nat (List.length codes + 2) - 1)%Z
    with (Z.of_nat (S (List.length codes))) by lia.
  rewrite py_index_nat. unfold subscript.
  rewrite nth_error_app2 by lia.
  replace (S (List.length codes) - List.length codes) with 1 by lia.
  reflexivity.
Qed.

Lemma product_In : forall (ls : list (list Value)) t,
  In t (product ls) <-> Forall2 (fun l v => In v l) ls t.
Proof.
  induction ls as [| l ls IH]; intros t; simpl.
  - split.
    + intros [<- | []]. constructor.
    + intros H. inversion H. now left.
  - rewrite in_flat_map. split.
    + intros (a & Ha & Hin). apply in_map_iff in Hin as (t' & <- & Ht').
      constructor; [exact Ha | now apply IH].
    + intros H. inversion H as [| ? v ? t' Hv Hrest]; subst.
      exists v. split; [exact Hv |]. apply in_map. now apply IH.
Qed.

Lemma Forall2_map_vars : forall (g : Var -> list Value) vars t,
  Forall2 (fun l v => In v l) (map g vars) t <->
  Forall2 (fun X v => In v (g X)) vars t.
Proof.
  intros g vars. induction vars as [| X vars IH]; intros t; simpl.
  - split; intros H; inversion H; constructor.
  - split; intros H; inversion H; subst; constructor; trivial; now apply IH.
Qed.

Lemma fold_min_glb : forall l a c,
  (c <= fold_left Z.min l a)%Z <-> (c <= a)%Z /\ forall v, In v l -> (c <= v)%Z.
Proof.
  induction l as [| b l IH]; intros a c; simpl.
  - split; [intros H; split; [exact H | intros v []] | tauto].
  - rewrite IH, Z.min_glb_iff. split.
    + intros [[Ha Hb] Hl]. split; [exact Ha |].
      intros v [<- | Hv]; [exact Hb | now apply Hl].
    + intros [Ha Hl]. split; [split; [exact Ha | apply Hl; now left] |].
      intros v Hv. apply Hl. now right.
Qed.

Lemma fold_max_lub : forall l a c,
  (fold_left Z.max l a <= c)%Z <-> (a <= c)%Z /\ forall v, In v l -> (v <= c)%Z.
Proof.
  induction l as [| b l IH]; intros a c; simpl.
  - split; [intros H; split; [exact H | intros v []] | tauto].
  - rewrite IH, Z.max_lub_iff. split.
    + intros [[Ha Hb] Hl]. split; [exact Ha |].
      intros v [<- | Hv]; [exact Hb | now apply Hl].
    + intros [Ha Hl]. split; [split; [exact Ha | apply Hl; now left] |].
      intros v Hv. apply Hl. now right.
Qed.

(** The loop that keeps the tuples whose least value is at least
    [value]: it goes through when no tuple is empty. *)
Lemma min_loop : forall value items acc w,
  (forall item, In item items -> item <> []) ->
  bfoldM (fun sat item =>
            m <- py_min item ;;
            if Z.leb (Z.of_nat value) m then bret (sat ++ [item])
            else bret sat)%build items acc w =
  (w, BOk (acc ++ filter (fun item =>
                            forallb (Z.leb (Z.of_nat value)) item) items)).
Proof.
  intros value items. induction items as [| item items IH]; intros acc w Hne.
  - simpl. now rewrite app_nil_r.
  - cbn [bfoldM filter]. unfold bbind at 1. unfold bbind at 1.
    destruct item as [| a item]; [now destruct (Hne [] (or_introl eq_refl)) |].
    unfold py_min at 1. unfold bret at 1.
    assert (E : Z.leb (Z.of_nat value) (fold_left Z.min item a) =
                forallb (Z.leb (Z.of_nat value)) (a :: item)).
    { apply eq_true_iff_eq. rewrite Z.leb_le, fold_min_glb, forallb_forall.
      split.
      - intros [Ha Hl] v [<- | Hv]; apply Z.leb_le; [exact Ha | now apply Hl].
      - intros H. split; [apply Z.leb_le, H; now left |].
        intros v Hv. apply Z.leb_le, H. now right. }
    rewrite E. destruct (forallb (Z.leb (Z.of_nat value)) (a :: item)).
    + unfold bret at 1. rewrite IH by (intros i Hi; apply Hne; now right).
      now rewrite <- app_assoc.
    + unfold bret at 1. apply IH. intros i Hi. apply Hne. now right.
Qed.

Lemma max_loop : forall value items acc w,
  (forall item, In item items -> item <> []) ->
  bfoldM (fun sat item =>
            m <- py_max item ;;
            if Z.leb m (Z.of_nat value) then bret (sat ++ [item])
            else bret sat)%build items acc w =
  (w, BOk (acc ++ filter (fun item =>
                            forallb (fun v => Z.leb v (Z.of_nat value)) item)
                         items)).
Proof.
  intros value items. induction items as [| item items IH]; intros acc w Hne.
  - simpl. now rewrite app_nil_r.
  - cbn [bfoldM filter]. unfold bbind at 1. unfold bbind at 1.
    destruct item as [| a item]; [now destruct (Hne [] (or_introl eq_refl)) |].
    unfold py_max at 1. unfold bret at 1.
    assert (E : Z.leb (fold_left Z.max item a) (Z.of_nat value) =
                forallb (fun v => Z.leb v (Z.of_nat value)) (a :: item)).
    { apply eq_true_iff_eq. rewrite Z.leb_le, fold_max_lub, forallb_forall.
      split.
      - intros [Ha Hl] v [<- | Hv]; apply Z.leb_le; [exact Ha | now apply Hl].
      - intros H. split; [apply Z.leb_le, H; now left |].
        intros v Hv. apply Z.leb_le, H. now right. }
    rewrite E. destruct (forallb (fun v => Z.leb v (Z.of_nat value)) (a :: item)).
    + unfold bret at 1. rewrite IH by (intros i Hi; apply Hne; now right).
      now rewrite <- app_assoc.
    + unfold bret at 1. apply IH. intros i Hi. apply Hne. now right.
Qed.

Lemma product_nonempty : forall (ls : list (list Value)) t,
  ls <> [] -> In t (product ls) -> t <> [].
Proof.
  intros ls t Hne Hin. apply product_In in Hin.
  destruct Hin; [contradiction | discriminate].
Qed.

(** The tuples building_sat computes: it returns, with the tuples the
    operator asks for, unless the operator is 2 or 3 and the building has
    no cell. *)
Lemma building_sat_spec : forall operator value vars w,
  (operator = 2 \/ operator = 3 -> vars <> []) ->
  exists sat,
    building_sat operator value vars w = (w, BOk sat) /\
    forall t, In t sat <-> building_tuples operator value vars w t.
Proof.
  intros operator value vars w Hcells. unfold building_sat.
  destruct operator as [| [| [| [| op]]]]; cbn [Nat.eqb].
  - eexists. split; [reflexivity |]. intros t. simpl. split.
    + intros [<- | []]. reflexivity.
    + intros ->. now left.
  - eexists. split; [reflexivity |]. intros t. simpl.
    rewrite filter_In, product_In, Forall2_map_vars, Z.eqb_eq. reflexivity.
  - unfold bbind at 1. unfold lift at 1. unfold gets at 1. cbv beta iota.
    rewrite min_loop.
    + eexists. split; [reflexivity |]. intros t. simpl.
      rewrite filter_In, product_In, Forall2_map_vars, forallb_forall.
      split; intros [H1 H2]; (split; [exact H1 |]); intros v Hv;
        apply Z.leb_le; now apply H2.
    + intros item Hin. refine (product_nonempty _ item _ Hin).
      destruct vars; [| discriminate].
      exfalso. now apply (Hcells (or_introl eq_refl)).
  - unfold bbind at 1. unfold lift at 1. unfold gets at 1. cbv beta iota.
    rewrite max_loop.
    + eexists. split; [reflexivity |]. intros t. simpl.
      rewrite filter_In, product_In, Forall2_map_vars, forallb_forall.
      split; intros [H1 H2]; (split; [exact H1 |]); intros v Hv;
        apply Z.leb_le; now apply H2.
    + intros item Hin. refine (product_nonempty _ item _ Hin).
      destruct vars; [| discriminate].
      exfalso. now apply (Hcells (or_intror eq_refl)).
  - eexists. split; [reflexivity |]. intros t. simpl. tauto.
Qed.

Lemma building_tuples_ext : forall operator value vars w1 w2 t,
  w_var w1 = w_var w2 ->
  (building_tuples operator value vars w1 t <->
   building_tuples operator value vars w2 t).
Proof.
  intros operator value vars w1 w2 t E.
  unfold building_tuples, domain, cur_domain. now rewrite E.
Qed.

(** One building: the round of the loop returns and appends one
    constraint, over the cells the codes name, with the tuples the
    operator asks for. *)
Lemma building_spec : forall repr base n cage w,
  n <= 9 -> cage_ok n cage ->
  exists c,
    building repr (cage_row cage) (board_of base n) n w =
    (mkWorld (mkCSP (csp_name (w_csp w)) (csp_vars (w_csp w))
                    (csp_cons (w_csp w) ++ [c]))
             (w_var w) (w_nvar w) (S (w_ncon w)), BOk tt) /\
    cid c = w_ncon w /\
    c_name c =
      ("c[" ++ join ", " (map (fun var => repr var w)
                              (map (code_cell base n) (fst (fst cage))))
            ++ "]")%string /\
    cage_con base n w cage c.
Proof.
  intros repr base n [[codes operator] value] w Hn (Hcodes & Hcells & _).
  unfold cage_row, cage_con. cbn [fst snd] in *. unfold building.
  unfold bbind at 1. rewrite (building_vars_codes base n codes operator value w Hn Hcodes).
  unfold bbind at 1. unfold lift at 1. rewrite row_operator.
  unfold bbind at 1. unfold lift at 1. rewrite row_value.
  unfold bbind at 1. unfold lift at 1. unfold gets at 1.
  unfold bbind at 1. unfold lift at 1. unfold new_Constraint at 1.
  assert (Hc : operator = 2 \/ operator = 3 ->
               map (code_cell base n) codes <> []).
  { intros H E. apply (Hcells H). now destruct codes. }
  destruct (building_sat_spec operator value (map (code_cell base n) codes)
              (mkWorld (w_csp w) (w_var w) (w_nvar w) (S (w_ncon w))) Hc)
    as (sat & Hsat & Ht).
  unfold bbind at 1. rewrite Hsat.
  unfold lift, add_constraint. cbn [w_csp w_var w_nvar w_ncon].
  eexists. split; [reflexivity |]. split; [reflexivity |].
  split; [reflexivity |]. split; [reflexivity |].
  intros t. unfold add_satisfying_tuples. cbn [sat_tuples c_scope].
  rewrite add_tuples_In. simpl In. rewrite Ht.
  split; [intros [[] | H] | intros H; right]; revert H;
    apply building_tuples_ext; reflexivity.
Qed.

Lemma buildings_loop : forall repr base n cages pre w,
  n <= 9 -> Forall (cage_ok n) cages ->
  exists cs w',
    bforM (seq (List.length pre) (List.length cages))
          (fun i => bbind (lift (subscript (pre ++ map cage_row cages) i))
                          (fun row => building repr row (board_of base n) n)) w =
    (w', BOk tt) /\
    w_var w' = w_var w /\ w_nvar w' = w_nvar w /\
    csp_name (w_csp w') = csp_name (w_csp w) /\
    csp_vars (w_csp w') = csp_vars (w_csp w) /\
    csp_cons (w_csp w') = csp_cons (w_csp w) ++ cs /\
    Forall2 (cage_con base n w) cages cs.
Proof.
  intros repr base n cages.
  induction cages as [| cage cages IH]; intros pre w Hn Hok.
  - exists [], w. simpl. rewrite app_nil_r. repeat split; constructor.
  - inversion Hok as [| ? ? Hcage Hrest]; subst.
    destruct (building_spec repr base n cage w Hn Hcage)
      as (c & Hrun & _ & _ & Hcon).
    set (w1 := mkWorld (mkCSP (csp_name (w_csp w)) (csp_vars (w_csp w))
                              (csp_cons (w_csp w) ++ [c]))
                       (w_var w) (w_nvar w) (S (w_ncon w))) in *.
    destruct (IH (pre ++ [cage_row cage]) w1 Hn Hrest)
      as (cs & w' & Hloop & Hv & Hnv & Hnm & Hvs & Hcs & Hall).
    exists (c :: cs), w'. split; [| split; [| split; [| split; [| split; [| split]]]]].
    + cbn [List.length seq bforM map]. unfold bbind at 1. unfold bbind at 1.
      unfold lift at 1. unfold subscript at 1.
      rewrite nth_error_app2, Nat.sub_diag by lia. cbn [nth_error].
      unfold ret at 1. rewrite Hrun.
      rewrite length_app, <- app_assoc in Hloop. simpl in Hloop.
      rewrite Nat.add_1_r in Hloop. exact Hloop.
    + exact Hv.
    + exact Hnv.
    + exact Hnm.
    + exact Hvs.
    + rewrite Hcs. subst w1. simpl. now rewrite <- app_assoc.
    + constructor; [exact Hcon |].
      eapply Forall2_impl; [| exact Hall].
      intros cg d [Hs Ht]. split; [exact Hs |]. intros t. rewrite Ht.
      now apply building_tuples_ext.
Qed.

Lemma building_tuples_arity : forall operator value vars w t,
  (operator = 0 -> List.length vars = 1) ->
  building_tuples operator value vars w t ->
  List.length t = List.length vars.
Proof.
  intros operator value vars w t Hone Ht.
  destruct operator as [| [| [| [| k]]]]; simpl in Ht.
  - subst t. symmetry. exact (Hone eq_refl).
  - destruct Ht as [F _]. symmetry. exact (Forall2_length F).
  - destruct Ht as [F _]. symmetry. exact (Forall2_length F).
  - destruct Ht as [F _]. symmetry. exact (Forall2_length F).
  - destruct Ht.
Qed.

Lemma cage_con_arity : forall base n w cage c,
  cage_ok n cage -> cage_con base n w cage c ->
  forall t, In t (sat_tuples c) -> List.length t = List.length (get_scope c).
Proof.
  intros base n w cage c (_ & _ & Hone) [Hs Ht] t Hin.
  apply Ht in Hin. unfold get_scope.
  apply (building_tuples_arity (snd (fst cage)) (snd cage) (c_scope c) w t);
    [| exact Hin].
  intros E. rewrite Hs, length_map. exact (Hone E).
Qed.

(** constraint_generator_for_building on well-formed buildings: for a board
    of init_board of size n <= 9 and rows whose codes name cells by two
    digits within 1..n (with a cell at least for the operators 2 and 3, and
    one cell exactly for the operator 0), it returns and appends one
    constraint for every row, in order, over the cells named, with the
    tuples the operator asks for: the value alone (0), values that add up
    to it (1), values all at least it (2), values all at most it (3), no
    tuple for another operator; every tuple has the arity of the scope, and
    nothing else changes. *)
Theorem buildings_constraints : forall repr base n cages w,
  n <= 9 -> Forall (cage_ok n) cages ->
  exists cs w',
    constraint_generator_for_building repr (map cage_row cages)
                                      (board_of base n) w = (w', BOk tt) /\
    get_all_cons w' = get_all_cons w ++ cs /\
    w_var w' = w_var w /\
    csp_vars (w_csp w') = csp_vars (w_csp w) /\
    Forall2 (cage_con base n w) cages cs /\
    Forall (fun c => forall t, In t (sat_tuples c) ->
                               List.length t = List.length (get_scope c)) cs.
Proof.
  intros repr base n cages w Hn Hok.
  destruct (buildings_loop repr base n cages [] w Hn Hok)
    as (cs & w' & Hloop & Hv & _ & _ & Hvs & Hcs & Hall).
  exists cs, w'. split; [| split; [| split; [| split; [| split]]]]; trivial.
  - unfold constraint_generator_for_building. cbv zeta.
    rewrite board_of_length, length_map, range_0. exact Hloop.
  - clear Hloop Hcs. induction Hall as [| cage c cages cs Hc Hall IH].
    + constructor.
    + inversion Hok as [| ? ? Hcage Hrest]; subst.
      constructor; [exact (cage_con_arity base n w cage c Hcage Hc) |].
      exact (IH Hrest).
Qed.

Lemma buildings_constraints_witness :
  exists cs w',
    constraint_generator_for_building (fun X _ => str X)
      (map cage_row [([11; 12], 1, 4); ([22], 0, 2)]) (board_of 0 3)
      (fst (init_board 3 empty_world)) = (w', BOk tt) /\
    get_all_cons w' = get_all_cons (fst (init_board 3 empty_world)) ++ cs /\
    w_var w' = w_var (fst (init_board 3 empty_world)) /\
    csp_vars (w_csp w') = csp_vars (w_csp (fst (init_board 3 empty_world))) /\
    Forall2 (cage_con 0 3 (fst (init_board 3 empty_world)))
            [([11; 12], 1, 4); ([22], 0, 2)] cs /\
    Forall (fun c => forall t, In t (sat_tuples c) ->
                               List.length t = List.length (get_scope c)) cs.
Proof.
  apply (buildings_constraints (fun X _ => str X) 0 3
           [([11; 12], 1, 4); ([22], 0, 2)] (fst (init_board 3 empty_world))).
  - lia.
  - constructor; [| constructor; [| constructor]];
      (split; [repeat constructor; simpl; lia |]);
      (split; [intros [H | H]; discriminate H |]);
      intros H; try discriminate H; reflexivity.
Defined.

(* ------------------------------------------------------------------ *)
(** ** Buildings that cannot be built *)
(* ------------------------------------------------------------------ *)






(* ------------------------------------------------------------------ *)
(** ** warehouse_full_model *)
(* ------------------------------------------------------------------ *)

(** The cells of the board of warehouse_binary_ne_grid. *)
Lemma binary_grid_cells : forall n r0 rest w,
  exists w',
    warehouse_binary_ne_grid ((n :: r0) :: rest) w =
      (w', Ok (board_of (w_nvar w) n)) /\
    forall i j, i < n -> j < n ->
      w_var w' (w_nvar w + i * n + j) =
      mkVar (str (n - i) ++ str (j + 1))
            (map Z.of_nat (seq 1 n)) (map Z.of_nat (seq 1 n)) None.
Proof.
  intros n r0 rest w. unfold warehouse_binary_ne_grid.
  unfold bind at 1. unfold new_CSP at 1. cbn beta iota.
  unfold bind at 1. unfold subscript at 1. cbn [nth_error]. unfold ret at 1.
  unfold bind at 1. unfold subscript at 1. cbn [nth_error]. unfold ret at 1.
  unfold bind at 1.
  match goal with
  | |- context [init_board n ?w0] =>
      destruct (init_board_vars n w0) as (w1 & Hib & _ & _ & Hcell & _)
  end.
  rewrite Hib. cbn [w_nvar] in *.
  destruct (generator_builds (w_nvar w) n (ne_tuples n) w1)
    as (w2 & Hgen & Hv & _).
  unfold bind at 1. rewrite Hgen.
  exists w2. split; [reflexivity |].
  intros i j Hi Hj. rewrite Hv. now apply Hcell.
Qed.

Lemma cell_board_of : forall base n x y,
  x < n -> y < n -> cell (board_of base n) x y = base + x * n + y.
Proof.
  intros base n x y Hx Hy.
  pose proof (board_of_at base n x y Hx Hy) as H1.
  rewrite (cell_board_at (board_of base n) x y) in H1.
  - now injection H1.
  - now rewrite board_of_length.
  - rewrite (square_board_of base n); [now rewrite board_of_length |].
    apply nth_In. now rewrite board_of_length.
Qed.

(** warehouse_full_model on a well-formed warehouse: for a size n <= 9 and
    buildings whose codes name cells by two digits within 1..n (with a cell
    at least for the operators 2 and 3, and one cell exactly for the
    operator 0), it returns the board of init_board read from the opposite
    corner, so that the variable at [i][j] is the one named
    str(j + 1) + str(n - i), with domain 1..n.  The CSP owns the n * n
    variables of the board, the constraints of the binary grid model and,
    after them, one constraint for every building, in order, over the cells
    its codes name and with the tuples its operator asks for. *)
Theorem full_model_returns : forall repr n r0 cages w,
  n <= 9 -> Forall (cage_ok n) cages ->
  exists cs w',
    warehouse_full_model repr ((n :: r0) :: map cage_row cages) w =
      (w', BOk (anti_transpose (board_of (w_nvar w) n))) /\
    csp_vars (w_csp w') = seq (w_nvar w) (n * n) /\
    get_all_cons w' =
      made (w_ncon w) (grid_scopes (w_nvar w) n) (ne_tuples n) ++ cs /\
    Forall2 (cage_con (w_nvar w) n w') cages cs /\
    forall i j, i < n -> j < n ->
      exists X,
        board_at (anti_transpose (board_of (w_nvar w) n)) i j = Some X /\
        w_var w' X =
        mkVar (str (j + 1) ++ str (n - i))
              (map Z.of_nat (seq 1 n)) (map Z.of_nat (seq 1 n)) None.
Proof.
  intros repr n r0 cages w Hn Hok.
  destruct (binary_grid_run n r0 (map cage_row cages) w)
    as (w1 & Hrun & Hvs & Hcs).
  destruct (binary_grid_cells n r0 (map cage_row cages) w)
    as (w1' & Hrun' & Hcells).
  rewrite Hrun in Hrun'. injection Hrun' as <-.
  destruct (buildings_loop repr (w_nvar w) n cages [] w1 Hn Hok)
    as (cs & w' & Hloop & Hv & _ & _ & Hvs' & Hcs' & Hall).
  exists cs, w'. split; [| split; [| split; [| split]]].
  - unfold warehouse_full_model.
    unfold bbind at 1. unfold lift at 1. rewrite Hrun.
    unfold bbind at 1. cbn [skipn].
    unfold constraint_generator_for_building. cbv zeta.
    rewrite board_of_length, length_map, range_0.
    simpl in Hloop. rewrite Hloop.
    unfold lift.
    rewrite (board_converter_wide (board_of (w_nvar w) n) w'); [reflexivity |].
    intros r Hr. rewrite (square_board_of _ _ r Hr).
    rewrite board_of_length. lia.
  - now rewrite Hvs'.
  - unfold get_all_cons in *. now rewrite Hcs', Hcs.
  - eapply Forall2_impl; [| exact Hall].
    intros cg d [Hs Ht]. split; [exact Hs |]. intros t. rewrite Ht.
    apply building_tuples_ext. now symmetry.
  - intros i j Hi Hj.
    exists (w_nvar w + (n - 1 - j) * n + (n - 1 - i)). split.
    + rewrite (cell_board_at (anti_transpose (board_of (w_nvar w) n)) i j).
      * rewrite anti_transpose_cell by (rewrite board_of_length; lia).
        rewrite board_of_length, cell_board_of by lia. reflexivity.
      * now rewrite anti_transpose_length, board_of_length.
      * rewrite (anti_transpose_square (board_of (w_nvar w) n));
          [now rewrite anti_transpose_length, board_of_length |].
        apply nth_In. now rewrite anti_transpose_length, board_of_length.
    + rewrite Hv, Hcells by lia. do 2 f_equal; f_equal; lia.
Qed.

Lemma full_model_returns_witness :
  exists cs w',
    warehouse_full_model (fun X _ => str X)
      ([2] :: map cage_row [([11; 12], 1, 3); ([22], 0, 2)]) empty_world =
      (w', BOk (anti_transpose (board_of (w_nvar empty_world) 2))) /\
    csp_vars (w_csp w') = seq (w_nvar empty_world) (2 * 2) /\
    get_all_cons w' =
      made (w_ncon empty_world) (grid_scopes (w_nvar empty_world) 2)
           (ne_tuples 2) ++ cs /\
    Forall2 (cage_con (w_nvar empty_world) 2 w')
            [([11; 12], 1, 3); ([22], 0, 2)] cs /\
    forall i j, i < 2 -> j < 2 ->
      exists X,
        board_at (anti_transpose (board_of (w_nvar empty_world) 2)) i j =
          Some X /\
        w_var w' X =
        mkVar (str (j + 1) ++ str (2 - i))
              (map Z.of_nat (seq 1 2)) (map Z.of_nat (seq 1 2)) None.
Proof.
  apply (full_model_returns (fun X _ => str X) 2 []
           [([11; 12], 1, 3); ([22], 0, 2)] empty_world).
  - lia.
  - constructor; [| constructor; [| constructor]];
      (split; [repeat constructor; simpl; lia |]);
      (split; [intros [H | H]; discriminate H |]);
      intros H; try discriminate H; reflexivity.
Defined.
